(** * parseidf: the IDF tokenizer, grammar and zone extractor

    A shallow embedding of [parseidf.py].  The module has three layers:

    - the PLY token rules ([t_COMMENT], [t_newline], [t_VALUE], [t_COMMA],
      [t_SEMICOLON], [t_error]);
    - the PLY grammar rules ([p_idffile] ... [p_valuelist_multiple],
      [p_error]) and the entry point [parse];
    - [extract_zones], which walks the dictionary returned by [parse].

    Python values are modelled as follows.  A [str] is a [string] (the
    texts are taken to be ASCII: [upper] and [strip] act on the ASCII
    letters and the ASCII white space only).  A [list] is a [list].  A
    [dict] keyed by strings is a [gmap string _]; the order in which a
    dict enumerates its keys is not modelled, nothing below depends on
    it.  A raised exception is the [Raise] case of [result].  What
    [print] writes is collected in a list. *)

From Stdlib Require Import ZArith Lia Ascii String List QArith.
From stdpp Require Import base option gmap strings list fin_maps.

Local Open Scope string_scope.
Local Open Scope list_scope.

(** ** Exceptions *)

(** Why a [ValueError] was raised: the source raises it from
    [list.index], [float] and [int]. *)
Inductive value_error : Type :=
  | NotInList (x : string)
  | BadFloat (s : string)
  | BadInt (s : string).

(** The two messages of the module's [SyntaxError]s: [Illegal character
    '%s' at line %d of input] and [Syntax error in input on line %d]. *)
Inductive syntax_error : Type :=
  | IllegalCharacter (c : ascii)
  | SyntaxErrorInInput.

Inductive exn : Type :=
  | ValueError (why : value_error)
  | IndexError
  | KeyError (key : string)
  | TypeError
  | SyntaxError (what : syntax_error) (line : Z).

Inductive result (A : Type) : Type :=
  | Ok (a : A)
  | Raise (e : exn).
Arguments Ok {A} a.
Arguments Raise {A} e.

(** Sequencing: an exception skips the rest.  The instances give the
    notation [x ← c; k]. *)
#[global] Instance result_ret : MRet result := fun _ a => Ok a.
#[global] Instance result_bind : MBind result := fun _ _ k r =>
  match r with
  | Ok a => k a
  | Raise e => Raise e
  end.

#[global] Instance result_fmap : FMap result := fun _ _ f r =>
  match r with
  | Ok a => Ok (f a)
  | Raise e => Raise e
  end.

#[global] Instance value_error_eq_dec : EqDecision value_error.
Proof. solve_decision. Defined.

#[global] Instance syntax_error_eq_dec : EqDecision syntax_error.
Proof. solve_decision. Defined.

#[global] Instance exn_eq_dec : EqDecision exn.
Proof. solve_decision. Defined.

(** [l[i]] for a non-negative index. *)
Definition getitem {A} (l : list A) (i : nat) : result A :=
  match l !! i with
  | Some x => Ok x
  | None => Raise IndexError
  end.

(** [l.index(x)]: the position of the first element equal to [x]. *)
Fixpoint index_from (l : list string) (x : string) (i : nat) : result nat :=
  match l with
  | [] => Raise (ValueError (NotInList x))
  | y :: l' => if decide (y = x) then Ok i else index_from l' x (S i)
  end.

Definition list_index (l : list string) (x : string) : result nat :=
  index_from l x 0.

(** ** Integers from text

    [int(s)] is only ever applied to a field that [list.index] found equal
    to the text [4]; the model covers an optional sign followed by decimal
    digits. *)
Definition digit_of (c : ascii) : option Z :=
  let n := Z.of_N (N_of_ascii c) in
  if ((48 <=? n) && (n <=? 57))%Z then Some (n - 48)%Z else None.

Fixpoint digits_value (s : string) (acc : Z) : option Z :=
  match s with
  | EmptyString => Some acc
  | String c s' =>
      match digit_of c with
      | Some d => digits_value s' (10 * acc + d)%Z
      | None => None
      end
  end.

Definition unsigned_value (s : string) : option Z :=
  match s with
  | EmptyString => None
  | _ => digits_value s 0%Z
  end.

Definition py_int (s : string) : option Z :=
  match s with
  | String "-" s' => Z.opp <$> unsigned_value s'
  | String "+" s' => unsigned_value s'
  | _ => unsigned_value s
  end.

Definition int_ (s : string) : result Z :=
  match py_int s with
  | Some n => Ok n
  | None => Raise (ValueError (BadInt s))
  end.

(** ** The zone extractor *)

(** One line of what [extract_zones] prints: the surface record that was
    given up and the error that caused it. *)
Record report : Type := Report {
  report_surface : list string;
  report_error : value_error
}.

Section Extractor.

(** The floating-point numbers and the conversion [float(s)], which
    either yields a number or raises [ValueError]. *)
Context {float : Type} (py_float : string -> option float).

Definition point : Type := float * float * float.

(** The value stored for a zone: the dict with the keys [origin] and
    [surfaces]. *)
Record ZoneGeometry : Type := ZG {
  origin : point;
  surfaces : list (list point)
}.

Definition float_ (s : string) : result float :=
  match py_float s with
  | Some f => Ok f
  | None => Raise (ValueError (BadFloat s))
  end.

(** [float(l[i])] *)
Definition float_at (l : list string) (i : nat) : result float :=
  s ← getitem l i; float_ s.

(** The body of the first loop. *)
Definition zone_step (zones : gmap string ZoneGeometry) (zone : list string)
  : result (gmap string ZoneGeometry) :=
  zone_name ← getitem zone 1;
  x ← float_at zone 3;
  y ← float_at zone 4;
  z ← float_at zone 5;
  Ok (<[zone_name := ZG (x, y, z) []]> zones).

Fixpoint zone_loop (zs : list (list string)) (zones : gmap string ZoneGeometry)
  : result (gmap string ZoneGeometry) :=
  match zs with
  | [] => Ok zones
  | zone :: zs' => zones' ← zone_step zones zone; zone_loop zs' zones'
  end.

(** The loop [for i in range(num_vertices)], from [i] on, with the
    vertices collected so far. *)
Fixpoint vertex_loop (surface : list string) (start : nat) (i count : nat)
    (vertices : list point) : result (list point) :=
  match count with
  | O => Ok vertices
  | S count' =>
      x ← float_at surface (start + i * 3);
      y ← float_at surface (start + i * 3 + 1);
      z ← float_at surface (start + i * 3 + 2);
      vertex_loop surface start (S i) count' (vertices ++ [(x, y, z)])
  end.

(** The statements of the [try] block up to the final [append]: they
    yield the vertex list. *)
Definition read_vertices (surface : list string) : result (list point) :=
  num_vertices_index ← list_index surface "4";
  field ← getitem surface num_vertices_index;
  num_vertices ← int_ field;
  let vertices_start_index := num_vertices_index + 1 in
  vertex_loop surface vertices_start_index 0 (Z.to_nat num_vertices) [].

(** [zones[zone_name]["surfaces"].append(vertices)] *)
Definition append_surface (zones : gmap string ZoneGeometry) (zone_name : string)
    (vertices : list point) : gmap string ZoneGeometry :=
  match zones !! zone_name with
  | Some zg => <[zone_name := ZG (origin zg) (surfaces zg ++ [vertices])]> zones
  | None => zones
  end.

(** The body of the second loop: the new [zones] or the exception that
    leaves the function, and what the iteration printed. *)
Definition surface_step (zones : gmap string ZoneGeometry) (surface : list string)
  : result (gmap string ZoneGeometry) * list report :=
  match getitem surface 4 with
  | Raise e => (Raise e, [])
  | Ok zone_name =>
      if decide (is_Some (zones !! zone_name)) then
        match read_vertices surface with
        | Ok vertices => (Ok (append_surface zones zone_name vertices), [])
        | Raise (ValueError e) => (Ok zones, [Report surface e])
        | Raise e => (Raise e, [])
        end
      else (Ok zones, [])
  end.

Fixpoint surface_loop (ss : list (list string)) (zones : gmap string ZoneGeometry)
    (printed : list report) : result (gmap string ZoneGeometry) * list report :=
  match ss with
  | [] => (Ok zones, printed)
  | surface :: ss' =>
      match surface_step zones surface with
      | (Ok zones', out) => surface_loop ss' zones' (printed ++ out)
      | (Raise e, out) => (Raise e, printed ++ out)
      end
  end.

(** [d.get(key, [])] *)
Definition get_records (d : gmap string (list (list string))) (key : string)
  : list (list string) :=
  default [] (d !! key).

Definition extract_zones (parsed_idf : gmap string (list (list string)))
  : result (gmap string ZoneGeometry) * list report :=
  match zone_loop (get_records parsed_idf "ZONE") ∅ with
  | Raise e => (Raise e, [])
  | Ok zones =>
      surface_loop (get_records parsed_idf "BUILDINGSURFACE:DETAILED") zones []
  end.

End Extractor.

Arguments ZG {float} origin surfaces.
Arguments origin {float} z.
Arguments surfaces {float} z.

(** ** Texts *)

Definition code (c : ascii) : N := N_of_ascii c.

(** [s.upper()] on ASCII text. *)
Definition upper_char (c : ascii) : ascii :=
  if ((97 <=? code c) && (code c <=? 122))%N
  then ascii_of_N (code c - 32) else c.

Fixpoint upper (s : string) : string :=
  match s with
  | EmptyString => EmptyString
  | String c s' => String (upper_char c) (upper s')
  end.

(** The ASCII characters that [str.strip()] removes. *)
Definition is_space (c : ascii) : bool :=
  (((9 <=? code c) && (code c <=? 13)) || ((28 <=? code c) && (code c <=? 32)))%N.

Fixpoint lstrip (s : string) : string :=
  match s with
  | EmptyString => EmptyString
  | String c s' => if is_space c then lstrip s' else s
  end.

Fixpoint rstrip (s : string) : string :=
  match s with
  | EmptyString => EmptyString
  | String c s' =>
      match rstrip s' with
      | EmptyString => if is_space c then EmptyString else String c EmptyString
      | t => String c t
      end
  end.

Definition strip (s : string) : string := rstrip (lstrip s).

Fixpoint count_char (c : ascii) (s : string) : nat :=
  match s with
  | EmptyString => 0
  | String d s' => (if decide (d = c) then 1 else 0) + count_char c s'
  end.

Fixpoint take_string (n : nat) (s : string) : string :=
  match n, s with
  | S n', String c s' => String c (take_string n' s')
  | _, _ => EmptyString
  end.

(** ** Regular expressions

    The token rules are Python regular expressions.  [regex] has the
    constructs they use; matching follows the backtracking order of
    Python's [re]: alternatives left to right, repetitions greedy. *)

Inductive regex : Type :=
  | Eps
  | Class (p : ascii -> bool)
  | Cat (r1 r2 : regex)
  | Alt (r1 r2 : regex)
  | Star (r : regex).

Definition Plus (r : regex) : regex := Cat r (Star r).
Definition Opt (r : regex) : regex := Alt r Eps.

(** [re_match fuel r s k]: match [r] at the start of [s] and hand what is
    left of [s] to [k]; when [k] refuses, try the next way of matching
    [r].  A repetition tries one more round before it tries to stop; a
    round that consumes nothing ends it. *)
Fixpoint re_match {A} (fuel : nat) : regex -> string -> (string -> option A) -> option A :=
  fix go (r : regex) (s : string) (k : string -> option A) {struct r} : option A :=
    match r with
    | Eps => k s
    | Class p =>
        match s with
        | String c s' => if p c then k s' else None
        | EmptyString => None
        end
    | Cat r1 r2 => go r1 s (fun s' => go r2 s' k)
    | Alt r1 r2 =>
        match go r1 s k with
        | Some a => Some a
        | None => go r2 s k
        end
    | Star r1 =>
        match fuel with
        | O => None
        | S fuel' =>
            match go r1 s (fun s' =>
                    if (String.length s' <? String.length s)%nat
                    then re_match fuel' (Star r1) s' k else None) with
            | Some a => Some a
            | None => k s
            end
        end
    end.

(** Whether a pattern matches the empty text. *)
Fixpoint nullable (r : regex) : bool :=
  match r with
  | Eps => true
  | Class _ => false
  | Cat r1 r2 => nullable r1 && nullable r2
  | Alt r1 r2 => nullable r1 || nullable r2
  | Star _ => true
  end.

(** [re.match(r, s)]: the matched text and the rest of [s]. *)
Definition regex_match (r : regex) (s : string) : option (string * string) :=
  match re_match (S (String.length s)) r s Some with
  | Some rest => Some (take_string (String.length s - String.length rest) s, rest)
  | None => None
  end.

(** Character classes. *)
Definition one_of (l : list ascii) (c : ascii) : bool := bool_decide (c ∈ l).
Definition none_of (l : list ascii) (c : ascii) : bool := negb (one_of l c).

Definition TAB : ascii := "009"%char.
Definition LF : ascii := "010"%char.
Definition CR : ascii := "013"%char.

(** [[ \t]*] *)
Definition blanks : regex := Star (Class (one_of [" "%char; TAB])).

(** ** The tokenizer *)

Inductive token_type : Type := VALUE | COMMA | SEMICOLON | COMMENT | NEWLINE.

#[global] Instance token_type_eq_dec : EqDecision token_type.
Proof. solve_decision. Defined.

(** PLY's [LexToken]: [t.type], [t.value] and [t.lineno]. *)
Record LexToken : Type := Token {
  tok_type : token_type;
  tok_value : string;
  tok_lineno : Z
}.

(** [r'[ \t]*,[ \t]*'] *)
Definition t_COMMA : regex :=
  Cat blanks (Cat (Class (one_of [","%char])) blanks).

(** [r'[ \t]*;[ \t]*'] *)
Definition t_SEMICOLON : regex :=
  Cat blanks (Cat (Class (one_of [";"%char])) blanks).

(** [r'[ \t\r\n]*!.*']; the dot matches every character but the line feed. *)
Definition t_COMMENT_re : regex :=
  Cat (Star (Class (one_of [" "%char; TAB; CR; LF])))
      (Cat (Class (one_of ["!"%char])) (Star (Class (none_of [LF])))).

(** [r'[ \t]*(\r?\n)+'] *)
Definition t_newline_re : regex :=
  Cat blanks (Plus (Cat (Opt (Class (one_of [CR]))) (Class (one_of [LF])))).

(** [r'[ \t]*([^!,;\n]|[*])+[ \t]*'] *)
Definition t_VALUE_re : regex :=
  Cat blanks
      (Cat (Plus (Alt (Class (none_of ["!"%char; ","%char; ";"%char; LF]))
                      (Class (one_of ["*"%char]))))
           blanks).

(** A token function receives the token [t] (whose [t.lineno] is a copy of
    the lexer's line counter) and the lexer's line counter [t.lexer.lineno];
    it returns a token or nothing, and the lexer's counter. *)
Definition token_fn : Type := LexToken -> Z -> result (option LexToken * Z).

(** [t_COMMENT] adds the newlines of the comment to [t.lineno], a field of
    the token, and returns nothing.  PLY copies the lexer's counter into
    [t.lineno] when it makes the token and never copies it back: the
    token is dropped and the lexer's counter is as before. *)
Definition t_COMMENT : token_fn := fun t lexer_lineno =>
  let newlines := count_char LF (tok_value t) in
  let t := Token (tok_type t) (tok_value t) (tok_lineno t + Z.of_nat newlines) in
  Ok (None, lexer_lineno).

(** [t_newline] adds the length of the matched text to the lexer's
    counter. *)
Definition t_newline : token_fn := fun t lexer_lineno =>
  Ok (None, (lexer_lineno + Z.of_nat (String.length (tok_value t)))%Z).

Definition t_VALUE : token_fn := fun t lexer_lineno =>
  Ok (Some t, lexer_lineno).

(** [t_error] raises; the call of [skip] after the [raise] is never
    reached.  [t.value] is the text from the offending position on. *)
Definition t_error (t_value : string) (lexer_lineno : Z) : exn :=
  match t_value with
  | String c _ => SyntaxError (IllegalCharacter c) lexer_lineno
  | EmptyString => IndexError
  end.

(** A rule of the lexer: the type of its tokens, its pattern and, for a
    rule given as a function, the function. *)
Record lex_rule : Type := Rule {
  rule_type : token_type;
  rule_re : regex;
  rule_fn : option token_fn
}.

(** PLY tries the rules given as functions first, in the order of their
    definition, then the rules given as strings (the longer pattern
    first; the two here are equally long and never match at the same
    place).  PLY compiles the patterns in verbose mode, in which a blank
    inside a character class still stands for itself. *)
Definition lex_rules : list lex_rule :=
  [ Rule COMMENT t_COMMENT_re (Some t_COMMENT);
    Rule NEWLINE t_newline_re (Some t_newline);
    Rule VALUE t_VALUE_re (Some t_VALUE);
    Rule COMMA t_COMMA None;
    Rule SEMICOLON t_SEMICOLON None ].

(** The first rule whose pattern matches at the start of [lexdata], with
    the matched text. *)
Fixpoint first_match (rules : list lex_rule) (lexdata : string)
  : option (lex_rule * string) :=
  match rules with
  | [] => None
  | rule :: rules' =>
      match regex_match (rule_re rule) lexdata with
      | Some (text, _) => Some (rule, text)
      | None => first_match rules' lexdata
      end
  end.

(** What the lexer does at one position: it returns a token, or drops
    the match and goes on, or raises.  [advance] is the length of the
    matched text. *)
Inductive lex_step : Type :=
  | Return (t : LexToken) (advance : nat) (lexer_lineno : Z)
  | Skip (advance : nat) (lexer_lineno : Z)
  | Fail (e : exn).

Definition lex_one (lexdata : string) (lexer_lineno : Z) : lex_step :=
  match first_match lex_rules lexdata with
  | Some (rule, text) =>
      let tok := Token (rule_type rule) text lexer_lineno in
      match rule_fn rule with
      | None => Return tok (String.length text) lexer_lineno
      | Some func =>
          match func tok lexer_lineno with
          | Ok (Some newtok, lineno') => Return newtok (String.length text) lineno'
          | Ok (None, lineno') => Skip (String.length text) lineno'
          | Raise e => Fail e
          end
      end
  | None => Fail (t_error lexdata lexer_lineno)
  end.

(** How a token stream ends: the input is used up, with the final value
    of the lexer's line counter, or the lexer raised. *)
Inductive stream_end : Type :=
  | AtEnd (lexer_lineno : Z)
  | Raised (e : exn).

(** The tokens that successive calls of [lexer.token()] return, each with
    the value of the lexer's line counter after the call.  [lexdata] is
    the input from the current character on; [ahead] counts the
    characters that the last match still covers ([lexpos] is [ahead]
    characters further on).  No rule matches the empty text, so the
    lexer is always at least one character further after a match. *)
Fixpoint token_stream (lexdata : string) (ahead : nat) (lexer_lineno : Z)
  : list (LexToken * Z) * stream_end :=
  match lexdata with
  | EmptyString => ([], AtEnd lexer_lineno)
  | String _ rest =>
      match ahead with
      | S ahead' => token_stream rest ahead' lexer_lineno
      | O =>
          match lex_one lexdata lexer_lineno with
          | Return t n lineno' =>
              let '(ts, fin) := token_stream rest (n - 1) lineno' in
              ((t, lineno') :: ts, fin)
          | Skip n lineno' => token_stream rest (n - 1) lineno'
          | Fail e => ([], Raised e)
          end
      end
  end.

(** [lexer.input(input)]: the line counter starts at 1. *)
Definition lexer_input (input : string) : list (LexToken * Z) * stream_end :=
  token_stream input 0 1%Z.

(** ** The grammar *)

Definition idfobject : Type := list string.

(** The functions of the grammar rules; [p1], [p2], [p3] are [p[1]],
    [p[2]], [p[3]] and the result is [p[0]]. *)

(** [objectname : VALUE] *)
Definition p_objectname (p1 : string) : string := strip p1.

(** [valuelist : VALUE] *)
Definition p_valuelist (p1 : string) : list string := [strip p1].

(** [valuelist : VALUE COMMA valuelist] *)
Definition p_valuelist_multiple (p1 : string) (p3 : list string) : list string :=
  [strip p1] ++ p3.

(** [idfobject : objectname SEMICOLON] *)
Definition p_idfobject (p1 : string) : idfobject := [p1].

(** [idfobject : objectname COMMA valuelist SEMICOLON] *)
Definition p_idfobject_with_values (p1 : string) (p3 : list string) : idfobject :=
  [p1] ++ p3.

(** [idfobjectlist : idfobject] *)
Definition p_idfobjectlist (p1 : idfobject) : list idfobject := [p1].

(** [idfobjectlist : idfobject idfobjectlist] *)
Definition p_idfobjectlist_multiple (p1 : idfobject) (p2 : list idfobject)
  : list idfobject :=
  [p1] ++ p2.

(** [result.setdefault(key, []).append(x)] *)
Definition setdefault_append (d : gmap string (list idfobject))
    (key : string) (x : idfobject) : gmap string (list idfobject) :=
  <[key := default [] (d !! key) ++ [x]]> d.

(** [idffile : idfobjectlist]; [d] is the dict [result]. *)
Fixpoint p_idffile_loop (p1 : list idfobject) (d : gmap string (list idfobject))
  : result (gmap string (list idfobject)) :=
  match p1 with
  | [] => Ok d
  | idfobject :: p1' =>
      name ← getitem idfobject 0;
      p_idffile_loop p1' (setdefault_append d (upper name) idfobject)
  end.

Definition p_idffile (p1 : list idfobject) : result (gmap string (list idfobject)) :=
  p_idffile_loop p1 ∅.

(** [p_error]: the line is the lexer's line counter at the time. *)
Definition p_error (lexer_lineno : Z) : exn :=
  SyntaxError SyntaxErrorInInput lexer_lineno.

(** ** The parser

    PLY builds an LALR(1) parser for the grammar; the grammar has no
    conflicts.  The parser reads the tokens from left to right, keeps what
    it has recognised on its stack and runs the function of a rule when
    it reduces by it; on a token that cannot continue the input read so
    far it calls [p_error].  [parser_state] is the stack of the parser
    inside an object; the objects already reduced are kept beside it. *)
Inductive parser_state : Type :=
  | AtObject
      (** between objects: a [VALUE] starts an object *)
  | AfterName (name : string)
      (** [objectname] is on the stack *)
  | AtValue (name : string) (values : list string)
      (** [objectname COMMA] and then [VALUE COMMA] for each of [values] *)
  | AfterValue (name : string) (values : list string) (last : string).
      (** as [AtValue], and one more [VALUE] *)

(** The reductions by the two [valuelist] rules, once the [SEMICOLON] is
    seen: first [valuelist : VALUE] for the last value, then
    [valuelist : VALUE COMMA valuelist] for the values before it, from the
    right. *)
Definition reduce_valuelist (values : list string) (last : string) : list string :=
  foldr p_valuelist_multiple (p_valuelist last) values.

(** The same for the two [idfobjectlist] rules, at the end of the input. *)
Definition reduce_idfobjectlist (objects : list idfobject) (last : idfobject)
  : list idfobject :=
  foldr p_idfobjectlist_multiple (p_idfobjectlist last) objects.

(** Splits a list at its last element. *)
Fixpoint unsnoc {A} (l : list A) : option (list A * A) :=
  match l with
  | [] => None
  | x :: l' =>
      match unsnoc l' with
      | None => Some ([], x)
      | Some (init, last) => Some (x :: init, last)
      end
  end.

(** The run of the parser over the token stream; [objects] are the
    objects reduced so far.  It yields the value of [idfobjectlist]. *)
Fixpoint parser_run (ts : list (LexToken * Z)) (fin : stream_end)
    (objects : list idfobject) (st : parser_state) : result (list idfobject) :=
  match ts with
  | [] =>
      match fin with
      | Raised e => Raise e
      | AtEnd lexer_lineno =>
          match st, unsnoc objects with
          | AtObject, Some (init, last) => Ok (reduce_idfobjectlist init last)
          | _, _ => Raise (p_error lexer_lineno)
          end
      end
  | (t, lexer_lineno) :: ts' =>
      match st, tok_type t with
      | AtObject, VALUE =>
          parser_run ts' fin objects (AfterName (p_objectname (tok_value t)))
      | AfterName name, SEMICOLON =>
          parser_run ts' fin (objects ++ [p_idfobject name]) AtObject
      | AfterName name, COMMA =>
          parser_run ts' fin objects (AtValue name [])
      | AtValue name values, VALUE =>
          parser_run ts' fin objects (AfterValue name values (tok_value t))
      | AfterValue name values last, COMMA =>
          parser_run ts' fin objects (AtValue name (values ++ [last]))
      | AfterValue name values last, SEMICOLON =>
          parser_run ts' fin
            (objects ++ [p_idfobject_with_values name (reduce_valuelist values last)])
            AtObject
      | _, _ => Raise (p_error lexer_lineno)
      end
  end.

(** [parser.parse()]: the value of the start symbol [idffile]. *)
Definition parser_parse (stream : list (LexToken * Z) * stream_end)
  : result (gmap string (list idfobject)) :=
  p1 ← parser_run stream.1 stream.2 [] AtObject;
  p_idffile p1.

Definition parse (input : string) : result (gmap string (list idfobject)) :=
  parser_parse (lexer_input input).

(** ** A conversion [float] for the examples

    The rational number that a plain decimal numeral denotes: an optional
    sign, digits, and at most one point with digits on at least one side.
    Python's [float] rounds this number to a double and accepts further
    notations; the examples below only use numerals that both read and
    texts that both refuse. *)
Fixpoint split_point (s : string) : string * option string :=
  match s with
  | EmptyString => (EmptyString, None)
  | String c s' =>
      if decide (c = "."%char) then (EmptyString, Some s')
      else let '(a, b) := split_point s' in (String c a, b)
  end.

Definition decimal_unsigned (s : string) : option Q :=
  let '(int_part, frac) := split_point s in
  let frac_part := default EmptyString frac in
  match (int_part ++ frac_part)%string with
  | EmptyString => None
  | digits =>
      n ← digits_value digits 0%Z;
      Some (Qred (Qmake n (Z.to_pos (10 ^ Z.of_nat (String.length frac_part)))))
  end.

Definition decimal_float (s : string) : option Q :=
  match s with
  | String "-" s' => Qopp <$> decimal_unsigned s'
  | String "+" s' => decimal_unsigned s'
  | _ => decimal_unsigned s
  end.

Definition nl : string := String LF EmptyString.
Definition cr : string := String CR EmptyString.

(** ** What the second loop may change

    [grows zg zg']: the entry [zg'] has the origin of [zg] and its
    surfaces, followed by further polygons of four vertices each. *)
Definition grows {float} (zg zg' : @ZoneGeometry float) : Prop :=
  origin zg' = origin zg /\
  exists more, surfaces zg' = surfaces zg ++ more /\
               Forall (fun polygon => length polygon = 4%nat) more.

(** [zones_grow zones zones']: the same names, and each entry grows. *)
Definition zones_grow {float} (zones zones' : gmap string (@ZoneGeometry float)) : Prop :=
  forall name,
    match zones !! name, zones' !! name with
    | Some zg, Some zg' => grows zg zg'
    | None, None => True
    | _, _ => False
    end.

(** ** The extractor on a store of objects

    [extract_zones] once more, now with the lists and dicts of Python as
    objects in a store, so that it can be said which of them a call
    changes.  A value is a string, a tuple of three floats, or a reference
    to a list or a dict in the store.  The store is the list of all
    objects; a reference is a position in it, and a new object is put at
    the end.  The input is taken to have the types of the output of
    [parse]; a value of another type raises [TypeError]. *)
Module Store.

(** A reference is a position in the store. *)
Abbreviation loc := nat.

Section Store.

Context {float : Type} (py_float : string -> option float).

Inductive value : Type :=
  | VStr (s : string)
  | VPoint (p : float * float * float)
  | VRef (l : loc).

Inductive object : Type :=
  | OList (items : list value)
  | ODict (items : gmap string value).

Record state : Type := State {
  heap : list object;
  stdout : list (list value * value_error)
}.

(** A computation: it yields a value or raises, and leaves a state. *)
Definition M (A : Type) : Type := state -> result A * state.

#[local] Instance M_ret : MRet M := fun _ a st => (Ok a, st).
#[local] Instance M_bind : MBind M := fun _ _ k c st =>
  match c st with
  | (Ok a, st') => k a st'
  | (Raise e, st') => (Raise e, st')
  end.

Definition raise {A} (e : exn) : M A := fun st => (Raise e, st).

Definition alloc (o : object) : M value := fun st =>
  (Ok (VRef (length (heap st))), State (heap st ++ [o]) (stdout st)).

Definition load (l : loc) : M object := fun st =>
  match heap st !! l with
  | Some o => (Ok o, st)
  | None => (Raise TypeError, st)
  end.

Definition store (l : loc) (o : object) : M unit := fun st =>
  (Ok tt, State (<[l := o]> (heap st)) (stdout st)).

Definition print (surface : list value) (e : value_error) : M unit := fun st =>
  (Ok tt, State (heap st) (stdout st ++ [(surface, e)])).

(** [try: body except ValueError as e: handler e] *)
Definition try_except_ValueError {A} (body : M A) (handler : value_error -> M A) : M A :=
  fun st =>
    match body st with
    | (Raise (ValueError e), st') => handler e st'
    | other => other
    end.

Definition as_ref (v : value) : M loc :=
  match v with
  | VRef l => mret l
  | _ => raise TypeError
  end.

Definition as_str (v : value) : M string :=
  match v with
  | VStr s => mret s
  | _ => raise TypeError
  end.

Definition load_list (v : value) : M (list value) :=
  l ← as_ref v;
  o ← load l;
  match o with
  | OList items => mret items
  | ODict _ => raise TypeError
  end.

Definition load_dict (v : value) : M (gmap string value) :=
  l ← as_ref v;
  o ← load l;
  match o with
  | ODict items => mret items
  | OList _ => raise TypeError
  end.

(** [d.get(key, dflt)] *)
Definition dict_get (d : value) (key : string) (dflt : value) : M value :=
  items ← load_dict d;
  mret (default dflt (items !! key)).

(** [d[key]] *)
Definition dict_getitem (d : value) (key : string) : M value :=
  items ← load_dict d;
  match items !! key with
  | Some v => mret v
  | None => raise (KeyError key)
  end.

(** [key in d] *)
Definition dict_contains (d : value) (key : value) : M bool :=
  k ← as_str key;
  items ← load_dict d;
  mret (bool_decide (is_Some (items !! k))).

(** [d[key] = v] *)
Definition dict_setitem (d : value) (key : value) (v : value) : M unit :=
  k ← as_str key;
  l ← as_ref d;
  items ← load_dict d;
  store l (ODict (<[k := v]> items)).

(** [l[i]] *)
Definition list_getitem (l : value) (i : nat) : M value :=
  items ← load_list l;
  match items !! i with
  | Some v => mret v
  | None => raise IndexError
  end.

(** [l.append(v)] *)
Definition list_append (l : value) (v : value) : M unit :=
  r ← as_ref l;
  items ← load_list l;
  store r (OList (items ++ [v])).

Fixpoint index_of (items : list value) (x : string) (i : nat) : option nat :=
  match items with
  | [] => None
  | VStr s :: items' => if decide (s = x) then Some i else index_of items' x (S i)
  | _ :: items' => index_of items' x (S i)
  end.

(** [l.index(x)] for a string [x] *)
Definition list_index (l : value) (x : string) : M nat :=
  items ← load_list l;
  match index_of items x 0 with
  | Some i => mret i
  | None => raise (ValueError (NotInList x))
  end.

(** [float(v)] and [int(v)] *)
Definition float_ (v : value) : M float :=
  s ← as_str v;
  match py_float s with
  | Some f => mret f
  | None => raise (ValueError (BadFloat s))
  end.

Definition int_ (v : value) : M Z :=
  s ← as_str v;
  match py_int s with
  | Some n => mret n
  | None => raise (ValueError (BadInt s))
  end.

(** [for x in l: body x], from position [i] on.  Each round reads the
    list anew; [n] bounds the rounds by the length that the list had when
    the loop began. *)
Fixpoint for_each (n : nat) (l : value) (i : nat) (body : value -> M unit) : M unit :=
  match n with
  | O => mret tt
  | S n' =>
      items ← load_list l;
      match items !! i with
      | Some x => body x ;; for_each n' l (S i) body
      | None => mret tt
      end
  end.

Definition for_in (l : value) (body : value -> M unit) : M unit :=
  items ← load_list l;
  for_each (length items) l 0 body.

(** [for i in range(n): body i], from [i] on. *)
Fixpoint for_range (n : nat) (i : nat) (body : nat -> M unit) : M unit :=
  match n with
  | O => mret tt
  | S n' => body i ;; for_range n' (S i) body
  end.

Definition zone_body (zones zone : value) : M unit :=
  zone_name ← list_getitem zone 1;
  x ← list_getitem zone 3 ≫= float_;
  y ← list_getitem zone 4 ≫= float_;
  z ← list_getitem zone 5 ≫= float_;
  surfaces ← alloc (OList []);
  entry ← alloc (ODict {[ "origin" := VPoint (x, y, z); "surfaces" := surfaces ]});
  dict_setitem zones zone_name entry.

Definition vertex_body (surface : value) (vertices_start_index : nat)
    (vertices : value) (i : nat) : M unit :=
  x ← list_getitem surface (vertices_start_index + i * 3) ≫= float_;
  y ← list_getitem surface (vertices_start_index + i * 3 + 1) ≫= float_;
  z ← list_getitem surface (vertices_start_index + i * 3 + 2) ≫= float_;
  list_append vertices (VPoint (x, y, z)).

Definition try_body (zones surface zone_name : value) : M unit :=
  num_vertices_index ← list_index surface "4";
  num_vertices ← list_getitem surface num_vertices_index ≫= int_;
  let vertices_start_index := num_vertices_index + 1 in
  vertices ← alloc (OList []);
  for_range (Z.to_nat num_vertices) 0
    (vertex_body surface vertices_start_index vertices);;
  k ← as_str zone_name;
  entry ← dict_getitem zones k;
  surfaces ← dict_getitem entry "surfaces";
  list_append surfaces vertices.

Definition surface_body (zones surface : value) : M unit :=
  zone_name ← list_getitem surface 4;
  known ← dict_contains zones zone_name;
  if (known : bool) then
    try_except_ValueError (try_body zones surface zone_name)
      (fun e => items ← load_list surface; print items e)
  else mret tt.

Definition extract_zones (parsed_idf : value) : M value :=
  zones ← alloc (ODict ∅);
  no_zones ← alloc (OList []);
  zone_records ← dict_get parsed_idf "ZONE" no_zones;
  for_in zone_records (zone_body zones);;
  no_surfaces ← alloc (OList []);
  surface_records ← dict_get parsed_idf "BUILDINGSURFACE:DETAILED" no_surfaces;
  for_in surface_records (surface_body zones);;
  mret zones.

(** *** Mappings and zones in the store

    [alloc_mapping] builds the objects of a mapping as [parse] would
    leave them: a list of strings for each record, a list of those for
    each key, and the dict.  [read_zones] reads a dict of zones back. *)
Fixpoint alloc_all {A} (f : A -> M value) (xs : list A) : M (list value) :=
  match xs with
  | [] => mret []
  | x :: xs' => v ← f x; vs ← alloc_all f xs'; mret (v :: vs)
  end.

Definition alloc_record (fields : list string) : M value :=
  alloc (OList (VStr <$> fields)).

Definition alloc_records (records : list (list string)) : M value :=
  vs ← alloc_all alloc_record records;
  alloc (OList vs).

Definition alloc_mapping (d : gmap string (list (list string))) : M value :=
  vs ← alloc_all (fun kv => alloc_records kv.2) (map_to_list d);
  alloc (ODict (list_to_map (zip (map_to_list d).*1 vs))).

Definition read_list (st : state) (v : value) : option (list value) :=
  match v with
  | VRef l => match heap st !! l with
              | Some (OList items) => Some items
              | _ => None
              end
  | _ => None
  end.

Definition read_dict (st : state) (v : value) : option (gmap string value) :=
  match v with
  | VRef l => match heap st !! l with
              | Some (ODict items) => Some items
              | _ => None
              end
  | _ => None
  end.

Definition read_point (v : value) : option (float * float * float) :=
  match v with
  | VPoint p => Some p
  | _ => None
  end.

Definition read_polygon (st : state) (v : value) : option (list (float * float * float)) :=
  items ← read_list st v; mapM read_point items.

Definition read_entry (st : state) (v : value) : option (@ZoneGeometry float) :=
  items ← read_dict st v;
  o ← items !! "origin" ≫= read_point;
  polygons ← items !! "surfaces" ≫= read_list st;
  ps ← mapM (read_polygon st) polygons;
  Some (ZG o ps).

Definition read_zones (st : state) (v : value) : option (gmap string (@ZoneGeometry float)) :=
  items ← read_dict st v;
  entries ← mapM (fun kv => pair kv.1 <$> read_entry st kv.2) (map_to_list items);
  Some (list_to_map entries).

Definition read_strings (items : list value) : option (list string) :=
  mapM (fun v => match v with VStr s => Some s | _ => None end) items.

(** What was printed, as reports. *)
Definition read_stdout (st : state) : option (list report) :=
  mapM (fun line => fields ← read_strings line.1; Some (Report fields line.2)) (stdout st).

(** [extract_zones] on a mapping put into an empty store, read back. *)
Definition run_extract_zones (d : gmap string (list (list string)))
  : option (result (gmap string (@ZoneGeometry float)) * list report) :=
  match alloc_mapping d (State [] []) with
  | (Ok parsed_idf, st) =>
      match extract_zones parsed_idf st with
      | (Ok zones, st') =>
          z ← read_zones st' zones; out ← read_stdout st'; Some (Ok z, out)
      | (Raise e, st') => out ← read_stdout st'; Some (Raise e, out)
      end
  | (Raise _, _) => None
  end.

(** *** What a call may touch

    [h0] is the store at the time of the call.  A value is new when it
    is no reference into [h0]; the state is in order when the objects of
    [h0] are where and as they were, and the objects after them hold new
    values only. *)
Definition new_value (h0 : list object) (v : value) : Prop :=
  match v with
  | VRef l => (length h0 <= l)%nat
  | _ => True
  end.

Definition new_object (h0 : list object) (o : object) : Prop :=
  match o with
  | OList items => Forall (new_value h0) items
  | ODict items => map_Forall (fun _ v => new_value h0 v) items
  end.

Definition in_order (h0 : list object) (st : state) : Prop :=
  h0 `prefix_of` heap st /\
  forall l o, (length h0 <= l)%nat -> heap st !! l = Some o -> new_object h0 o.

(** [c] keeps the state in order, and what it yields satisfies [Q]. *)
Definition keeps {A} (h0 : list object) (c : M A) (Q : A -> Prop) : Prop :=
  forall st, in_order h0 st ->
    match c st with
    | (Ok a, st') => in_order h0 st' /\ Q a
    | (Raise _, st') => in_order h0 st'
    end.

End Store.

End Store.

(** ** How the store holds a mapping and the zones *)
Section Represents.

Context {float : Type}.

Local Abbreviation value := (@Store.value float).
Local Abbreviation object := (@Store.object float).

Implicit Types (h : list object) (v : value).

(** [v] is a list of the strings [fields]. *)
Definition is_record h v (fields : list string) : Prop :=
  exists l, v = Store.VRef l /\ h !! l = Some (Store.OList (Store.VStr <$> fields)).

(** [v] is a list of records. *)
Definition is_records h v (records : list (list string)) : Prop :=
  exists l items, v = Store.VRef l /\ h !! l = Some (Store.OList items) /\
    Forall2 (is_record h) items records.

(** [v] is a dict with the keys of [d] and their lists of records. *)
Definition is_mapping h v (d : gmap string (list (list string))) : Prop :=
  exists l items, v = Store.VRef l /\ h !! l = Some (Store.ODict items) /\
    forall key, option_Forall2 (is_records h) (items !! key) (d !! key).

(** [v] is a list of the vertices of [polygon]. *)
Definition is_polygon h v (polygon : list (float * float * float)) : Prop :=
  exists l, v = Store.VRef l /\ h !! l = Some (Store.OList (Store.VPoint <$> polygon)).

(** [v] is the dict of a zone: its origin, and under the key [surfaces]
    the list at [sl] of its polygons. *)
Definition is_entry h v (sl : Store.loc) (zg : @ZoneGeometry float) : Prop :=
  exists l pvs,
    v = Store.VRef l /\
    h !! l = Some (Store.ODict {[ "origin" := Store.VPoint (origin zg);
                                  "surfaces" := Store.VRef sl ]}) /\
    h !! sl = Some (Store.OList pvs) /\
    Forall2 (is_polygon h) pvs (surfaces zg).

(** The dict at [zl] holds the zones [zones]; [sls] gives for each zone
    the place of its list of surfaces. *)
Definition is_zones_at h (zl : Store.loc) (sls : gmap string Store.loc)
    (zones : gmap string (@ZoneGeometry float)) : Prop :=
  exists items, h !! zl = Some (Store.ODict items) /\
    forall key,
      match items !! key, sls !! key, zones !! key with
      | Some v, Some sl, Some zg => is_entry h v sl zg
      | None, None, None => True
      | _, _, _ => False
      end.

Definition is_zones h v (zones : gmap string (@ZoneGeometry float)) : Prop :=
  exists zl sls, v = Store.VRef zl /\ is_zones_at h zl sls zones.

(** The invariant of the second loop: the zones are held at [zl], no two
    zones share their list of surfaces, and no polygon is empty. *)
Definition zones_inv h (zl : Store.loc) (sls : gmap string Store.loc)
    (zones : gmap string (@ZoneGeometry float)) : Prop :=
  is_zones_at h zl sls zones /\
  (forall k1 k2 sl, sls !! k1 = Some sl -> sls !! k2 = Some sl -> k1 = k2) /\
  (forall key zg, zones !! key = Some zg ->
     Forall (fun polygon => polygon <> []) (surfaces zg)).

(** The lines that [print] writes for the reports. *)
Definition printed_lines (reports : list report) : list (list value * value_error) :=
  (fun r => (Store.VStr <$> report_surface r, report_error r)) <$> reports.

End Represents.

(** ** Inputs of the examples *)

Definition BSD : string := "BUILDINGSURFACE:DETAILED".

(** The record of [ZONE,Z1,,1.0,2.0,3.0;]. *)
Definition ZONE_Z1 : list string := ["ZONE"; "Z1"; ""; "1.0"; "2.0"; "3.0"].

(** A text that [parse] reads as [ZONE_Z1]: the empty field is written as
    a blank at the start of a line. *)
Definition ZONE_Z1_text : string := "ZONE,Z1," ++ nl ++ " ,1.0,2.0,3.0;".

(** The text of the extractor example of the specification. *)
Definition ZONE_Z1_text_of_spec : string := "ZONE,Z1,,1.0,2.0,3.0;".

(** ZONE records that cannot be decoded: an origin field that is no
    number, and a record that ends after the name. *)
Definition ZONE_Z0_bad : list string := ["ZONE"; "Z0"; "a"; "north"; "0"; "0"].
Definition ZONE_Z0_short : list string := ["ZONE"; "Z0"].

(** An earlier record of the zone Z1. *)
Definition ZONE_Z1_old : list string := ["ZONE"; "Z1"; ""; "7"; "8"; "9"].

(** A quadrilateral wall of the zone Z1; its eleventh element is the
    number of vertices. *)
Definition wall_S1 : list string :=
  [ BSD; "S1"; "Wall"; "C1"; "Z1"; "Outdoors"; ""; "SunExposed"; "WindExposed";
    "0.5"; "4"; "0"; "0"; "3"; "0"; "0"; "0"; "5"; "0"; "0"; "5"; "0"; "3" ].

Definition wall_S1_polygon : list (Q * Q * Q) :=
  [ (0, 0, 3)%Q; (0, 0, 0)%Q; (5, 0, 0)%Q; (5, 0, 3)%Q ].

(** The same wall with the last five coordinates missing. *)
Definition wall_short : list string :=
  [ BSD; "S2"; "Wall"; "C1"; "Z1"; "Outdoors"; ""; "SunExposed"; "WindExposed";
    "0.5"; "4"; "0"; "0"; "3"; "0"; "0"; "0"; "5" ].

(** A wall with a coordinate that is no number, a wall of three vertices
    and a wall of a zone Z9. *)
Definition wall_bad : list string :=
  [ BSD; "S3"; "Wall"; "C1"; "Z1"; "Outdoors"; ""; "SunExposed"; "WindExposed";
    "0.5"; "4"; "0"; "0"; "3"; "0"; "zero"; "0"; "5"; "0"; "0"; "5"; "0"; "3" ].

Definition wall_triangle : list string :=
  [ BSD; "S4"; "Wall"; "C1"; "Z1"; "Outdoors"; ""; "SunExposed"; "WindExposed";
    "0.5"; "3"; "0"; "0"; "3"; "0"; "0"; "0"; "5"; "0"; "0" ].

Definition wall_Z9 : list string :=
  [ BSD; "S5"; "Wall"; "C1"; "Z9"; "Outdoors"; ""; "SunExposed"; "WindExposed";
    "0.5"; "4"; "0"; "0"; "3"; "0"; "0"; "0"; "5"; "0"; "0"; "5"; "0"; "3" ].

(** A wall of five vertices whose first coordinate is the text 4. *)
Definition wall_pentagon : list string :=
  [ BSD; "S6"; "Wall"; "C1"; "Z1"; "Outdoors"; ""; "SunExposed"; "WindExposed";
    "0.5"; "5"; "4"; "0"; "3"; "0"; "0"; "0"; "5"; "0"; "0"; "5"; "0"; "3";
    "2"; "0"; "6" ].

(** Mappings with surfaces that are extracted, given up and skipped, and
    with a surface that ends the run. *)
Definition mixed_mapping : gmap string (list (list string)) :=
  {[ "ZONE" := [ZONE_Z1_old; ZONE_Z1];
     BSD := [wall_bad; wall_triangle; wall_Z9; wall_S1] ]}.

Definition short_mapping : gmap string (list (list string)) :=
  {[ "ZONE" := [ZONE_Z1]; BSD := [wall_S1; wall_short; wall_S1] ]}.

(** A store that holds the mapping with the one record [ZONE_Z1]: the
    record, the list of the ZONE records and the dict. *)
Definition ZONE_Z1_store : @Store.state Q :=
  Store.State
    [ Store.OList (Store.VStr <$> ZONE_Z1);
      Store.OList [Store.VRef 0];
      Store.ODict {[ "ZONE" := Store.VRef 1 ]} ]
    [].

(** A second zone, and a store that holds the mapping with the records
    of the two zones and a wall of the first: the three records, the
    lists of the ZONE and of the surface records, and the dict. *)
Definition ZONE_Z2 : list string := ["ZONE"; "Z2"; ""; "4.0"; "5.0"; "6.0"].

Definition two_zones_mapping : gmap string (list (list string)) :=
  {[ "ZONE" := [ZONE_Z1; ZONE_Z2]; BSD := [wall_S1] ]}.

Definition two_zones_store : @Store.state Q :=
  Store.State
    [ Store.OList (Store.VStr <$> ZONE_Z1);
      Store.OList (Store.VStr <$> ZONE_Z2);
      Store.OList (Store.VStr <$> wall_S1);
      Store.OList [Store.VRef 0; Store.VRef 1];
      Store.OList [Store.VRef 2];
      Store.ODict {[ "ZONE" := Store.VRef 3; BSD := Store.VRef 4 ]} ]
    [].

(** A text with a ZONE record whose origin is no number. *)
Definition zones_bad_text : string := "ZONE,Z0,a,north,0,0;" ++ nl ++ ZONE_Z1_text.

(** ** Notions of the claims on [parse] *)

(** The records of [objects] whose first element, in upper case, is
    [key], in their order. *)
Definition records_of_type (key : string) (objects : list idfobject) : list idfobject :=
  filter (fun o => upper <$> head o = Some key) objects.

(** The line of the character at offset [pos] of [input]: one plus the
    number of line feeds before it. *)
Definition line_at (input : string) (pos : nat) : Z :=
  (1 + Z.of_nat (count_char LF (take_string pos input)))%Z.

(** Two objects of one type, written in different case, and one of
    another type. *)
Definition grouping_text : string := "Zone, a;" ++ nl ++ "OTHER;" ++ nl ++ "zone,b , c;".

(** A stray comma on line 3, after a blank line that holds a blank. *)
Definition blank_line_text : string := "A;" ++ nl ++ " " ++ nl ++ ",".

(** A stray comma on line 2, after a line that ends with CR LF. *)
Definition crlf_text : string := "A;" ++ cr ++ nl ++ ",".

(** A stray comma on line 3, after a comment that starts on line 2. *)
Definition comment_text : string := "A;" ++ nl ++ "! note" ++ nl ++ ",".

(** A stray comma on line 3 after two empty lines. *)
Definition plain_newlines_text : string := "A;" ++ nl ++ nl ++ ",".

(** ** The grammar as it is written

    The rules of the grammar as the docstrings of the [p_] functions give
    them.  A derivation of a symbol relates the tokens it spans to the
    value that the functions of the rules used compute for it. *)

(** [objectname : VALUE] *)
Inductive derives_objectname : list LexToken -> string -> Prop :=
  | objectname_VALUE t :
      tok_type t = VALUE ->
      derives_objectname [t] (p_objectname (tok_value t)).

(** [valuelist : VALUE] and [valuelist : VALUE COMMA valuelist] *)
Inductive derives_valuelist : list LexToken -> list string -> Prop :=
  | valuelist_VALUE t :
      tok_type t = VALUE ->
      derives_valuelist [t] (p_valuelist (tok_value t))
  | valuelist_VALUE_COMMA_valuelist t c ts p3 :
      tok_type t = VALUE ->
      tok_type c = COMMA ->
      derives_valuelist ts p3 ->
      derives_valuelist (t :: c :: ts) (p_valuelist_multiple (tok_value t) p3).

(** [idfobject : objectname SEMICOLON] and
    [idfobject : objectname COMMA valuelist SEMICOLON] *)
Inductive derives_idfobject : list LexToken -> idfobject -> Prop :=
  | idfobject_objectname_SEMICOLON ts1 p1 s :
      derives_objectname ts1 p1 ->
      tok_type s = SEMICOLON ->
      derives_idfobject (ts1 ++ [s]) (p_idfobject p1)
  | idfobject_objectname_COMMA_valuelist_SEMICOLON ts1 p1 c ts3 p3 s :
      derives_objectname ts1 p1 ->
      tok_type c = COMMA ->
      derives_valuelist ts3 p3 ->
      tok_type s = SEMICOLON ->
      derives_idfobject (ts1 ++ c :: ts3 ++ [s]) (p_idfobject_with_values p1 p3).

(** [idfobjectlist : idfobject] and [idfobjectlist : idfobject idfobjectlist] *)
Inductive derives_idfobjectlist : list LexToken -> list idfobject -> Prop :=
  | idfobjectlist_idfobject ts1 p1 :
      derives_idfobject ts1 p1 ->
      derives_idfobjectlist ts1 (p_idfobjectlist p1)
  | idfobjectlist_idfobject_idfobjectlist ts1 p1 ts2 p2 :
      derives_idfobject ts1 p1 ->
      derives_idfobjectlist ts2 p2 ->
      derives_idfobjectlist (ts1 ++ ts2) (p_idfobjectlist_multiple p1 p2).

(** [idffile : idfobjectlist] *)
Inductive derives_idffile : list LexToken -> result (gmap string (list idfobject)) -> Prop :=
  | idffile_idfobjectlist ts p1 :
      derives_idfobjectlist ts p1 ->
      derives_idffile ts (p_idffile p1).

(** ** The texts of a pattern *)

(** [matches r s]: the pattern [r] matches the whole of [s]. *)
Inductive matches : regex -> string -> Prop :=
  | matches_Eps : matches Eps ""
  | matches_Class p c : p c = true -> matches (Class p) (String c "")
  | matches_Cat r1 r2 s1 s2 :
      matches r1 s1 -> matches r2 s2 -> matches (Cat r1 r2) (s1 +:+ s2)
  | matches_Alt_l r1 r2 s : matches r1 s -> matches (Alt r1 r2) s
  | matches_Alt_r r1 r2 s : matches r2 s -> matches (Alt r1 r2) s
  | matches_Star_nil r : matches (Star r) ""
  | matches_Star_cons r s1 s2 :
      matches r s1 -> matches (Star r) s2 -> matches (Star r) (s1 +:+ s2).

(** Every character class of [r] lies within [q]. *)
Fixpoint classes_within (q : ascii -> bool) (r : regex) : Prop :=
  match r with
  | Eps => True
  | Class p => forall c, p c = true -> q c = true
  | Cat r1 r2 | Alt r1 r2 => classes_within q r1 /\ classes_within q r2
  | Star r1 => classes_within q r1
  end.

(** Whether every character of a text satisfies [p]. *)
Fixpoint all_chars (p : ascii -> bool) (s : string) : bool :=
  match s with
  | EmptyString => true
  | String c s' => p c && all_chars p s'
  end.

(** The characters that a [VALUE] token can hold: every one but the
    exclamation mark, the comma, the semicolon and the line feed. *)
Definition value_char : ascii -> bool :=
  none_of ["!"%char; ","%char; ";"%char; LF].

(** The pattern of the tokens of a type; a match of the other two rules
    is never returned. *)
Definition pattern_of (type : token_type) : option regex :=
  match type with
  | VALUE => Some t_VALUE_re
  | COMMA => Some t_COMMA
  | SEMICOLON => Some t_SEMICOLON
  | COMMENT | NEWLINE => None
  end.

(** A field as the functions of the grammar leave it: the text of a
    [VALUE] token of [ts], stripped. *)
Definition stripped_value (ts : list LexToken) (f : string) : Prop :=
  exists t, t ∈ ts /\ tok_type t = VALUE /\ f = strip (tok_value t).

(** The pattern [r] reads one character of the class [p]. *)
Definition reads_class (r : regex) (p : ascii -> bool) : Prop :=
  forall A fuel s (k : string -> option A),
    re_match fuel r s k =
    match s with
    | String c s' => if p c then k s' else None
    | EmptyString => None
    end.

(** Whether a text is empty or starts with a character that fails [p]. *)
Definition stops (p : ascii -> bool) (s : string) : bool :=
  match s with
  | EmptyString => true
  | String c _ => negb (p c)
  end.

(** The character classes of the token rules. *)
Definition blank : ascii -> bool := one_of [" "%char; TAB].
Definition white : ascii -> bool := one_of [" "%char; TAB; CR; LF].
Definition line_end : ascii -> bool := one_of [CR; LF].
Definition not_LF : ascii -> bool := none_of [LF].

(** [\r?\n] *)
Definition t_newline_break : regex :=
  Cat (Opt (Class (one_of [CR]))) (Class (one_of [LF])).

(** [[^!,;\n]|[*]] *)
Definition t_VALUE_char : regex :=
  Alt (Class (none_of ["!"%char; ","%char; ";"%char; LF])) (Class (one_of ["*"%char])).

(** Whether a text starts with a field: with a character that [strip]
    keeps and that a value can hold. *)
Definition starts_field (s : string) : bool :=
  match s with
  | EmptyString => false
  | String c _ => negb (is_space c) && value_char c
  end.

(** The run of the parser on the tokens of a text, from a value of the
    lexer's line counter on. *)
Definition parser_on (lexdata : string) (lexer_lineno : Z)
    (objects : list idfobject) (st : parser_state) : result (list idfobject) :=
  parser_run (token_stream lexdata 0 lexer_lineno).1
             (token_stream lexdata 0 lexer_lineno).2 objects st.

(** ** Objects written as text

    An IDF file as it is usually written: the fields of an object are
    separated by commas and the last one is followed by a semicolon;
    after a separator the line may go on with blanks and a comment, and
    further lines that hold blanks and comments only may follow, before
    the next field is written after the blanks that indent it. *)

(** A field that is written as it is: it is not empty, [strip] leaves it
    as it is, and it holds no separator, exclamation mark or line feed. *)
Definition plain_field (f : string) : bool :=
  starts_field f && bool_decide (strip f = f) && all_chars value_char f.

(** The end of a line: blanks and possibly a comment. *)
Abbreviation written_line := (string * option string)%type.

Definition comment_of (c : option string) : string :=
  match c with
  | Some c => String "!" c
  | None => ""
  end.

Definition line_text (l : written_line) : string := l.1 +:+ comment_of l.2 +:+ nl.

Fixpoint lines_text (ls : list written_line) : string :=
  match ls with
  | [] => ""
  | l :: ls' => line_text l +:+ lines_text ls'
  end.

Definition line_ok (l : written_line) : bool :=
  all_chars blank l.1 &&
  match l.2 with
  | Some c => all_chars not_LF c
  | None => true
  end.

(** What is written between a separator and the next field: the ends of
    lines, and the blanks on the line of the next field. *)
Record gap : Type := Gap {
  gap_lines : list written_line;
  gap_indent : string
}.

Definition gap_text (g : gap) : string := lines_text (gap_lines g) +:+ gap_indent g.

Definition gap_ok (g : gap) : bool :=
  forallb line_ok (gap_lines g) && all_chars blank (gap_indent g).

(** A gap at the end of the text: it stays on the line of the separator,
    or it ends with a line feed. *)
Definition gap_ends (g : gap) : bool :=
  match gap_lines g, gap_indent g with
  | [], _ | _, EmptyString => true
  | _, _ => false
  end.

(** An object as it is written: its fields, each with what follows its
    separator. *)
Abbreviation written_object := (list (string * gap)).

Fixpoint fields_text (o : written_object) (rest : string) : string :=
  match o with
  | [] => rest
  | (f, g) :: o' =>
      f +:+ String (match o' with [] => ";" | _ => "," end)%char
              (gap_text g +:+ fields_text o' rest)
  end.

Fixpoint objects_text (os : list written_object) : string :=
  match os with
  | [] => ""
  | o :: os' => fields_text o (objects_text os')
  end.

Definition idf_text (lead : gap) (os : list written_object) : string :=
  gap_text lead +:+ objects_text os.

Definition object_ok (o : written_object) : bool :=
  match o with
  | [] => false
  | _ => forallb (fun fg => plain_field fg.1 && gap_ok fg.2) o
  end.

Definition idf_text_ok (lead : gap) (os : list written_object) : bool :=
  gap_ok lead && forallb object_ok os &&
  match last os ≫= last with
  | Some fg => gap_ends fg.2
  | None => false
  end.

(** The first comment of some lines: the white space before it, its text
    and the lines after it. *)
Fixpoint first_comment (ls : list written_line) : option (string * string * list written_line) :=
  match ls with
  | [] => None
  | (b, Some c) :: ls' => Some (b, c, ls')
  | (b, None) :: ls' =>
      match first_comment ls' with
      | Some (w, c, ls'') => Some (b +:+ nl +:+ w, c, ls'')
      | None => None
      end
  end.

(** Lines without their leading empty lines. *)
Fixpoint skip_empty (ls : list written_line) : list written_line :=
  match ls with
  | (EmptyString, None) :: ls' => skip_empty ls'
  | _ => ls
  end.

(** What follows a gap: the end of the text or a field. *)
Definition follows (next : string) : Prop := next = "" \/ starts_field next = true.

(** ** Notions of the further properties of [extract_zones] *)

(** A list of coordinates, three to a vertex. *)
Fixpoint triples {A} (l : list A) : list (A * A * A) :=
  match l with
  | x :: y :: z :: l' => (x, y, z) :: triples l'
  | _ => []
  end.

Section ExtractorNotions.

Context {float : Type} (py_float : string -> option float).

(** The polygon that a surface record gives to the zone [name]: the
    record names the zone and its vertices can be decoded. *)
Definition polygon_of (name : string) (surface : list string)
  : option (list (@point float)) :=
  if decide (surface !! 4%nat = Some name) then
    match read_vertices py_float surface with
    | Ok vertices => Some vertices
    | Raise _ => None
    end
  else None.

(** The line printed for a surface record: the record names a zone of
    [zones] and decoding its vertices raises [ValueError]. *)
Definition report_of (zones : gmap string (@ZoneGeometry float))
    (surface : list string) : list report :=
  match surface !! 4%nat with
  | Some name =>
      if decide (is_Some (zones !! name)) then
        match read_vertices py_float surface with
        | Raise (ValueError e) => [Report surface e]
        | _ => []
        end
      else []
  | None => []
  end.

(** A ZONE record that the first loop can decode. *)
Definition zone_ok (zone : list string) : Prop :=
  (6 <= length zone)%nat /\
  forall i s, (3 <= i <= 5)%nat -> zone !! i = Some s -> is_Some (py_float s).

(** A surface record that does not end the second loop, when the ZONE
    records are [zs]. *)
Definition surface_ok (zs : list (list string)) (surface : list string) : Prop :=
  exists name, surface !! 4%nat = Some name /\
    ((exists zone, zone ∈ zs /\ zone !! 1%nat = Some name) ->
     read_vertices py_float surface <> Raise IndexError).

(** The same, when the zones made by the first loop are [zones]. *)
Definition surface_fine (zones : gmap string (@ZoneGeometry float))
    (surface : list string) : Prop :=
  exists name, surface !! 4%nat = Some name /\
    (is_Some (zones !! name) -> read_vertices py_float surface <> Raise IndexError).

End ExtractorNotions.

(** What [extract_zones] returns and prints for [mixed_mapping]. *)
Definition mixed_zones : gmap string (@ZoneGeometry Q) :=
  {[ "Z1" := ZG (1%Q, 2%Q, 3%Q) [wall_S1_polygon] ]}.

Definition mixed_reports : list report :=
  [Report wall_bad (BadFloat "zero"); Report wall_triangle (NotInList "4")].

(** A mapping with surfaces and no ZONE records. *)
Definition surfaces_only : gmap string (list (list string)) :=
  {[ BSD := [wall_S1; wall_Z9] ]}.

(** A text in the usual layout: a comment and an empty line at its start,
    a field to a line with a comment after the separator, a line that
    holds a comment only, and an object on one line. *)
Definition written_lead : gap := Gap [("", Some " a file"); ("", None)] "  ".

Definition written_objects : list written_object :=
  [ [ ("Zone", Gap [] "");
      ("Z1", Gap [("  ", Some "- Name")] "    ");
      ("0", Gap [("", Some " the end"); ("", None); (" ", Some "=== next ===")] "") ];
    [ ("Version", Gap [] " "); ("9.4", Gap [("", None)] "") ] ].

(** * Properties *)

(** ** Sequencing *)

Lemma bind_Ok {A B} (c : result A) (k : A -> result B) (b : B) :
  c ≫= k = Ok b -> exists a, c = Ok a /\ k a = Ok b.
Proof. destruct c as [a|e]; simpl; [eauto | discriminate]. Qed.

Lemma getitem_Ok {A} (l : list A) i x : getitem l i = Ok x <-> l !! i = Some x.
Proof. unfold getitem. destruct (l !! i); split; congruence. Qed.

Lemma getitem_Raise {A} (l : list A) i e :
  getitem l i = Raise e -> e = IndexError /\ (length l <= i)%nat.
Proof.
  unfold getitem. destruct (l !! i) eqn:E; [discriminate |].
  intros [= <-]. split; [reflexivity |]. by apply lookup_ge_None.
Qed.

Ltac bind_inv H :=
  let a := fresh "a" in
  let Ha := fresh "H" a in
  apply bind_Ok in H; destruct H as (a & Ha & H).

(** ** [list.index] and [int] *)

Lemma index_from_Ok l x i n :
  index_from l x i = Ok n ->
  (i <= n)%nat /\ l !! (n - i)%nat = Some x /\
  forall j y, (j < n - i)%nat -> l !! j = Some y -> y <> x.
Proof.
  revert i. induction l as [|y l IH]; intros i; simpl; [discriminate |].
  destruct (decide (y = x)) as [->|Hne].
  - intros [= <-]. replace (i - i)%nat with 0%nat by lia.
    split; [lia |]. split; [reflexivity |]. intros j z Hj. lia.
  - intros H. apply IH in H as (Hle & Hn & Hfirst).
    split; [lia |].
    replace (n - i)%nat with (S (n - S i)) by lia. split; [exact Hn |].
    intros [|j] z Hj; simpl.
    + intros [= <-]. exact Hne.
    + apply Hfirst. lia.
Qed.

Lemma list_index_Ok l x n :
  list_index l x = Ok n ->
  l !! n = Some x /\ forall j y, (j < n)%nat -> l !! j = Some y -> y <> x.
Proof.
  intros H. apply index_from_Ok in H as (_ & Hn & Hfirst).
  rewrite Nat.sub_0_r in Hn, Hfirst. auto.
Qed.

Lemma index_from_Raise l x i e :
  index_from l x i = Raise e -> e = ValueError (NotInList x) /\ x ∉ l.
Proof.
  revert i. induction l as [|y l IH]; intros i; simpl.
  - intros [= <-]. split; [reflexivity | apply not_elem_of_nil].
  - destruct (decide (y = x)) as [->|Hne]; [discriminate |].
    intros H. apply IH in H as [-> Hnot]. split; [reflexivity |].
    rewrite elem_of_cons. intros [->|?]; [by apply Hne | by apply Hnot].
Qed.

Lemma index_from_absent l x i : x ∉ l -> index_from l x i = Raise (ValueError (NotInList x)).
Proof.
  revert i. induction l as [|y l IH]; intros i Hnot; simpl; [reflexivity |].
  rewrite not_elem_of_cons in Hnot. destruct Hnot as [Hne Hnot].
  destruct (decide (y = x)) as [->|_]; [done | by apply IH].
Qed.

Lemma int_4 : int_ "4" = Ok 4%Z.
Proof. reflexivity. Qed.

Section ExtractorFacts.

Context {float : Type} (py_float : string -> option float).

Local Abbreviation zone_map := (gmap string (@ZoneGeometry float)).

(** *** The first loop *)

Lemma zone_step_Ok (zones zones' : zone_map) zone :
  zone_step py_float zones zone = Ok zones' ->
  exists name x y z,
    zone !! 1%nat = Some name /\
    float_at py_float zone 3 = Ok x /\
    float_at py_float zone 4 = Ok y /\
    float_at py_float zone 5 = Ok z /\
    zones' = <[name := ZG (x, y, z) []]> zones.
Proof.
  unfold zone_step. intros H.
  bind_inv H. bind_inv H. bind_inv H. bind_inv H.
  injection H as <-. apply getitem_Ok in Ha.
  eauto 10.
Qed.

Lemma zone_loop_app zs1 zs2 (zones : zone_map) :
  zone_loop py_float (zs1 ++ zs2) zones =
  zone_loop py_float zs1 zones ≫= zone_loop py_float zs2.
Proof.
  revert zones. induction zs1 as [|z zs1 IH]; intros zones; simpl; [reflexivity |].
  destruct (zone_step py_float zones z); simpl; [apply IH | reflexivity].
Qed.

(** A name that no record carries is looked up as before the loop. *)
Lemma zone_loop_other zs (zones zones' : zone_map) name :
  zone_loop py_float zs zones = Ok zones' ->
  (forall zone, zone ∈ zs -> zone !! 1%nat <> Some name) ->
  zones' !! name = zones !! name.
Proof.
  revert zones. induction zs as [|z zs IH]; intros zones; simpl.
  - by intros [= <-].
  - intros H Hnot. bind_inv H.
    rewrite (IH _ H) by (intros; apply Hnot; by right).
    apply zone_step_Ok in Ha as (n & x & y & c & Hn & _ & _ & _ & ->).
    apply lookup_insert_ne. intros ->. by apply (Hnot z); [left |].
Qed.

(** The entry for a name is the one made from the last record that
    carries it. *)
Lemma zone_loop_last zs1 zone zs2 (zones zones' : zone_map) name :
  zone_loop py_float (zs1 ++ zone :: zs2) zones = Ok zones' ->
  zone !! 1%nat = Some name ->
  (forall zone', zone' ∈ zs2 -> zone' !! 1%nat <> Some name) ->
  exists x y z,
    float_at py_float zone 3 = Ok x /\
    float_at py_float zone 4 = Ok y /\
    float_at py_float zone 5 = Ok z /\
    zones' !! name = Some (ZG (x, y, z) []).
Proof.
  intros H Hname Hlast. rewrite zone_loop_app in H. bind_inv H.
  simpl in H. bind_inv H. rename a0 into mid.
  apply zone_step_Ok in Ha0 as (n & x & y & c & Hn & Hx & Hy & Hz & ->).
  assert (n = name) as -> by congruence.
  exists x, y, c. repeat (split; [assumption |]).
  rewrite (zone_loop_other _ _ _ _ H Hlast). apply lookup_insert_eq.
Qed.

(** Every entry made by the first loop has no surface yet. *)
Lemma zone_loop_no_surface zs (zones zones' : zone_map) :
  zone_loop py_float zs zones = Ok zones' ->
  (forall name zg, zones !! name = Some zg -> surfaces zg = []) ->
  forall name zg, zones' !! name = Some zg -> surfaces zg = [].
Proof.
  revert zones. induction zs as [|z zs IH]; intros zones; simpl.
  - by intros [= <-].
  - intros H Hinv. bind_inv H. apply (IH _ H).
    apply zone_step_Ok in Ha as (n & x & y & c & _ & _ & _ & _ & ->).
    intros name zg. rewrite lookup_insert. case_decide.
    + by intros [= <-].
    + apply Hinv.
Qed.

(** The first loop fails at the first record that cannot be decoded. *)
Lemma zone_loop_Raise zs1 zone zs2 (zones mid : zone_map) e :
  zone_loop py_float zs1 zones = Ok mid ->
  zone_step py_float mid zone = Raise e ->
  zone_loop py_float (zs1 ++ zone :: zs2) zones = Raise e.
Proof.
  intros H1 H2. rewrite zone_loop_app, H1. simpl. by rewrite H2.
Qed.

(** *** Reading the vertices *)

Lemma vertex_loop_length surface start i count (vertices vertices' : list (@point float)) :
  vertex_loop py_float surface start i count vertices = Ok vertices' ->
  length vertices' = (length vertices + count)%nat.
Proof.
  revert i vertices. induction count as [|count IH]; intros i vertices; simpl.
  - intros [= <-]. lia.
  - intros H. bind_inv H. bind_inv H. bind_inv H.
    apply IH in H. rewrite length_app in H. simpl in H. lia.
Qed.

Lemma read_vertices_count surface (vertices : list (@point float)) :
  read_vertices py_float surface = Ok vertices ->
  exists i, list_index surface "4" = Ok i /\
    vertex_loop py_float surface (i + 1) 0 4 [] = Ok vertices.
Proof.
  unfold read_vertices. intros H. bind_inv H. bind_inv H. bind_inv H.
  rename a into i.
  apply list_index_Ok in Ha as Hi. destruct Hi as [Hi _].
  apply getitem_Ok in Ha0. assert (a0 = "4") as -> by congruence.
  rewrite int_4 in Ha1. injection Ha1 as <-.
  exists i. split; [exact Ha | exact H].
Qed.

Lemma read_vertices_length surface (vertices : list (@point float)) :
  read_vertices py_float surface = Ok vertices -> length vertices = 4%nat.
Proof.
  intros H. apply read_vertices_count in H as (i & _ & H).
  by apply vertex_loop_length in H.
Qed.

Lemma read_vertices_no_count surface :
  "4" ∉ surface ->
  read_vertices py_float surface = Raise (ValueError (NotInList "4")).
Proof.
  intros H. unfold read_vertices, list_index. by rewrite index_from_absent.
Qed.

(** The vertices that the loop over the vertices reads: the elements
    from its start on, three to a vertex. *)
Lemma float_at_drop surface p k :
  float_at py_float surface (p + k) = float_at py_float (drop p surface) k.
Proof. unfold float_at, getitem. by rewrite lookup_drop. Qed.

Lemma vertex_loop_Ok surface start i count (vertices vs : list (@point float)) :
  vertex_loop py_float surface start i count vertices = Ok vs <->
  exists fs,
    Forall2 (fun s f => py_float s = Some f)
      (take (count * 3) (drop (start + i * 3) surface)) fs /\
    length fs = (count * 3)%nat /\
    vs = vertices ++ triples fs.
Proof.
  revert i vertices. induction count as [|count IH]; intros i vertices.
  - simpl. rewrite take_0. split.
    + intros [= <-]. exists []. split; [constructor |]. by rewrite app_nil_r.
    + intros (fs & Hfs & Hlen & ->). destruct fs; [| done].
      simpl. by rewrite app_nil_r.
  - cbn [vertex_loop].
    rewrite <- (Nat.add_0_r (start + i * 3)) at 1.
    rewrite !float_at_drop.
    assert (Hdrop : drop (start + S i * 3) surface = drop 3 (drop (start + i * 3) surface)).
    { rewrite drop_drop. f_equal. lia. }
    specialize (IH (S i)). setoid_rewrite Hdrop in IH.
    destruct (drop (start + i * 3) surface) as [|a [|b [|c rest]]];
      unfold float_at at 1 2 3; unfold getitem; cbn [lookup list_lookup mbind result_bind].
    + split; [done |]. intros (fs & Hfs & Hlen & _).
      apply Forall2_length in Hfs. simpl in *. lia.
    + unfold float_. split.
      * destruct (py_float a); done.
      * intros (fs & Hfs & Hlen & _).
        apply Forall2_length in Hfs. simpl in *. lia.
    + unfold float_. split.
      * destruct (py_float a); [| done]. destruct (py_float b); done.
      * intros (fs & Hfs & Hlen & _).
        apply Forall2_length in Hfs. simpl in *. lia.
    + unfold float_. change (S count * 3)%nat with (S (S (S (count * 3)))).
      cbn [take drop]. split.
      * destruct (py_float a) as [x|] eqn:Ea; [| done].
        destruct (py_float b) as [y|] eqn:Eb; [| done].
        destruct (py_float c) as [z|] eqn:Ec; [| done].
        cbn [mbind result_bind]. intros H. apply IH in H as (fs & Hfs & Hlen & ->).
        exists (x :: y :: z :: fs). split; [by repeat constructor |].
        split; [simpl; lia |]. rewrite <- app_assoc. done.
      * intros (fs & Hfs & Hlen & ->).
        apply Forall2_cons_inv_l in Hfs as (x & fs1 & Ea & Hfs & ->).
        apply Forall2_cons_inv_l in Hfs as (y & fs2 & Eb & Hfs & ->).
        apply Forall2_cons_inv_l in Hfs as (z & fs3 & Ec & Hfs & ->).
        rewrite Ea, Eb, Ec. cbn [mbind result_bind].
        apply IH. exists fs3. split; [done |]. split; [simpl in Hlen; lia |].
        rewrite <- app_assoc. done.
Qed.

(** The [try] block on a record in which the twelve elements after the
    first element equal to the text 4 are accepted by [float]. *)
Lemma read_vertices_floats surface i (fs : list float) :
  list_index surface "4" = Ok i ->
  Forall2 (fun s f => py_float s = Some f) (take 12 (drop (i + 1) surface)) fs ->
  length fs = 12%nat ->
  read_vertices py_float surface = Ok (triples fs).
Proof.
  intros Hi Hfs Hlen. unfold read_vertices.
  rewrite Hi. cbn [mbind result_bind].
  apply list_index_Ok in Hi as [Hi _].
  unfold getitem. rewrite Hi. cbn [mbind result_bind].
  rewrite int_4. cbn [mbind result_bind]. change (Z.to_nat 4) with 4%nat.
  apply vertex_loop_Ok. exists fs. rewrite Nat.add_0_r. done.
Qed.

(** *** The second loop *)

Lemma grows_refl (zg : @ZoneGeometry float) : grows zg zg.
Proof.
  split; [reflexivity |]. exists []. by rewrite app_nil_r.
Qed.

Lemma grows_trans (zg1 zg2 zg3 : @ZoneGeometry float) :
  grows zg1 zg2 -> grows zg2 zg3 -> grows zg1 zg3.
Proof.
  intros [Ho1 (m1 & Hs1 & Hf1)] [Ho2 (m2 & Hs2 & Hf2)].
  split; [congruence |]. exists (m1 ++ m2).
  split; [by rewrite Hs2, Hs1, app_assoc | by apply Forall_app].
Qed.

Lemma zones_grow_refl (zones : zone_map) : zones_grow zones zones.
Proof. intros name. destruct (zones !! name); [apply grows_refl | exact I]. Qed.

Lemma zones_grow_trans (z1 z2 z3 : zone_map) :
  zones_grow z1 z2 -> zones_grow z2 z3 -> zones_grow z1 z3.
Proof.
  intros H12 H23 name. specialize (H12 name). specialize (H23 name).
  destruct (z1 !! name), (z2 !! name), (z3 !! name);
    try done. by eapply grows_trans.
Qed.

Lemma zones_grow_lookup (zones zones' : zone_map) name zg' :
  zones_grow zones zones' -> zones' !! name = Some zg' ->
  exists zg, zones !! name = Some zg /\ grows zg zg'.
Proof.
  intros H Hl. specialize (H name). rewrite Hl in H.
  destruct (zones !! name) as [zg|]; [eauto | done].
Qed.

Lemma zones_grow_None (zones zones' : zone_map) name :
  zones_grow zones zones' -> zones !! name = None -> zones' !! name = None.
Proof.
  intros H Hl. specialize (H name). rewrite Hl in H.
  destruct (zones' !! name); [done | reflexivity].
Qed.

Lemma append_surface_grows (zones : zone_map) name vertices :
  length vertices = 4%nat -> zones_grow zones (append_surface zones name vertices).
Proof.
  intros Hlen n. unfold append_surface.
  destruct (zones !! name) as [zg|] eqn:E; [| apply zones_grow_refl].
  rewrite lookup_insert. case_decide as Hn.
  - subst n. rewrite E. split; [reflexivity |].
    exists [vertices]. split; [reflexivity |]. by constructor.
  - destruct (zones !! n); [apply grows_refl | exact I].
Qed.

Lemma surface_step_grows (zones zones' : zone_map) surface out :
  surface_step py_float zones surface = (Ok zones', out) ->
  zones_grow zones zones'.
Proof.
  unfold surface_step. destruct (getitem surface 4) as [name|]; [| discriminate].
  case_decide; [| intros [= <- _]; apply zones_grow_refl].
  destruct (read_vertices py_float surface) as [vertices|[]] eqn:E;
    try discriminate.
  - intros [= <- _]. apply append_surface_grows. by eapply read_vertices_length.
  - intros [= <- _]. apply zones_grow_refl.
Qed.

Lemma surface_loop_grows ss (zones zones' : zone_map) printed printed' :
  surface_loop py_float ss zones printed = (Ok zones', printed') ->
  zones_grow zones zones'.
Proof.
  revert zones printed. induction ss as [|s ss IH]; intros zones printed; simpl.
  - intros [= <- _]. apply zones_grow_refl.
  - destruct (surface_step py_float zones s) as [[mid|e] out] eqn:E;
      [| discriminate].
    intros H. eapply zones_grow_trans; [by eapply surface_step_grows | by eapply IH].
Qed.

Lemma surface_loop_app ss1 ss2 (zones : zone_map) printed :
  surface_loop py_float (ss1 ++ ss2) zones printed =
  match surface_loop py_float ss1 zones printed with
  | (Ok zones', printed') => surface_loop py_float ss2 zones' printed'
  | (Raise e, printed') => (Raise e, printed')
  end.
Proof.
  revert zones printed. induction ss1 as [|s ss1 IH]; intros zones printed; simpl.
  - reflexivity.
  - destruct (surface_step py_float zones s) as [[mid|e] out]; [apply IH | reflexivity].
Qed.

(** A surface of a zone that is not there leaves everything as it is. *)
Lemma surface_step_unknown (zones : zone_map) surface name :
  surface !! 4%nat = Some name -> zones !! name = None ->
  surface_step py_float zones surface = (Ok zones, []).
Proof.
  intros Hname Hnone. unfold surface_step.
  apply getitem_Ok in Hname. rewrite Hname.
  case_decide as Hk; [| reflexivity].
  rewrite Hnone in Hk. by destruct Hk.
Qed.

Lemma surface_loop_skip ss1 surface ss2 (zones : zone_map) printed name :
  surface !! 4%nat = Some name -> zones !! name = None ->
  surface_loop py_float (ss1 ++ surface :: ss2) zones printed =
  surface_loop py_float (ss1 ++ ss2) zones printed.
Proof.
  intros Hname Hnone. rewrite !surface_loop_app.
  destruct (surface_loop py_float ss1 zones printed) as [[mid|e] printed'] eqn:E;
    [| reflexivity].
  simpl. rewrite (surface_step_unknown mid surface name Hname).
  - by rewrite app_nil_r.
  - eapply zones_grow_None; [by eapply surface_loop_grows | exact Hnone].
Qed.

(** What is printed: one report for each surface given up, and each
    report names a record of the loop. *)
Lemma surface_loop_reports ss (zones : zone_map) printed r printed' :
  surface_loop py_float ss zones printed = (r, printed') ->
  exists out, printed' = printed ++ out /\
              Forall (fun rep => report_surface rep ∈ ss) out.
Proof.
  revert zones printed. induction ss as [|s ss IH]; intros zones printed; simpl.
  - intros [= _ <-]. exists []. by rewrite app_nil_r.
  - assert (Hout : forall zr out, surface_step py_float zones s = (zr, out) ->
              Forall (fun rep => report_surface rep ∈ s :: ss) out).
    { unfold surface_step. intros zr out.
      destruct (getitem s 4); [| by intros [= _ <-]].
      case_decide; [| by intros [= _ <-]].
      destruct (read_vertices py_float s) as [|[]]; intros [= _ <-];
        repeat constructor. }
    destruct (surface_step py_float zones s) as [[mid|e] out] eqn:E.
    + intros H. apply IH in H as (out' & -> & Hf).
      exists (out ++ out'). split; [by rewrite app_assoc |].
      apply Forall_app. split; [by eapply Hout |].
      eapply Forall_impl; [exact Hf |]. intros rep ?. by right.
    + intros [= _ <-]. exists out. split; [reflexivity | by eapply Hout].
Qed.

End ExtractorFacts.

Lemma float_at_Ok {float} (py_float : string -> option float) l i x :
  float_at py_float l i = Ok x <->
  exists s, l !! i = Some s /\ py_float s = Some x.
Proof.
  unfold float_at, float_. split.
  - intros H. bind_inv H. apply getitem_Ok in Ha. exists a. split; [exact Ha |].
    destruct (py_float a); congruence.
  - intros (s & Hs & Hx). apply getitem_Ok in Hs. rewrite Hs. simpl. by rewrite Hx.
Qed.

Section ExtractZones.

Context {float : Type} (py_float : string -> option float).

Local Abbreviation zone_map := (gmap string (@ZoneGeometry float)).

(** Whether a record of the first loop can be decoded does not depend on
    the zones made so far. *)
Lemma zone_step_Raise (zones zones' : zone_map) zone e :
  zone_step py_float zones zone = Raise e ->
  zone_step py_float zones' zone = Raise e.
Proof.
  unfold zone_step.
  destruct (getitem zone 1); simpl; [| done].
  destruct (float_at py_float zone 3); simpl; [| done].
  destruct (float_at py_float zone 4); simpl; [| done].
  destruct (float_at py_float zone 5); simpl; done.
Qed.

(** Two runs of the first loop from zones that differ at [name] only:
    they fail alike, or end in zones that differ at [name] only, and
    that are equal once a record named [name] was seen. *)
Lemma zone_loop_agree zs (m1 m2 : zone_map) name :
  (forall k, k <> name -> m1 !! k = m2 !! k) ->
  match zone_loop py_float zs m1, zone_loop py_float zs m2 with
  | Ok m1', Ok m2' =>
      (forall k, k <> name -> m1' !! k = m2' !! k) /\
      ((exists zone, zone ∈ zs /\ zone !! 1%nat = Some name) -> m1' = m2')
  | Raise e1, Raise e2 => e1 = e2
  | _, _ => False
  end.
Proof.
  revert m1 m2. induction zs as [|z zs IH]; intros m1 m2 Hagree; simpl.
  - split; [exact Hagree |]. intros (zone & Hin & _). by apply elem_of_nil in Hin.
  - destruct (zone_step py_float m1 z) as [m1'|e] eqn:E1.
    + apply zone_step_Ok in E1 as (n & x & y & c & Hn & Hx & Hy & Hz & ->).
      assert (E2 : zone_step py_float m2 z = Ok (<[n := ZG (x, y, c) []]> m2)).
      { unfold zone_step. apply getitem_Ok in Hn. rewrite Hn. simpl.
        by rewrite Hx, Hy, Hz. }
      rewrite E2. simpl.
      destruct (decide (n = name)) as [->|Hne].
      * assert (Heq : <[name := ZG (x, y, c) []]> m1 = <[name := ZG (x, y, c) []]> m2).
        { apply map_eq. intros k. rewrite !lookup_insert.
          case_decide; [reflexivity | by apply Hagree]. }
        rewrite Heq.
        destruct (zone_loop py_float zs (<[name := ZG (x, y, c) []]> m2)); done.
      * specialize (IH (<[n := ZG (x, y, c) []]> m1) (<[n := ZG (x, y, c) []]> m2)).
        destruct (zone_loop py_float zs (<[n := ZG (x, y, c) []]> m1)),
                 (zone_loop py_float zs (<[n := ZG (x, y, c) []]> m2));
          try (apply IH; intros k Hk; rewrite !lookup_insert;
               case_decide; [reflexivity | by apply Hagree]).
        destruct IH as [IH1 IH2].
        { intros k Hk. rewrite !lookup_insert. case_decide; [reflexivity | by apply Hagree]. }
        split; [exact IH1 |]. intros (zone & Hin & Hzn). apply IH2.
        apply elem_of_cons in Hin as [->|Hin]; [congruence | eauto].
    + rewrite (zone_step_Raise _ m2 _ _ E1). reflexivity.
Qed.

(** An earlier record of the same name as a later one makes no
    difference to the result of the first loop. *)
Lemma zone_loop_overwritten zs1 first zs2 last zs3 (zones mid : zone_map) name :
  first !! 1%nat = Some name -> last !! 1%nat = Some name ->
  zone_step py_float zones first = Ok mid ->
  zone_loop py_float (zs1 ++ first :: zs2 ++ last :: zs3) ∅ =
  zone_loop py_float (zs1 ++ zs2 ++ last :: zs3) ∅.
Proof.
  intros Hf Hl Hdec. rewrite !zone_loop_app.
  destruct (zone_loop py_float zs1 ∅) as [m|e]; simpl; [| reflexivity].
  destruct (zone_step py_float m first) as [m'|e] eqn:E; simpl.
  - apply zone_step_Ok in E as (n & x & y & c & Hn & _ & _ & _ & ->).
    assert (n = name) as -> by congruence.
    pose proof (zone_loop_agree (zs2 ++ last :: zs3) (<[name := ZG (x, y, c) []]> m) m name) as H.
    destruct (zone_loop py_float (zs2 ++ last :: zs3) (<[name := ZG (x, y, c) []]> m)),
             (zone_loop py_float (zs2 ++ last :: zs3) m).
    + destruct H as [_ H].
      * intros k Hk. by apply lookup_insert_ne.
      * f_equal. apply H. exists last. split; [| exact Hl].
        apply elem_of_app. right. by left.
    + destruct H. intros k Hk. by apply lookup_insert_ne.
    + destruct H. intros k Hk. by apply lookup_insert_ne.
    + f_equal. apply H. intros k Hk. by apply lookup_insert_ne.
  - apply (zone_step_Raise _ zones) in E. congruence.
Qed.

(** The zones after the first loop are the zones of the result, grown. *)
Lemma extract_zones_Ok parsed_idf (zones : zone_map) printed :
  extract_zones py_float parsed_idf = (Ok zones, printed) ->
  exists zones0,
    zone_loop py_float (get_records parsed_idf "ZONE") ∅ = Ok zones0 /\
    surface_loop py_float (get_records parsed_idf "BUILDINGSURFACE:DETAILED")
      zones0 [] = (Ok zones, printed) /\
    zones_grow zones0 zones.
Proof.
  unfold extract_zones.
  destruct (zone_loop py_float (get_records parsed_idf "ZONE") ∅) as [zones0|e];
    [| discriminate].
  intros H. exists zones0. split; [reflexivity |]. split; [exact H |].
  by eapply surface_loop_grows.
Qed.

Lemma get_records_insert_ne (d : gmap string (list (list string))) key key' records :
  key <> key' -> get_records (<[key := records]> d) key' = get_records d key'.
Proof. intros H. unfold get_records. by rewrite lookup_insert_ne. Qed.

Lemma get_records_insert (d : gmap string (list (list string))) key records :
  get_records (<[key := records]> d) key = records.
Proof. unfold get_records. by rewrite lookup_insert_eq. Qed.

(** C3, as amended.  For every record under the key ZONE of a mapping
    that [extract_zones] accepts: the 2nd element of the record is the
    zone name, the 4th to 6th elements are decoded by [float] as x, y
    and z, and (unless a later ZONE record has the same name) the zone of
    that name has the origin (x, y, z).  In particular, for the record
    [ZONE_Z1], which [parse] yields from the text [ZONE_Z1_text], the zone
    Z1 gets the origin (1.0, 2.0, 3.0) and an empty surface list. *)
Theorem zone_record_origin :
  (forall parsed_idf zones printed before zone after,
     extract_zones py_float parsed_idf = (Ok zones, printed) ->
     get_records parsed_idf "ZONE" = before ++ zone :: after ->
     exists name x y z,
       zone !! 1%nat = Some name /\
       float_at py_float zone 3 = Ok x /\
       float_at py_float zone 4 = Ok y /\
       float_at py_float zone 5 = Ok z /\
       ((forall zone', zone' ∈ after -> zone' !! 1%nat <> Some name) ->
        exists zg, zones !! name = Some zg /\ origin zg = (x, y, z))) /\
  parse ZONE_Z1_text = Ok {[ "ZONE" := [ZONE_Z1] ]} /\
  (forall f1 f2 f3,
     py_float "1.0" = Some f1 -> py_float "2.0" = Some f2 ->
     py_float "3.0" = Some f3 ->
     extract_zones py_float {[ "ZONE" := [ZONE_Z1] ]} =
     (Ok {[ "Z1" := ZG (f1, f2, f3) [] ]}, [])).
Proof.
  split; [| split].
  - intros parsed_idf zones printed before zone after Hex Hrec.
    apply extract_zones_Ok in Hex as (zones0 & Hz & _ & Hgrow).
    rewrite Hrec in Hz.
    assert (Hstep : exists mid mid', zone_step py_float mid zone = Ok mid').
    { rewrite zone_loop_app in Hz. bind_inv Hz. simpl in Hz. bind_inv Hz. eauto. }
    destruct Hstep as (mid & mid' & Hstep).
    apply zone_step_Ok in Hstep as (name & x & y & z & Hn & Hx & Hy & Hzc & _).
    exists name, x, y, z. repeat (split; [assumption |]).
    intros Hlast.
    destruct (zone_loop_last py_float _ _ _ _ _ _ Hz Hn Hlast)
      as (x' & y' & z' & Hx' & Hy' & Hz' & Hl).
    assert (x' = x) as -> by congruence.
    assert (y' = y) as -> by congruence.
    assert (z' = z) as -> by congruence.
    specialize (Hgrow name). rewrite Hl in Hgrow.
    destruct (zones !! name) as [zg|]; [| done].
    exists zg. split; [reflexivity |]. by destruct Hgrow as [-> _].
  - vm_compute. reflexivity.
  - intros f1 f2 f3 H1 H2 H3. unfold extract_zones, get_records.
    rewrite lookup_singleton_eq. simpl.
    unfold zone_step, float_at, float_, ZONE_Z1. simpl. rewrite H1, H2, H3. simpl.
    rewrite lookup_singleton_ne by done. simpl. by rewrite insert_empty.
Qed.

(** C4.  For a record under the key BUILDINGSURFACE:DETAILED whose 5th
    element names no zone made from the ZONE records, [extract_zones]
    returns and prints what it returns and prints without the record, and
    the result has no zone of that name. *)
Theorem surface_of_unknown_zone_skipped parsed_idf before surface after name :
  get_records parsed_idf "BUILDINGSURFACE:DETAILED" = before ++ surface :: after ->
  surface !! 4%nat = Some name ->
  (forall zone, zone ∈ get_records parsed_idf "ZONE" -> zone !! 1%nat <> Some name) ->
  extract_zones py_float parsed_idf =
    extract_zones py_float (<["BUILDINGSURFACE:DETAILED" := before ++ after]> parsed_idf) /\
  forall zones printed,
    extract_zones py_float parsed_idf = (Ok zones, printed) -> zones !! name = None.
Proof.
  intros Hrec Hname Hunknown.
  assert (Hnone : forall zones0,
            zone_loop py_float (get_records parsed_idf "ZONE") ∅ = Ok zones0 ->
            zones0 !! name = None).
  { intros zones0 Hz. by rewrite (zone_loop_other py_float _ _ _ _ Hz Hunknown). }
  split.
  - unfold extract_zones.
    rewrite get_records_insert_ne by done. rewrite get_records_insert.
    destruct (zone_loop py_float (get_records parsed_idf "ZONE") ∅) as [zones0|e] eqn:Hz;
      [| reflexivity].
    rewrite Hrec. eapply surface_loop_skip; eauto.
  - intros zones printed Hex.
    apply extract_zones_Ok in Hex as (zones0 & Hz & _ & Hgrow).
    eapply zones_grow_None; eauto.
Qed.

(** C8, as amended.  Every polygon in the result of [extract_zones] has
    exactly 4 vertices: a polygon is only appended after the first
    element equal to the text 4 was found, and then 4 triples are read
    after it.  A surface record without an element equal to the text 4
    changes no zone.  The count that a record declares plays no part: a
    record of a known zone in which the first element equal to the text 4
    is followed by twelve elements that [float] accepts contributes the
    polygon of these twelve elements, and a record that changes the zones
    is such a record. *)
Theorem polygons_have_four_vertices :
  (forall parsed_idf (zones : zone_map) printed name zg polygon,
     extract_zones py_float parsed_idf = (Ok zones, printed) ->
     zones !! name = Some zg -> polygon ∈ surfaces zg ->
     length polygon = 4%nat) /\
  (forall surface (vertices : list (@point float)),
     read_vertices py_float surface = Ok vertices ->
     exists i, list_index surface "4" = Ok i /\
               vertex_loop py_float surface (i + 1) 0 4 [] = Ok vertices) /\
  (forall (zones zones' : zone_map) surface out,
     "4" ∉ surface ->
     surface_step py_float zones surface = (Ok zones', out) -> zones' = zones) /\
  (forall (zones : zone_map) surface name zg i fs,
     surface !! 4%nat = Some name ->
     zones !! name = Some zg ->
     list_index surface "4" = Ok i ->
     Forall2 (fun s f => py_float s = Some f) (take 12 (drop (i + 1) surface)) fs ->
     length fs = 12%nat ->
     surface_step py_float zones surface =
       (Ok (<[name := ZG (origin zg) (surfaces zg ++ [triples fs])]> zones), [])) /\
  (forall (zones zones' : zone_map) surface out,
     surface_step py_float zones surface = (Ok zones', out) ->
     zones' = zones \/
     exists name zg i fs,
       surface !! 4%nat = Some name /\
       zones !! name = Some zg /\
       list_index surface "4" = Ok i /\
       Forall2 (fun s f => py_float s = Some f) (take 12 (drop (i + 1) surface)) fs /\
       length fs = 12%nat /\
       zones' = <[name := ZG (origin zg) (surfaces zg ++ [triples fs])]> zones).
Proof.
  split; [| split; [| split; [| split]]].
  - intros parsed_idf zones printed name zg polygon Hex Hl Hin.
    apply extract_zones_Ok in Hex as (zones0 & Hz & _ & Hgrow).
    destruct (zones_grow_lookup _ _ _ _ Hgrow Hl) as (zg0 & Hl0 & _ & more & Hs & Hall).
    assert (Hnil : surfaces zg0 = []).
    { eapply (zone_loop_no_surface py_float _ _ _ Hz); [| exact Hl0].
      intros n z. by rewrite lookup_empty. }
    rewrite Hnil in Hs. simpl in Hs. rewrite Hs in Hin.
    rewrite Forall_forall in Hall. by apply Hall.
  - apply read_vertices_count.
  - intros zones zones' surface out Hno. unfold surface_step.
    destruct (getitem surface 4); [| discriminate].
    case_decide; [| by intros [= <- _]].
    rewrite read_vertices_no_count by exact Hno. by intros [= <- _].
  - intros zones surface name zg i fs Hname Hzg Hi Hfs Hlen. unfold surface_step.
    apply getitem_Ok in Hname. rewrite Hname.
    rewrite decide_True by (by rewrite Hzg).
    rewrite (read_vertices_floats py_float surface i fs Hi Hfs Hlen).
    unfold append_surface. by rewrite Hzg.
  - intros zones zones' surface out. unfold surface_step.
    destruct (getitem surface 4) as [name|e] eqn:Hname; [| discriminate].
    apply getitem_Ok in Hname.
    case_decide as Hsome; [| intros [= <- _]; by left].
    destruct Hsome as [zg Hzg].
    destruct (read_vertices py_float surface) as [vertices|[]] eqn:Hread;
      try discriminate; [| intros [= <- _]; by left].
    intros [= <- _]. right.
    apply read_vertices_count in Hread as (i & Hi & Hread).
    apply vertex_loop_Ok in Hread as (fs & Hfs & Hlen & ->).
    rewrite Nat.add_0_r in Hfs.
    exists name, zg, i, fs. unfold append_surface. by rewrite Hzg.
Qed.

(** C9.  When an earlier and a later ZONE record carry the same name, the
    result has one entry for the name, with the origin decoded from the
    last such record; the earlier record is overwritten without an error:
    if it can be decoded, [extract_zones] returns and prints what it
    returns and prints without it. *)
Theorem duplicate_zone_last_wins parsed_idf zs1 first zs2 last zs3 name :
  get_records parsed_idf "ZONE" = zs1 ++ first :: zs2 ++ last :: zs3 ->
  first !! 1%nat = Some name ->
  last !! 1%nat = Some name ->
  (forall zone, zone ∈ zs3 -> zone !! 1%nat <> Some name) ->
  (forall zones printed,
     extract_zones py_float parsed_idf = (Ok zones, printed) ->
     exists x y z zg,
       float_at py_float last 3 = Ok x /\
       float_at py_float last 4 = Ok y /\
       float_at py_float last 5 = Ok z /\
       zones !! name = Some zg /\ origin zg = (x, y, z)) /\
  ((exists zones zones', zone_step py_float zones first = Ok zones') ->
   extract_zones py_float parsed_idf =
   extract_zones py_float (<["ZONE" := zs1 ++ zs2 ++ last :: zs3]> parsed_idf)).
Proof.
  intros Hrec Hfirst Hlast Hafter. split.
  - intros zones printed Hex.
    apply extract_zones_Ok in Hex as (zones0 & Hz & _ & Hgrow).
    rewrite Hrec in Hz.
    replace (zs1 ++ first :: zs2 ++ last :: zs3)
      with ((zs1 ++ first :: zs2) ++ last :: zs3) in Hz
      by (by rewrite <- app_assoc).
    destruct (zone_loop_last py_float _ _ _ _ _ _ Hz Hlast Hafter)
      as (x & y & z & Hx & Hy & Hzc & Hl).
    specialize (Hgrow name). rewrite Hl in Hgrow.
    destruct (zones !! name) as [zg|]; [| done].
    exists x, y, z, zg. repeat (split; [assumption |]).
    split; [reflexivity |]. by destruct Hgrow as [-> _].
  - intros (zones & zones' & Hdec). unfold extract_zones.
    rewrite get_records_insert. rewrite get_records_insert_ne by done.
    rewrite Hrec.
    by rewrite (zone_loop_overwritten zs1 first zs2 last zs3 zones zones' name).
Qed.

(** A ZONE record that cannot be decoded ends [extract_zones] with the
    exception of the decoding, before any surface is looked at. *)
Lemma extract_zones_zone_failure parsed_idf zs1 zone zs2 (mid : zone_map) e :
  get_records parsed_idf "ZONE" = zs1 ++ zone :: zs2 ->
  zone_loop py_float zs1 ∅ = Ok mid ->
  zone_step py_float mid zone = Raise e ->
  extract_zones py_float parsed_idf = (Raise e, []).
Proof.
  intros Hrec H1 H2. unfold extract_zones.
  by rewrite Hrec, (zone_loop_Raise py_float zs1 zone zs2 ∅ mid e H1 H2).
Qed.

(** *** Surfaces that are given up, and surfaces that end the run *)

Lemma surface_step_ValueError (zones : zone_map) surface name why :
  surface !! 4%nat = Some name -> is_Some (zones !! name) ->
  read_vertices py_float surface = Raise (ValueError why) ->
  surface_step py_float zones surface = (Ok zones, [Report surface why]).
Proof.
  intros Hname Hknown Hread. unfold surface_step.
  apply getitem_Ok in Hname. rewrite Hname.
  case_decide; [| done]. by rewrite Hread.
Qed.

Lemma surface_step_IndexError (zones : zone_map) surface name :
  surface !! 4%nat = Some name -> is_Some (zones !! name) ->
  read_vertices py_float surface = Raise IndexError ->
  surface_step py_float zones surface = (Raise IndexError, []).
Proof.
  intros Hname Hknown Hread. unfold surface_step.
  apply getitem_Ok in Hname. rewrite Hname.
  case_decide; [| done]. by rewrite Hread.
Qed.

Lemma float_at_numeric surface j :
  (j < length surface)%nat ->
  (forall s, surface !! j = Some s -> is_Some (py_float s)) ->
  exists x, float_at py_float surface j = Ok x.
Proof.
  intros Hj Hnum. destruct (lookup_lt_is_Some_2 surface j Hj) as [s Hs].
  destruct (Hnum s Hs) as [x Hx]. exists x. apply float_at_Ok. eauto.
Qed.

Lemma float_at_beyond surface j :
  (length surface <= j)%nat -> float_at py_float surface j = Raise IndexError.
Proof.
  intros Hj. unfold float_at, getitem. by rewrite (lookup_ge_None_2 surface j Hj).
Qed.

(** The vertex loop runs off the end of a record whose fields are all
    numbers but too few. *)
Lemma vertex_loop_short surface start i count (vertices : list (@point float)) :
  (start + i * 3 <= length surface)%nat ->
  (length surface < start + (i + count) * 3)%nat ->
  (forall j s, (start <= j)%nat -> surface !! j = Some s -> is_Some (py_float s)) ->
  vertex_loop py_float surface start i count vertices = Raise IndexError.
Proof.
  revert i vertices. induction count as [|count IH]; intros i vertices Hlo Hhi Hnum.
  - lia.
  - simpl.
    destruct (decide (start + i * 3 < length surface)%nat) as [Hx|Hx];
      [| rewrite (float_at_beyond surface (start + i * 3)) by lia; reflexivity].
    destruct (float_at_numeric surface (start + i * 3) Hx) as [x ->];
      [intros s; apply Hnum; lia |]. simpl.
    destruct (decide (start + i * 3 + 1 < length surface)%nat) as [Hy|Hy];
      [| rewrite (float_at_beyond surface (start + i * 3 + 1)) by lia; reflexivity].
    destruct (float_at_numeric surface (start + i * 3 + 1) Hy) as [y ->];
      [intros s; apply Hnum; lia |]. simpl.
    destruct (decide (start + i * 3 + 2 < length surface)%nat) as [Hz|Hz];
      [| rewrite (float_at_beyond surface (start + i * 3 + 2)) by lia; reflexivity].
    destruct (float_at_numeric surface (start + i * 3 + 2) Hz) as [z ->];
      [intros s; apply Hnum; lia |]. simpl.
    apply IH; [lia | lia | exact Hnum].
Qed.

(** A surface of a known zone with fewer than 12 fields after the count,
    all of them numbers, ends [extract_zones] with an [IndexError]. *)
Lemma surface_step_short (zones : zone_map) surface name i :
  surface !! 4%nat = Some name -> is_Some (zones !! name) ->
  list_index surface "4" = Ok i ->
  (length surface < i + 1 + 12)%nat ->
  (forall j s, (i < j)%nat -> surface !! j = Some s -> is_Some (py_float s)) ->
  surface_step py_float zones surface = (Raise IndexError, []).
Proof.
  intros Hname Hknown Hi Hlen Hnum.
  apply (surface_step_IndexError zones surface name Hname Hknown).
  unfold read_vertices. rewrite Hi. cbn [mbind result_bind].
  apply list_index_Ok in Hi as [Hi _].
  apply getitem_Ok in Hi as Hg. rewrite Hg. cbn [mbind result_bind].
  rewrite int_4. cbn [mbind result_bind]. change (Z.to_nat 4) with 4%nat.
  apply vertex_loop_short.
  - apply lookup_lt_Some in Hi. lia.
  - lia.
  - intros j s Hj. apply Hnum. lia.
Qed.

End ExtractZones.

(** ** The claims on [extract_zones] at concrete inputs *)

(** C1.  [extract_zones] has no handler around the first loop: a ZONE
    record with an origin field that is no number ends the whole call
    with the [ValueError] of [float], and a ZONE record that is too
    short ends it with an [IndexError]; the record Z1 that follows is
    not extracted.  The first mapping is what [parse] returns for
    [zones_bad_text]. *)
Theorem zone_decoding_failure_aborts :
  parse zones_bad_text = Ok {[ "ZONE" := [ZONE_Z0_bad; ZONE_Z1] ]} /\
  extract_zones decimal_float {[ "ZONE" := [ZONE_Z0_bad; ZONE_Z1] ]} =
    (Raise (ValueError (BadFloat "north")), []) /\
  extract_zones decimal_float {[ "ZONE" := [ZONE_Z0_short; ZONE_Z1] ]} =
    (Raise IndexError, []).
Proof. repeat split; vm_compute; reflexivity. Qed.

(** C2.  A surface of a known zone with too few fields after the count
    ends the whole call with an [IndexError], which the handler of the
    second loop does not catch: the wall S1 that follows is not
    extracted.  A coordinate that is no number and a missing count are
    caught: those surfaces are reported and the wall S1 is extracted. *)
Theorem short_surface_aborts :
  extract_zones decimal_float
    {[ "ZONE" := [ZONE_Z1]; BSD := [wall_short; wall_S1] ]} =
    (Raise IndexError, []) /\
  extract_zones decimal_float
    {[ "ZONE" := [ZONE_Z1]; BSD := [wall_bad; wall_triangle; wall_S1] ]} =
    (Ok {[ "Z1" := ZG (1%Q, 2%Q, 3%Q) [wall_S1_polygon] ]},
     [Report wall_bad (BadFloat "zero"); Report wall_triangle (NotInList "4")]).
Proof. split; vm_compute; reflexivity. Qed.

(** C3, the claim as it was stated: [parse] does not accept the text
    [ZONE,Z1,,1.0,2.0,3.0;], so that no record is parsed from it and no
    zone Z1 comes of it. *)
Lemma ZONE_text_of_spec_rejected :
  parse ZONE_Z1_text_of_spec = Raise (SyntaxError SyntaxErrorInInput 1) /\
  ~ (exists parsed_idf zones printed,
       parse ZONE_Z1_text_of_spec = Ok parsed_idf /\
       extract_zones decimal_float parsed_idf = (Ok zones, printed) /\
       is_Some (zones !! "Z1")).
Proof.
  assert (H : parse ZONE_Z1_text_of_spec = Raise (SyntaxError SyntaxErrorInInput 1))
    by (vm_compute; reflexivity).
  split; [exact H |]. intros (parsed_idf & zones & printed & Hp & _).
  rewrite H in Hp. discriminate.
Qed.

Lemma zone_record_origin_witness :
  exists name x y z,
    ZONE_Z1 !! 1%nat = Some name /\
    float_at decimal_float ZONE_Z1 3 = Ok x /\
    float_at decimal_float ZONE_Z1 4 = Ok y /\
    float_at decimal_float ZONE_Z1 5 = Ok z /\
    exists zg,
      ({[ "Z1" := ZG (1%Q, 2%Q, 3%Q) [wall_S1_polygon] ]} : gmap string ZoneGeometry)
        !! name = Some zg /\
      origin zg = (x, y, z).
Proof.
  destruct (zone_record_origin decimal_float) as [Hall _].
  destruct (Hall {[ "ZONE" := [ZONE_Z1]; BSD := [wall_S1] ]}
              {[ "Z1" := ZG (1%Q, 2%Q, 3%Q) [wall_S1_polygon] ]} [] [] ZONE_Z1 [])
    as (name & x & y & z & Hn & Hx & Hy & Hz & Hlast).
  - vm_compute. reflexivity.
  - vm_compute. reflexivity.
  - exists name, x, y, z. repeat (split; [assumption |]).
    apply Hlast. intros zone' Hin. by apply elem_of_nil in Hin.
Defined.

Lemma surface_of_unknown_zone_skipped_witness :
  extract_zones decimal_float
    {[ "ZONE" := [ZONE_Z1]; BSD := [wall_S1; wall_Z9] ]} =
  extract_zones decimal_float
    (<[BSD := [wall_S1]]> {[ "ZONE" := [ZONE_Z1]; BSD := [wall_S1; wall_Z9] ]}).
Proof.
  apply (surface_of_unknown_zone_skipped decimal_float
           {[ "ZONE" := [ZONE_Z1]; BSD := [wall_S1; wall_Z9] ]}
           [wall_S1] wall_Z9 [] "Z9").
  - vm_compute. reflexivity.
  - reflexivity.
  - intros zone Hin. vm_compute in Hin.
    apply list_elem_of_singleton in Hin. subst zone. discriminate.
Defined.

(** C8, the claim as it was stated: a surface record that declares
    another count than 4 can contribute a polygon.  The eleventh element
    of [wall_pentagon] is the count 5, as it is the count 4 in [wall_S1],
    and fifteen coordinates follow it; the first of them is the text 4,
    and the twelve elements after it are read as a polygon of the zone. *)
Lemma pentagon_contributes_a_polygon :
  wall_S1 !! 10%nat = Some "4" /\
  wall_pentagon !! 10%nat = Some "5" /\
  length (drop 11 wall_pentagon) = 15%nat /\
  extract_zones decimal_float {[ "ZONE" := [ZONE_Z1]; BSD := [wall_pentagon] ]} =
    (Ok {[ "Z1" := ZG (1%Q, 2%Q, 3%Q)
                     [[ (0, 3, 0)%Q; (0, 0, 5)%Q; (0, 0, 5)%Q; (0, 3, 2)%Q ]] ]}, []) /\
  ~ (forall zones printed zg,
       extract_zones decimal_float {[ "ZONE" := [ZONE_Z1]; BSD := [wall_pentagon] ]} =
         (Ok zones, printed) ->
       zones !! "Z1" = Some zg -> surfaces zg = []).
Proof.
  assert (H : extract_zones decimal_float
                {[ "ZONE" := [ZONE_Z1]; BSD := [wall_pentagon] ]} =
              (Ok {[ "Z1" := ZG (1%Q, 2%Q, 3%Q)
                               [[ (0, 3, 0)%Q; (0, 0, 5)%Q; (0, 0, 5)%Q; (0, 3, 2)%Q ]] ]},
               [])) by (vm_compute; reflexivity).
  do 3 (split; [reflexivity |]). split; [exact H |]. intros Hnone.
  specialize (Hnone _ _ _ H (lookup_singleton_eq _ _)). discriminate.
Qed.

Lemma polygons_have_four_vertices_witness :
  length wall_S1_polygon = 4%nat /\
  surface_step decimal_float {[ "Z1" := ZG (1%Q, 2%Q, 3%Q) [] ]} wall_pentagon =
    (Ok (<["Z1" := ZG (1%Q, 2%Q, 3%Q)
                     [triples [0; 3; 0; 0; 0; 5; 0; 0; 5; 0; 3; 2]%Q]]>
           {[ "Z1" := ZG (1%Q, 2%Q, 3%Q) [] ]}), []).
Proof.
  destruct (polygons_have_four_vertices decimal_float) as (Hall & _ & _ & Hadd & _).
  split.
  - apply (Hall {[ "ZONE" := [ZONE_Z1]; BSD := [wall_S1] ]}
                {[ "Z1" := ZG (1%Q, 2%Q, 3%Q) [wall_S1_polygon] ]} []
                "Z1" (ZG (1%Q, 2%Q, 3%Q) [wall_S1_polygon])).
    + vm_compute. reflexivity.
    + vm_compute. reflexivity.
    + simpl. by left.
  - apply (Hadd {[ "Z1" := ZG (1%Q, 2%Q, 3%Q) [] ]} wall_pentagon "Z1"
                (ZG (1%Q, 2%Q, 3%Q) []) 11%nat
                [0; 3; 0; 0; 0; 5; 0; 0; 5; 0; 3; 2]%Q).
    + reflexivity.
    + vm_compute. reflexivity.
    + vm_compute. reflexivity.
    + simpl. repeat constructor.
    + reflexivity.
Defined.

Lemma duplicate_zone_last_wins_witness :
  exists x y z zg,
    float_at decimal_float ZONE_Z1 3 = Ok x /\
    float_at decimal_float ZONE_Z1 4 = Ok y /\
    float_at decimal_float ZONE_Z1 5 = Ok z /\
    ({[ "Z1" := ZG (1%Q, 2%Q, 3%Q) [] ]} : gmap string ZoneGeometry) !! "Z1" = Some zg /\
    origin zg = (x, y, z).
Proof.
  destruct (duplicate_zone_last_wins decimal_float
              {[ "ZONE" := [ZONE_Z1_old; ZONE_Z1] ]}
              [] ZONE_Z1_old [] ZONE_Z1 [] "Z1") as [Hlast _].
  - vm_compute. reflexivity.
  - reflexivity.
  - reflexivity.
  - intros zone Hin. by apply elem_of_nil in Hin.
  - apply (Hlast _ []). vm_compute. reflexivity.
Defined.

(** ** The grammar *)

Lemma p_idffile_loop_lookup p1 (d d' : gmap string (list idfobject)) key :
  p_idffile_loop p1 d = Ok d' ->
  default [] (d' !! key) = default [] (d !! key) ++ records_of_type key p1 /\
  (d' !! key = None <-> d !! key = None /\ records_of_type key p1 = []).
Proof.
  revert d. induction p1 as [|o p1 IH]; intros d; simpl.
  - intros [= <-]. unfold records_of_type. simpl. rewrite app_nil_r. tauto.
  - intros H. bind_inv H. rename a into name. apply getitem_Ok in Ha.
    destruct o as [|name' fields]; [discriminate |]. injection Ha as ->.
    apply IH in H as [Hget Hnone]. unfold records_of_type in *.
    rewrite filter_cons. simpl. unfold setdefault_append in *.
    destruct (decide (Some (upper name) = Some key)) as [[= <-]|Hne].
    + rewrite lookup_insert_eq in Hget, Hnone. simpl in Hget.
      rewrite Hget, <- app_assoc. split; [reflexivity |].
      rewrite Hnone. split; [intros [[=] _] | intros [_ [=]]].
    + rewrite lookup_insert_ne in Hget, Hnone by congruence.
      rewrite Hget. tauto.
Qed.

Lemma p_idffile_lookup p1 (d : gmap string (list idfobject)) key :
  p_idffile p1 = Ok d ->
  d !! key = match records_of_type key p1 with
             | [] => None
             | records => Some records
             end.
Proof.
  unfold p_idffile. intros H.
  destruct (p_idffile_loop_lookup p1 ∅ d key H) as [Hget Hnone].
  rewrite lookup_empty in Hget, Hnone. simpl in Hget.
  destruct (records_of_type key p1) as [|r rs] eqn:E.
  - apply Hnone. done.
  - destruct (d !! key) as [l|]; simpl in Hget; [by subst | discriminate].
Qed.

Lemma unsnoc_Some {A} (l init : list A) last :
  unsnoc l = Some (init, last) -> l = init ++ [last].
Proof.
  revert init. induction l as [|x l IH]; intros init; simpl; [discriminate |].
  destruct (unsnoc l) as [[i la]|] eqn:E.
  - intros [= <- <-]. simpl. f_equal. by apply IH.
  - intros [= <- <-]. destruct l as [|y l]; [reflexivity |]. simpl in E.
    by destruct (unsnoc l) as [[]|].
Qed.

Lemma reduce_idfobjectlist_snoc objects last :
  reduce_idfobjectlist objects last = objects ++ [last].
Proof.
  unfold reduce_idfobjectlist. induction objects as [|o os IH]; simpl; [reflexivity |].
  by rewrite IH.
Qed.

Lemma reduce_valuelist_snoc values last :
  reduce_valuelist values last = strip <$> (values ++ [last]).
Proof.
  unfold reduce_valuelist. induction values as [|v vs IH]; simpl; [reflexivity |].
  by rewrite IH.
Qed.

(** The parser only succeeds between objects, and with the objects it
    has reduced; there is at least one. *)
Lemma parser_run_Ok ts fin objects st p1 :
  parser_run ts fin objects st = Ok p1 ->
  p1 <> [] /\ exists more, p1 = objects ++ more.
Proof.
  revert objects st. induction ts as [|[t lineno] ts IH]; intros objects st; simpl.
  - destruct fin as [lineno|e]; [| discriminate].
    destruct st; try discriminate.
    destruct (unsnoc objects) as [[init last]|] eqn:E; [| discriminate].
    intros [= <-]. apply unsnoc_Some in E. rewrite reduce_idfobjectlist_snoc, <- E.
    split; [by destruct init; subst | exists []; by rewrite app_nil_r].
  - destruct st, (tok_type t); try discriminate; intros H; apply IH in H;
      destruct H as [Hne (more & ->)]; (split; [exact Hne |]);
      rewrite <- ?app_assoc; eauto.
Qed.


(** *** The parser and the grammar as it is written *)

Lemma unsnoc_snoc {A} (l : list A) x : unsnoc (l ++ [x]) = Some (l, x).
Proof.
  induction l as [|y l IH]; [reflexivity |].
  simpl. by rewrite IH.
Qed.

(** *** A derivation is accepted *)

Lemma parser_run_valuelist tsz p3 :
  derives_valuelist tsz.*1 p3 ->
  forall s n rest fin objects name values,
    tok_type s = SEMICOLON ->
    parser_run (tsz ++ (s, n) :: rest) fin objects (AtValue name values) =
    parser_run rest fin
      (objects ++ [p_idfobject_with_values name ((strip <$> values) ++ p3)]) AtObject.
Proof.
  remember (tsz.*1) as ts eqn:Ets. intros H. revert tsz Ets.
  induction H as [t Ht | t c ts p3 Ht Hc H IH]; intros tsz Ets s n rest fin objects name values Hs.
  - destruct tsz as [|[t' n'] [|? ?]]; simplify_eq/=.
    rewrite Ht, Hs. by rewrite reduce_valuelist_snoc, fmap_app.
  - destruct tsz as [|[t' n'] [|[c' m'] tsz]]; simplify_eq/=.
    rewrite Ht, Hc. rewrite (IH tsz eq_refl) by done.
    unfold p_valuelist_multiple. by rewrite fmap_app, <- app_assoc.
Qed.

Lemma parser_run_idfobject tsz p1 :
  derives_idfobject tsz.*1 p1 ->
  forall rest fin objects,
    parser_run (tsz ++ rest) fin objects AtObject =
    parser_run rest fin (objects ++ [p1]) AtObject.
Proof.
  remember (tsz.*1) as ts eqn:Ets. intros H. revert tsz Ets.
  destruct H as [ts1 p1 s Hn Hs | ts1 p1 c ts3 p3 s Hn Hc Hv Hs];
    intros tsz Ets rest fin objects; destruct Hn as [t Ht].
  - destruct tsz as [|[t' n'] [|[s' m'] [|? ?]]]; simplify_eq/=.
    by rewrite Ht, Hs.
  - destruct tsz as [|[t' n'] [|[c' m'] tsz]]; simplify_eq/=.
    rewrite Ht, Hc.
    symmetry in H0. apply fmap_app_inv in H0 as (tsz3 & tszs & -> & Es & ->).
    destruct tszs as [|[s' k'] [|? ?]]; simplify_eq/=.
    rewrite <- app_assoc. simpl.
    by rewrite (parser_run_valuelist tsz3 _ Hv) by done.
Qed.

Lemma parser_run_idfobjectlist tsz p :
  derives_idfobjectlist tsz.*1 p ->
  forall lexer_lineno objects,
    parser_run tsz (AtEnd lexer_lineno) objects AtObject = Ok (objects ++ p).
Proof.
  remember (tsz.*1) as ts eqn:Ets. intros H. revert tsz Ets.
  induction H as [ts1 p1 H1 | ts1 p1 ts2 p2 H1 H2 IH]; intros tsz Ets n objects.
  - subst ts1. rewrite <- (app_nil_r tsz).
    rewrite (parser_run_idfobject tsz p1 H1). simpl.
    by rewrite unsnoc_snoc, reduce_idfobjectlist_snoc.
  - symmetry in Ets. apply fmap_app_inv in Ets as (tsz1 & tsz2 & -> & -> & ->).
    rewrite (parser_run_idfobject tsz1 p1 H1).
    rewrite (IH tsz2 eq_refl). unfold p_idfobjectlist_multiple.
    by rewrite <- app_assoc.
Qed.

(** *** What is accepted has a derivation *)

Lemma parser_run_values ts :
  forall fin objects name p,
  (forall values,
     parser_run ts fin objects (AtValue name values) = Ok p ->
     exists tsv s n rest p3,
       ts = tsv ++ (s, n) :: rest /\
       derives_valuelist tsv.*1 p3 /\
       tok_type s = SEMICOLON /\
       parser_run rest fin
         (objects ++ [p_idfobject_with_values name ((strip <$> values) ++ p3)])
         AtObject = Ok p) /\
  (forall values last,
     parser_run ts fin objects (AfterValue name values last) = Ok p ->
     exists tsv s n rest p3,
       ts = tsv ++ (s, n) :: rest /\
       (forall t, tok_type t = VALUE -> tok_value t = last ->
                  derives_valuelist (t :: tsv.*1) p3) /\
       tok_type s = SEMICOLON /\
       parser_run rest fin
         (objects ++ [p_idfobject_with_values name ((strip <$> values) ++ p3)])
         AtObject = Ok p).
Proof.
  induction ts as [|[t n] ts IH]; intros fin objects name p.
  - split; intros; simpl in *; destruct fin; discriminate.
  - destruct (IH fin objects name p) as [IHv IHa]. split.
    + intros values H. simpl in H.
      destruct (tok_type t) eqn:Et; try discriminate.
      apply IHa in H as (tsv & s & m & rest & p3 & -> & Hd & Hs & H).
      exists ((t, n) :: tsv), s, m, rest, p3. split; [done |].
      split; [by apply Hd | done].
    + intros values last H. simpl in H.
      destruct (tok_type t) eqn:Et; try discriminate.
      * apply IHv in H as (tsv & s & m & rest & p3 & -> & Hd & Hs & H).
        exists ((t, n) :: tsv), s, m, rest, (p_valuelist_multiple last p3).
        split; [done |]. split.
        -- intros t0 Ht0 <-. simpl. by constructor.
        -- split; [done |]. unfold p_valuelist_multiple.
           by rewrite fmap_app, <- app_assoc in H.
      * exists [], t, n, ts, (p_valuelist last). split; [done |]. split.
        -- intros t0 Ht0 <-. by constructor.
        -- split; [done |].
           by rewrite reduce_valuelist_snoc, fmap_app in H.
Qed.

Lemma parser_run_derives ts :
  forall lexer_lineno objects p,
    parser_run ts (AtEnd lexer_lineno) objects AtObject = Ok p ->
    (ts = [] /\ objects <> [] /\ p = objects) \/
    exists more, derives_idfobjectlist ts.*1 more /\ p = objects ++ more.
Proof.
  induction ts as [ts IH] using (induction_ltof1 _ length). unfold ltof in IH.
  intros lineno objects p H.
  destruct ts as [|[t n] ts].
  { left. simpl in H. destruct (unsnoc objects) as [[init last]|] eqn:E; [| done].
    apply unsnoc_Some in E. rewrite reduce_idfobjectlist_snoc in H.
    split; [done |]. split; [| congruence]. subst objects. by destruct init. }
  right. simpl in H. destruct (tok_type t) eqn:Et; try discriminate.
  destruct ts as [|[s m] ts]; [done |].
  simpl in H. destruct (tok_type s) eqn:Es; try discriminate.
  - (* objectname COMMA valuelist SEMICOLON *)
    apply parser_run_values in H as (tsv & s' & k & rest & p3 & -> & Hd & Hs & H).
    assert (Ho : derives_idfobject (((t, n) :: (s, m) :: tsv ++ [(s', k)]).*1)
                   (p_idfobject_with_values (p_objectname (tok_value t)) p3)).
    { rewrite !fmap_cons, fmap_app. simpl.
      apply (idfobject_objectname_COMMA_valuelist_SEMICOLON [t]);
        first [done | by constructor]. }
    apply IH in H; [| simpl; rewrite length_app; simpl; lia].
    destruct H as [(-> & _ & ->) | (more & Hmore & ->)].
    + eexists. split; [| reflexivity]. by constructor.
    + exists (p_idfobjectlist_multiple
                (p_idfobject_with_values (p_objectname (tok_value t)) p3) more).
      split; [| unfold p_idfobjectlist_multiple; by rewrite <- app_assoc].
      replace (((t, n) :: (s, m) :: tsv ++ (s', k) :: rest).*1)
        with (((t, n) :: (s, m) :: tsv ++ [(s', k)]).*1 ++ rest.*1).
      * by constructor.
      * rewrite !fmap_cons, !fmap_app. simpl. by rewrite <- app_assoc.
  - (* objectname SEMICOLON *)
    assert (Ho : derives_idfobject [t; s] (p_idfobject (p_objectname (tok_value t)))).
    { apply (idfobject_objectname_SEMICOLON [t]); [by constructor | done]. }
    apply IH in H; [| simpl; lia].
    destruct H as [(-> & _ & ->) | (more & Hmore & ->)].
    + eexists. split; [| reflexivity]. by constructor.
    + exists (p_idfobjectlist_multiple (p_idfobject (p_objectname (tok_value t))) more).
      split; [| unfold p_idfobjectlist_multiple; by rewrite <- app_assoc].
      by apply (idfobjectlist_idfobject_idfobjectlist [t; s]).
Qed.



(** C6, the claim as it was stated: [parse] does not return an empty
    mapping for the empty text, nor for a text that is only a comment or
    only blanks; it raises the [SyntaxError] of [p_error]. *)
Lemma parse_empty_input_rejected :
  parse "" = Raise (SyntaxError SyntaxErrorInInput 1) /\
  parse "  ! no objects here" = Raise (SyntaxError SyntaxErrorInInput 1) /\
  parse "   " = Raise (SyntaxError SyntaxErrorInInput 1) /\
  parse "" <> Ok ∅.
Proof. repeat split; [vm_compute; reflexivity .. | discriminate]. Qed.

(** C6, as amended.  The grammar asks for one or more objects: when the
    tokenizer finds no token in the input (the input is empty, or holds
    comments and line ends only), [parse] raises the [SyntaxError] of
    [p_error] with the final value of the line counter; and a mapping
    that [parse] returns is never empty. *)
Theorem parse_needs_an_object :
  (forall input lexer_lineno,
     lexer_input input = ([], AtEnd lexer_lineno) ->
     parse input = Raise (SyntaxError SyntaxErrorInInput lexer_lineno)) /\
  (forall input d, parse input = Ok d -> d <> ∅).
Proof.
  split.
  - intros input lineno H. unfold parse, parser_parse. by rewrite H.
  - intros input d H. unfold parse, parser_parse in H. bind_inv H. rename a into p1.
    apply parser_run_Ok in Ha as [Hne _].
    destruct p1 as [|o p1]; [done |].
    destruct o as [|name fields]; [discriminate |].
    intros ->. pose proof (p_idffile_lookup _ _ (upper name) H) as Hl.
    rewrite lookup_empty in Hl. unfold records_of_type in Hl.
    rewrite filter_cons in Hl. simpl in Hl.
    by destruct (decide (Some (upper name) = Some (upper name))).
Qed.

Lemma parse_needs_an_object_witness :
  parse ("! only a comment" ++ nl ++ nl) =
    Raise (SyntaxError SyntaxErrorInInput 3) /\
  ({[ "ZONE" := [ZONE_Z1] ]} : gmap string (list idfobject)) <> ∅.
Proof.
  destruct parse_needs_an_object as [Hnone Hsome]. split.
  - apply Hnone. vm_compute. reflexivity.
  - apply (Hsome ZONE_Z1_text). vm_compute. reflexivity.
Defined.

(** ** The extractor on a store: what a call may touch *)

Section StoreFacts.

Context {float : Type} (py_float : string -> option float).

#[local] Existing Instance Store.M_ret.
#[local] Existing Instance Store.M_bind.

Local Abbreviation M := (@Store.M float).
Local Abbreviation value := (@Store.value float).
Local Abbreviation object := (@Store.object float).
Local Abbreviation new_value := (@Store.new_value float).
Local Abbreviation new_object := (@Store.new_object float).
Local Abbreviation keeps := (@Store.keeps float).

Implicit Types (base : list object) (v d lst : value) (o : object).

Lemma keeps_ret {A} base (a : A) (Q : A -> Prop) : Q a -> keeps base (mret a) Q.
Proof. intros HQ st Hst. simpl. auto. Qed.

Lemma keeps_raise {A} base e (Q : A -> Prop) : keeps base (Store.raise e) Q.
Proof. intros st Hst. exact Hst. Qed.

Lemma keeps_bind {A B} base (c : M A) (k : A -> M B) (Q : A -> Prop) (R : B -> Prop) :
  keeps base c Q -> (forall a, Q a -> keeps base (k a) R) -> keeps base (c ≫= k) R.
Proof.
  intros Hc Hk st Hst. specialize (Hc st Hst).
  unfold mbind, Store.M_bind. destruct (c st) as [[a|e] st'].
  - destruct Hc as [Hst' HQ]. by apply Hk.
  - exact Hc.
Qed.

Lemma keeps_weaken {A} base (c : M A) (Q R : A -> Prop) :
  keeps base c Q -> (forall a, Q a -> R a) -> keeps base c R.
Proof.
  intros Hc HQR st Hst. specialize (Hc st Hst).
  destruct (c st) as [[a|e] st']; [| exact Hc]. destruct Hc. auto.
Qed.

Lemma keeps_try {A} base (body : M A) handler (Q : A -> Prop) :
  keeps base body Q -> (forall e, keeps base (handler e) Q) ->
  keeps base (Store.try_except_ValueError body handler) Q.
Proof.
  intros Hb Hh st Hst. specialize (Hb st Hst).
  unfold Store.try_except_ValueError.
  destruct (body st) as [[a|[]] st']; try exact Hb. by apply Hh.
Qed.

Lemma keeps_alloc_ref base o :
  new_object base o ->
  keeps base (Store.alloc o) (fun v => exists l, v = Store.VRef l /\ (length base <= l)%nat).
Proof.
  intros Ho st [Hpre Hnew]. unfold Store.alloc. simpl. split; [split |].
  - by apply prefix_app_r.
  - intros l o' Hl. simpl. rewrite lookup_app. destruct (Store.heap st !! l) eqn:E.
    + intros [= <-]. by eapply Hnew.
    + destruct (l - length (Store.heap st))%nat as [|n]; simpl; [| done].
      by intros [= <-].
  - eexists. split; [reflexivity | by apply prefix_length].
Qed.

Lemma keeps_alloc base o : new_object base o -> keeps base (Store.alloc o) (new_value base).
Proof.
  intros Ho. eapply keeps_weaken; [by apply keeps_alloc_ref |].
  by intros v (l & -> & Hl).
Qed.

Lemma keeps_load base (l : Store.loc) :
  keeps base (Store.load l) (fun o => (length base <= l)%nat -> new_object base o).
Proof.
  intros st Hst. unfold Store.load.
  destruct (Store.heap st !! l) as [o|] eqn:E; [| exact Hst].
  split; [exact Hst |]. intros Hl. destruct Hst as [_ Hnew]. by eapply Hnew.
Qed.

Lemma keeps_store base (l : Store.loc) o :
  (length base <= l)%nat -> new_object base o ->
  keeps base (Store.store l o) (fun _ => True).
Proof.
  intros Hl Ho st [Hpre Hnew]. unfold Store.store. simpl. split; [split |]; [| | exact I].
  - simpl. destruct Hpre as [k Hk]. rewrite Hk.
    rewrite insert_app_r_alt by exact Hl. by apply prefix_app_r.
  - intros l' o' Hl'. simpl. destruct (decide (l = l')) as [<-|Hne].
    + destruct (decide (l < length (Store.heap st))%nat) as [Hlt|Hge].
      * rewrite list_lookup_insert_eq by exact Hlt. by intros [= <-].
      * rewrite list_insert_ge by lia. by apply Hnew.
    + rewrite list_lookup_insert_ne by exact Hne. by apply Hnew.
Qed.

Lemma keeps_print base items e : keeps base (Store.print items e) (fun _ => True).
Proof. intros st Hst. unfold Store.print. simpl. split; [exact Hst | exact I]. Qed.

Lemma keeps_as_ref base v :
  keeps base (Store.as_ref v) (fun l => v = Store.VRef l).
Proof. destruct v; simpl; try apply keeps_raise. by apply keeps_ret. Qed.

Lemma keeps_as_str base v : keeps base (Store.as_str v) (fun _ => True).
Proof. destruct v; simpl; try apply keeps_raise. by apply keeps_ret. Qed.

Lemma keeps_load_list base v :
  keeps base (Store.load_list v) (fun items => new_value base v -> Forall (new_value base) items).
Proof.
  unfold Store.load_list.
  eapply keeps_bind; [apply keeps_as_ref |]. intros l ->.
  eapply keeps_bind; [apply keeps_load |]. intros [items|items] Ho.
  - apply keeps_ret. exact Ho.
  - apply keeps_raise.
Qed.

Lemma keeps_load_dict base v :
  keeps base (Store.load_dict v)
    (fun items => new_value base v -> map_Forall (fun _ x => new_value base x) items).
Proof.
  unfold Store.load_dict.
  eapply keeps_bind; [apply keeps_as_ref |]. intros l ->.
  eapply keeps_bind; [apply keeps_load |]. intros [items|items] Ho.
  - apply keeps_raise.
  - apply keeps_ret. exact Ho.
Qed.

Lemma keeps_dict_get base d key dflt :
  keeps base (Store.dict_get d key dflt) (fun _ => True).
Proof.
  unfold Store.dict_get.
  eapply keeps_bind; [apply keeps_load_dict |]. intros items _. by apply keeps_ret.
Qed.

Lemma keeps_dict_getitem base d key :
  new_value base d -> keeps base (Store.dict_getitem d key) (new_value base).
Proof.
  intros Hd. unfold Store.dict_getitem.
  eapply keeps_bind; [apply keeps_load_dict |]. intros items Hitems.
  destruct (items !! key) as [v|] eqn:E; [| apply keeps_raise].
  apply keeps_ret. by apply (Hitems Hd key).
Qed.

Lemma keeps_dict_contains base d key :
  keeps base (Store.dict_contains d key) (fun _ => True).
Proof.
  unfold Store.dict_contains.
  eapply keeps_bind; [apply keeps_as_str |]. intros k _.
  eapply keeps_bind; [apply keeps_load_dict |]. intros items _. by apply keeps_ret.
Qed.

Lemma keeps_dict_setitem base d key v :
  new_value base d -> new_value base v ->
  keeps base (Store.dict_setitem d key v) (fun _ => True).
Proof.
  intros Hd Hv. unfold Store.dict_setitem.
  eapply keeps_bind; [apply keeps_as_str |]. intros k _.
  eapply keeps_bind; [apply keeps_as_ref |]. intros l ->.
  eapply keeps_bind; [apply keeps_load_dict |]. intros items Hitems.
  apply keeps_store; [exact Hd |]. simpl.
  apply map_Forall_insert_2; [exact Hv | by apply Hitems].
Qed.

Lemma keeps_list_getitem base lst i :
  keeps base (Store.list_getitem lst i) (fun _ => True).
Proof.
  unfold Store.list_getitem.
  eapply keeps_bind; [apply keeps_load_list |]. intros items _.
  destruct (items !! i); [by apply keeps_ret | apply keeps_raise].
Qed.

Lemma keeps_list_append base lst v :
  new_value base lst -> new_value base v ->
  keeps base (Store.list_append lst v) (fun _ => True).
Proof.
  intros Hl Hv. unfold Store.list_append.
  eapply keeps_bind; [apply keeps_as_ref |]. intros r ->.
  eapply keeps_bind; [apply keeps_load_list |]. intros items Hitems.
  apply keeps_store; [exact Hl |]. simpl.
  apply Forall_app. split; [by apply Hitems | by constructor].
Qed.

Lemma keeps_list_index base lst x : keeps base (Store.list_index lst x) (fun _ => True).
Proof.
  unfold Store.list_index.
  eapply keeps_bind; [apply keeps_load_list |]. intros items _.
  destruct (Store.index_of items x 0); [by apply keeps_ret | apply keeps_raise].
Qed.

Lemma keeps_float base v : keeps base (Store.float_ py_float v) (fun _ => True).
Proof.
  unfold Store.float_.
  eapply keeps_bind; [apply keeps_as_str |]. intros s _.
  destruct (py_float s); [by apply keeps_ret | apply keeps_raise].
Qed.

Lemma keeps_int base v : keeps base (Store.int_ v) (fun _ => True).
Proof.
  unfold Store.int_.
  eapply keeps_bind; [apply keeps_as_str |]. intros s _.
  destruct (py_int s); [by apply keeps_ret | apply keeps_raise].
Qed.

Lemma keeps_float_at base lst i :
  keeps base (Store.list_getitem lst i ≫= Store.float_ py_float) (fun _ => True).
Proof.
  eapply keeps_bind; [apply keeps_list_getitem |]. intros v _. apply keeps_float.
Qed.

Lemma keeps_for_each base n lst i (body : value -> M unit) :
  (forall x, keeps base (body x) (fun _ => True)) ->
  keeps base (Store.for_each n lst i body) (fun _ => True).
Proof.
  intros Hbody. revert i. induction n as [|n IH]; intros i; simpl.
  - by apply keeps_ret.
  - eapply keeps_bind; [apply keeps_load_list |]. intros items _.
    destruct (items !! i) as [x|]; [| by apply keeps_ret].
    eapply keeps_bind; [apply Hbody |]. intros _ _. apply IH.
Qed.

Lemma keeps_for_in base lst (body : value -> M unit) :
  (forall x, keeps base (body x) (fun _ => True)) ->
  keeps base (Store.for_in lst body) (fun _ => True).
Proof.
  intros Hbody. unfold Store.for_in.
  eapply keeps_bind; [apply keeps_load_list |]. intros items _.
  by apply keeps_for_each.
Qed.

Lemma keeps_for_range base n i (body : nat -> M unit) :
  (forall j, keeps base (body j) (fun _ => True)) ->
  keeps base (Store.for_range n i body) (fun _ => True).
Proof.
  intros Hbody. revert i. induction n as [|n IH]; intros i; simpl.
  - by apply keeps_ret.
  - eapply keeps_bind; [apply Hbody |]. intros _ _. apply IH.
Qed.

Lemma keeps_zone_body base (zones zone : value) :
  new_value base zones ->
  keeps base (Store.zone_body py_float zones zone) (fun _ => True).
Proof.
  intros Hzones. unfold Store.zone_body.
  eapply keeps_bind; [apply keeps_list_getitem |]. intros zone_name _.
  eapply keeps_bind; [apply keeps_float_at |]. intros x _.
  eapply keeps_bind; [apply keeps_float_at |]. intros y _.
  eapply keeps_bind; [apply keeps_float_at |]. intros z _.
  eapply keeps_bind; [apply keeps_alloc; by constructor |]. intros surfaces Hs.
  eapply keeps_bind.
  - apply keeps_alloc. simpl.
    apply map_Forall_insert_2; [exact I |].
    apply map_Forall_insert_2; [exact Hs |]. apply map_Forall_empty.
  - intros entry He. by apply keeps_dict_setitem.
Qed.

Lemma keeps_vertex_body base (surface vertices : value) start i :
  new_value base vertices ->
  keeps base (Store.vertex_body py_float surface start vertices i) (fun _ => True).
Proof.
  intros Hv. unfold Store.vertex_body.
  eapply keeps_bind; [apply keeps_float_at |]. intros x _.
  eapply keeps_bind; [apply keeps_float_at |]. intros y _.
  eapply keeps_bind; [apply keeps_float_at |]. intros z _.
  by apply keeps_list_append.
Qed.

Lemma keeps_try_body base (zones surface zone_name : value) :
  new_value base zones ->
  keeps base (Store.try_body py_float zones surface zone_name) (fun _ => True).
Proof.
  intros Hzones. unfold Store.try_body.
  eapply keeps_bind; [apply keeps_list_index |]. intros idx _.
  eapply keeps_bind.
  { eapply keeps_bind; [apply keeps_list_getitem |]. intros v _. apply keeps_int. }
  intros num _.
  eapply keeps_bind; [apply keeps_alloc; by constructor |]. intros vertices Hv.
  eapply keeps_bind.
  { apply keeps_for_range. intros j. by apply keeps_vertex_body. }
  intros _ _.
  eapply keeps_bind; [apply keeps_as_str |]. intros k _.
  eapply keeps_bind; [by apply keeps_dict_getitem |]. intros entry He.
  eapply keeps_bind; [by apply keeps_dict_getitem |]. intros surfaces Hs.
  by apply keeps_list_append.
Qed.

Lemma keeps_surface_body base (zones surface : value) :
  new_value base zones ->
  keeps base (Store.surface_body py_float zones surface) (fun _ => True).
Proof.
  intros Hzones. unfold Store.surface_body.
  eapply keeps_bind; [apply keeps_list_getitem |]. intros zone_name _.
  eapply keeps_bind; [apply keeps_dict_contains |]. intros [|] _.
  - apply keeps_try; [by apply keeps_try_body |]. intros e.
    eapply keeps_bind; [apply keeps_load_list |]. intros items _.
    apply keeps_print.
  - by apply keeps_ret.
Qed.

Lemma keeps_extract_zones base (parsed_idf : value) :
  keeps base (Store.extract_zones py_float parsed_idf)
    (fun v => exists l, v = Store.VRef l /\ (length base <= l)%nat).
Proof.
  unfold Store.extract_zones.
  eapply keeps_bind; [apply keeps_alloc_ref; apply map_Forall_empty |].
  intros zones Hzones.
  assert (Hnew : new_value base zones) by (by destruct Hzones as (l & -> & Hl)).
  eapply keeps_bind; [apply keeps_alloc; by constructor |]. intros no_zones _.
  eapply keeps_bind; [apply keeps_dict_get |]. intros zone_records _.
  eapply keeps_bind.
  { apply keeps_for_in. intros zone. by apply keeps_zone_body. }
  intros _ _.
  eapply keeps_bind; [apply keeps_alloc; by constructor |]. intros no_surfaces _.
  eapply keeps_bind; [apply keeps_dict_get |]. intros surface_records _.
  eapply keeps_bind.
  { apply keeps_for_in. intros surface. by apply keeps_surface_body. }
  intros _ _. by apply keeps_ret.
Qed.

Lemma in_order_start (st : @Store.state float) : Store.in_order (Store.heap st) st.
Proof.
  split; [reflexivity |]. intros l o Hl Hlook.
  apply lookup_lt_Some in Hlook. lia.
Qed.

End StoreFacts.

(** ** The extractor on a store does what [extract_zones] does *)

Section StoreAgrees.

Context {float : Type} (py_float : string -> option float).

#[local] Existing Instance Store.M_ret.
#[local] Existing Instance Store.M_bind.

Local Abbreviation M := (@Store.M float).
Local Abbreviation value := (@Store.value float).
Local Abbreviation object := (@Store.object float).
Local Abbreviation state := (@Store.state float).

Implicit Types (st : state) (h base : list object) (v rv : value).

Lemma bind_run {A B} (c : M A) (k : A -> M B) st :
  (c ≫= k) st =
  match c st with
  | (Ok a, st') => k a st'
  | (Raise e, st') => (Raise e, st')
  end.
Proof. reflexivity. Qed.

Lemma bind_run_Ok {A B} (c : M A) (k : A -> M B) st a st' :
  c st = (Ok a, st') -> (c ≫= k) st = k a st'.
Proof. intros H. by rewrite bind_run, H. Qed.

Lemma bind_run_Raise {A B} (c : M A) (k : A -> M B) st e st' :
  c st = (Raise e, st') -> (c ≫= k) st = (Raise e, st').
Proof. intros H. by rewrite bind_run, H. Qed.

Lemma load_list_run st l items :
  Store.heap st !! l = Some (Store.OList items) ->
  Store.load_list (Store.VRef l) st = (Ok items, st).
Proof.
  intros H. unfold Store.load_list. simpl.
  rewrite bind_run. unfold mret, Store.M_ret. rewrite bind_run.
  unfold Store.load. by rewrite H.
Qed.

Lemma load_dict_run st l items :
  Store.heap st !! l = Some (Store.ODict items) ->
  Store.load_dict (Store.VRef l) st = (Ok items, st).
Proof.
  intros H. unfold Store.load_dict. simpl.
  rewrite bind_run. unfold mret, Store.M_ret. rewrite bind_run.
  unfold Store.load. by rewrite H.
Qed.

Lemma list_getitem_run st l (fields : list string) i :
  Store.heap st !! l = Some (Store.OList (Store.VStr <$> fields)) ->
  Store.list_getitem (Store.VRef l) i st =
  (Store.VStr <$> getitem fields i, st).
Proof.
  intros H. unfold Store.list_getitem.
  rewrite (bind_run_Ok _ _ _ _ _ (load_list_run _ _ _ H)).
  unfold getitem. rewrite list_lookup_fmap.
  by destruct (fields !! i).
Qed.

Lemma float_at_run st l (fields : list string) i :
  Store.heap st !! l = Some (Store.OList (Store.VStr <$> fields)) ->
  (Store.list_getitem (Store.VRef l) i ≫= Store.float_ py_float) st =
  (float_at py_float fields i, st).
Proof.
  intros H. rewrite bind_run, (list_getitem_run _ _ _ _ H).
  unfold float_at, getitem. destruct (fields !! i) as [s|]; simpl; [| reflexivity].
  unfold Store.float_, float_. simpl. rewrite bind_run. simpl.
  by destruct (py_float s).
Qed.

Lemma int_at_run st l (fields : list string) i :
  Store.heap st !! l = Some (Store.OList (Store.VStr <$> fields)) ->
  (Store.list_getitem (Store.VRef l) i ≫= Store.int_) st =
  (getitem fields i ≫= int_, st).
Proof.
  intros H. rewrite bind_run, (list_getitem_run _ _ _ _ H).
  unfold getitem. destruct (fields !! i) as [s|]; simpl; [| reflexivity].
  unfold Store.int_, int_. simpl. rewrite bind_run. simpl.
  by destruct (py_int s).
Qed.

Lemma index_of_fmap (fields : list string) x i :
  Store.index_of (float := float) (Store.VStr <$> fields) x i =
  match index_from fields x i with
  | Ok n => Some n
  | Raise _ => None
  end.
Proof.
  revert i. induction fields as [|s fields IH]; intros i; simpl; [reflexivity |].
  destruct (decide (s = x)); [reflexivity | apply IH].
Qed.

Lemma list_index_run st l (fields : list string) x :
  Store.heap st !! l = Some (Store.OList (Store.VStr <$> fields)) ->
  Store.list_index (Store.VRef l) x st = (list_index fields x, st).
Proof.
  intros H. unfold Store.list_index.
  rewrite (bind_run_Ok _ _ _ _ _ (load_list_run _ _ _ H)).
  rewrite index_of_fmap. unfold list_index.
  destruct (index_from fields x 0) as [n|e] eqn:E; [reflexivity |].
  apply index_from_Raise in E as [-> _]. reflexivity.
Qed.

(** *** The representations in a longer store *)

Lemma is_record_prefix h h' v fields :
  h `prefix_of` h' -> is_record h v fields -> is_record h' v fields.
Proof.
  intros Hp (l & -> & Hl). exists l. split; [reflexivity |].
  by eapply prefix_lookup_Some.
Qed.

Lemma is_polygon_prefix h h' v (polygon : list (float * float * float)) :
  h `prefix_of` h' -> is_polygon h v polygon -> is_polygon h' v polygon.
Proof.
  intros Hp (l & -> & Hl). exists l. split; [reflexivity |].
  by eapply prefix_lookup_Some.
Qed.

Lemma is_entry_prefix h h' v sl (zg : @ZoneGeometry float) :
  h `prefix_of` h' -> is_entry h v sl zg -> is_entry h' v sl zg.
Proof.
  intros Hp (l & pvs & -> & Hl & Hsl & Hpvs). exists l, pvs.
  split; [reflexivity |].
  split; [by eapply prefix_lookup_Some |].
  split; [by eapply prefix_lookup_Some |].
  eapply Forall2_impl; [exact Hpvs |]. intros pv p. by apply is_polygon_prefix.
Qed.

Lemma is_zones_at_prefix h h' zl sls (zones : gmap string (@ZoneGeometry float)) :
  h `prefix_of` h' -> is_zones_at h zl sls zones -> is_zones_at h' zl sls zones.
Proof.
  intros Hp (items & Hzl & Hall). exists items.
  split; [by eapply prefix_lookup_Some |].
  intros key. specialize (Hall key).
  destruct (items !! key), (sls !! key), (zones !! key); try done.
  by eapply is_entry_prefix.
Qed.

Lemma zones_inv_prefix h h' zl sls (zones : gmap string (@ZoneGeometry float)) :
  h `prefix_of` h' -> zones_inv h zl sls zones -> zones_inv h' zl sls zones.
Proof.
  intros Hp (Hz & Hinj & Hne). split; [by eapply is_zones_at_prefix | done].
Qed.

(** *** The representations after a write *)

Lemma is_polygon_insert h w o v (polygon : list (float * float * float)) :
  is_polygon h v polygon -> v <> Store.VRef w ->
  is_polygon (<[w := o]> h) v polygon.
Proof.
  intros (l & -> & Hl) Hne. exists l. split; [reflexivity |].
  rewrite list_lookup_insert_ne; [exact Hl | congruence].
Qed.

(** A place of a list of surfaces holds no polygon: a polygon is not
    empty and holds points, a list of surfaces holds references. *)
Lemma polygon_not_at_surfaces h sl pvs (surfs : list (list (float * float * float)))
    v polygon :
  h !! sl = Some (Store.OList pvs) -> Forall2 (is_polygon h) pvs surfs ->
  is_polygon h v polygon -> polygon <> [] -> v <> Store.VRef sl.
Proof.
  intros Hsl Hpvs (l & -> & Hl) Hne [= ->].
  rewrite Hsl in Hl. injection Hl as ->.
  destruct polygon as [|p polygon]; [done |].
  simpl in Hpvs.
  apply Forall2_cons_inv_l in Hpvs as (s & surfs' & (l' & Hpv & _) & _ & _).
  discriminate.
Qed.

Lemma is_entry_insert h (w : nat) o v (sl : nat) (zg : @ZoneGeometry float) :
  is_entry h v sl zg -> v <> Store.VRef w -> sl <> w ->
  (forall pvs, h !! sl = Some (Store.OList pvs) ->
     Forall (fun pv => pv <> Store.VRef w) pvs) ->
  is_entry (<[w := o]> h) v sl zg.
Proof.
  intros (l & pvs & -> & Hl & Hsl & Hpvs) Hv Hs Hp. exists l, pvs.
  split; [reflexivity |].
  split; [rewrite list_lookup_insert_ne; [exact Hl | congruence] |].
  split; [rewrite list_lookup_insert_ne; [exact Hsl | congruence] |].
  specialize (Hp pvs Hsl).
  clear Hsl. induction Hpvs as [|pv p pvs ps Hpv _ IH]; [constructor |].
  apply Forall_cons in Hp as [Hp1 Hp2].
  constructor; [by apply is_polygon_insert | by apply IH].
Qed.

(** The places that an entry uses hold lists, or a dict with a point
    under the key [origin]; the dict of the zones is neither. *)
Lemma is_entry_insert_dict h (w : nat) o items v (sl : nat) (zg : @ZoneGeometry float) :
  is_entry h v sl zg ->
  h !! w = Some (Store.ODict items) ->
  (forall p, items !! "origin" <> Some (Store.VPoint p)) ->
  is_entry (<[w := o]> h) v sl zg.
Proof.
  intros He Hw Ho. pose proof He as (l & pvs & -> & Hl & Hsl & Hpvs).
  apply is_entry_insert; [exact He | | |].
  - intros [= Heq]. rewrite Heq, Hw in Hl. injection Hl as Hl.
    apply (Ho (origin zg)). rewrite Hl. by rewrite lookup_insert_eq.
  - intros Heq. rewrite Heq, Hw in Hsl. discriminate.
  - intros pvs' Hpvs'. rewrite Hsl in Hpvs'. injection Hpvs' as <-. clear Hsl He.
    induction Hpvs as [|pv p pvs ps (pl & -> & Hpl) _ IH]; constructor; [| exact IH].
    intros [= Heq]. rewrite Heq, Hw in Hpl. discriminate.
Qed.

Lemma is_zones_at_origin h zl sls (zones : gmap string (@ZoneGeometry float)) items p :
  is_zones_at h zl sls zones -> h !! zl = Some (Store.ODict items) ->
  items !! "origin" <> Some (Store.VPoint p).
Proof.
  intros (items' & Hzl & Hall) Hitems Ho.
  rewrite Hzl in Hitems. injection Hitems as ->.
  specialize (Hall "origin"). rewrite Ho in Hall.
  destruct (sls !! "origin"), (zones !! "origin"); try done.
  by destruct Hall as (l & pvs & [=] & _).
Qed.

Lemma is_zones_at_surfaces_lt h zl sls (zones : gmap string (@ZoneGeometry float)) key sl :
  is_zones_at h zl sls zones -> sls !! key = Some sl -> (sl < length h)%nat.
Proof.
  intros (items & Hzl & Hall) Hsl. specialize (Hall key). rewrite Hsl in Hall.
  destruct (items !! key), (zones !! key); try done.
  destruct Hall as (l & pvs & _ & _ & Hl & _). by eapply lookup_lt_Some.
Qed.

Lemma zone_body_sim st zl sls (zones : gmap string (@ZoneGeometry float)) rv fields :
  is_record (Store.heap st) rv fields ->
  zones_inv (Store.heap st) zl sls zones ->
  match zone_step py_float zones fields with
  | Raise e => Store.zone_body py_float (Store.VRef zl) rv st = (Raise e, st)
  | Ok zones' =>
      exists st' sls',
        Store.zone_body py_float (Store.VRef zl) rv st = (Ok tt, st') /\
        Store.stdout st' = Store.stdout st /\
        zones_inv (Store.heap st') zl sls' zones'
  end.
Proof.
  intros (rl & -> & Hrl) (Hz & Hinj & Hne).
  unfold zone_step, Store.zone_body.
  rewrite bind_run, (list_getitem_run _ _ _ _ Hrl).
  destruct (getitem fields 1) as [name|e]; simpl; [| reflexivity].
  rewrite bind_run, (float_at_run _ _ _ _ Hrl).
  destruct (float_at py_float fields 3) as [x|e]; simpl; [| reflexivity].
  rewrite bind_run, (float_at_run _ _ _ _ Hrl).
  destruct (float_at py_float fields 4) as [y|e]; simpl; [| reflexivity].
  rewrite bind_run, (float_at_run _ _ _ _ Hrl).
  destruct (float_at py_float fields 5) as [z|e]; simpl; [| reflexivity].
  pose proof Hz as (items & Hzl & Hall).
  set (n := length (Store.heap st)).
  assert (Hndef : n = length (Store.heap st)) by reflexivity.
  set (entry := Store.ODict {[ "origin" := Store.VPoint (x, y, z);
                               "surfaces" := Store.VRef n ]} : object).
  set (h1 := (Store.heap st ++ [Store.OList []]) ++ [entry]).
  assert (Hpre : Store.heap st `prefix_of` h1).
  { unfold h1. rewrite <- app_assoc. by apply prefix_app_r. }
  assert (Hzl1 : h1 !! zl = Some (Store.ODict items)) by (by eapply prefix_lookup_Some).
  assert (Hlt : (zl < n)%nat) by (by eapply lookup_lt_Some).
  assert (Hn : h1 !! n = Some (Store.OList [])).
  { unfold h1. rewrite lookup_app_l by (rewrite length_app; simpl; lia).
    by rewrite list_lookup_middle. }
  assert (HSn : h1 !! S n = Some entry).
  { unfold h1. rewrite lookup_app_r by (rewrite length_app; simpl; lia).
    by replace (S n - length (Store.heap st ++ [Store.OList []]))%nat with 0%nat
      by (rewrite length_app; simpl; lia). }
  exists (Store.State (<[zl := Store.ODict (<[name := Store.VRef (S n)]> items)]> h1)
            (Store.stdout st)), (<[name := n]> sls).
  split.
  { rewrite bind_run. unfold Store.alloc at 1. cbn [Store.heap Store.stdout].
    rewrite bind_run. unfold Store.alloc at 1. cbn [Store.heap Store.stdout].
    fold n. rewrite length_app. cbn [length]. replace (n + 1)%nat with (S n) by lia.
    fold entry. fold h1.
    unfold Store.dict_setitem. rewrite bind_run. cbn [Store.as_str].
    unfold mret at 1, Store.M_ret at 1. rewrite bind_run. cbn [Store.as_ref].
    unfold mret at 1, Store.M_ret at 1.
    rewrite (bind_run_Ok _ _ _ _ _ (load_dict_run (Store.State h1 (Store.stdout st)) zl items Hzl1)).
    replace (length (Store.heap st) + 1)%nat with (S n) by lia.
    reflexivity. }
  split; [reflexivity |]. cbn [Store.heap].
  assert (Hlen1 : (zl < length h1)%nat) by (by eapply lookup_lt_Some).
  split; [| split].
  - exists (<[name := Store.VRef (S n)]> items).
    split; [by rewrite list_lookup_insert_eq |].
    intros key. destruct (decide (key = name)) as [->|Hkey].
    + rewrite !lookup_insert_eq. exists (S n), [].
      split; [reflexivity |].
      split; [rewrite list_lookup_insert_ne by lia; exact HSn |].
      split; [rewrite list_lookup_insert_ne by lia; exact Hn | constructor].
    + rewrite !lookup_insert_ne by done. specialize (Hall key).
      destruct (items !! key) as [v|], (sls !! key) as [sl|], (zones !! key) as [zg|];
        try done.
      eapply is_entry_insert_dict; [by eapply is_entry_prefix | exact Hzl1 |].
      intros p. by eapply is_zones_at_origin.
  - intros k1 k2 sl. rewrite !lookup_insert.
    pose proof (is_zones_at_surfaces_lt _ _ _ _ k1 sl Hz) as Hk1.
    pose proof (is_zones_at_surfaces_lt _ _ _ _ k2 sl Hz) as Hk2.
    fold n in Hk1, Hk2.
    repeat case_decide; subst; try done.
    + intros [= <-] H2. apply Hk2 in H2. lia.
    + intros H1 [= <-]. apply Hk1 in H1. lia.
    + apply Hinj.
  - intros key zg. rewrite lookup_insert. case_decide.
    + intros [= <-]. constructor.
    + apply Hne.
Qed.

Lemma insert_last h (o o' : object) : <[length h := o']> (h ++ [o]) = h ++ [o'].
Proof.
  rewrite insert_app_r_alt by lia. by replace (length h - length h)%nat with 0%nat by lia.
Qed.

Lemma list_append_run st l items v :
  Store.heap st !! l = Some (Store.OList items) ->
  Store.list_append (Store.VRef l) v st =
  (Ok tt, Store.State (<[l := Store.OList (items ++ [v])]> (Store.heap st)) (Store.stdout st)).
Proof.
  intros H. unfold Store.list_append. rewrite bind_run. cbn [Store.as_ref].
  unfold mret at 1, Store.M_ret at 1.
  by rewrite (bind_run_Ok _ _ _ _ _ (load_list_run st l items H)).
Qed.

Lemma vertex_body_run h out rl fields start i (vs : list (@point float)) :
  h !! rl = Some (Store.OList (Store.VStr <$> fields)) ->
  Store.vertex_body py_float (Store.VRef rl) start (Store.VRef (length h)) i
    (Store.State (h ++ [Store.OList (Store.VPoint <$> vs)]) out) =
  match (x ← float_at py_float fields (start + i * 3);
         y ← float_at py_float fields (start + i * 3 + 1);
         z ← float_at py_float fields (start + i * 3 + 2);
         Ok (x, y, z)) with
  | Ok p => (Ok tt, Store.State (h ++ [Store.OList (Store.VPoint <$> (vs ++ [p]))]) out)
  | Raise e => (Raise e, Store.State (h ++ [Store.OList (Store.VPoint <$> vs)]) out)
  end.
Proof.
  intros Hrl.
  set (st := Store.State (h ++ [Store.OList (Store.VPoint <$> vs)]) out).
  assert (Hrl' : Store.heap st !! rl = Some (Store.OList (Store.VStr <$> fields))).
  { simpl. rewrite lookup_app_l; [exact Hrl | by eapply lookup_lt_Some]. }
  unfold Store.vertex_body.
  rewrite bind_run, (float_at_run _ _ _ _ Hrl').
  destruct (float_at py_float fields (start + i * 3)) as [x|e]; simpl; [| reflexivity].
  rewrite bind_run, (float_at_run _ _ _ _ Hrl').
  destruct (float_at py_float fields (start + i * 3 + 1)) as [y|e]; simpl; [| reflexivity].
  rewrite bind_run, (float_at_run _ _ _ _ Hrl').
  destruct (float_at py_float fields (start + i * 3 + 2)) as [z|e]; simpl; [| reflexivity].
  rewrite (list_append_run st (length h) (Store.VPoint <$> vs));
    [| by apply list_lookup_middle].
  unfold st. cbn [Store.heap Store.stdout]. by rewrite insert_last, fmap_app.
Qed.

Lemma vertex_loop_sim h out rl fields start i count (vs : list (@point float)) :
  h !! rl = Some (Store.OList (Store.VStr <$> fields)) ->
  exists vs',
    Store.for_range count i
      (Store.vertex_body py_float (Store.VRef rl) start (Store.VRef (length h)))
      (Store.State (h ++ [Store.OList (Store.VPoint <$> vs)]) out) =
    (const tt <$> vertex_loop py_float fields start i count vs,
     Store.State (h ++ [Store.OList (Store.VPoint <$> vs')]) out) /\
    (forall r, vertex_loop py_float fields start i count vs = Ok r -> vs' = r).
Proof.
  intros Hrl. revert i vs. induction count as [|count IH]; intros i vs.
  - exists vs. split; [reflexivity |]. by intros r [= <-].
  - cbn [Store.for_range vertex_loop].
    rewrite bind_run, (vertex_body_run _ _ _ _ _ _ _ Hrl).
    destruct (float_at py_float fields (start + i * 3)) as [x|e]; simpl;
      [| exists vs; split; [reflexivity | discriminate]].
    destruct (float_at py_float fields (start + i * 3 + 1)) as [y|e]; simpl;
      [| exists vs; split; [reflexivity | discriminate]].
    destruct (float_at py_float fields (start + i * 3 + 2)) as [z|e]; simpl;
      [| exists vs; split; [reflexivity | discriminate]].
    apply IH.
Qed.

Lemma dict_getitem_run st l items key :
  Store.heap st !! l = Some (Store.ODict items) ->
  Store.dict_getitem (Store.VRef l) key st =
  (match items !! key with
   | Some v => Ok v
   | None => Raise (KeyError key)
   end, st).
Proof.
  intros H. unfold Store.dict_getitem.
  rewrite (bind_run_Ok _ _ _ _ _ (load_dict_run _ _ _ H)).
  by destruct (items !! key).
Qed.

Lemma dict_contains_run st l items key :
  Store.heap st !! l = Some (Store.ODict items) ->
  Store.dict_contains (Store.VRef l) (Store.VStr key) st =
  (Ok (bool_decide (is_Some (items !! key))), st).
Proof.
  intros H. unfold Store.dict_contains. rewrite bind_run. cbn [Store.as_str].
  unfold mret at 1, Store.M_ret at 1.
  by rewrite (bind_run_Ok _ _ _ _ _ (load_dict_run _ _ _ H)).
Qed.

Lemma Forall2_impl_Forall {A B} (P R : A -> B -> Prop) (Q : A -> Prop) xs ys :
  Forall2 P xs ys -> Forall Q xs -> (forall x y, P x y -> Q x -> R x y) ->
  Forall2 R xs ys.
Proof.
  intros HP HQ Himpl. induction HP as [|x y xs ys Hxy _ IH]; [constructor |].
  apply Forall_cons in HQ as [Hx HQ]. constructor; [by apply Himpl | by apply IH].
Qed.

(** The zones after a polygon was added to the surfaces of a zone. *)
Lemma zones_inv_append h zl sls (zones : gmap string (@ZoneGeometry float))
    name zg sl pvs polygon :
  zones_inv h zl sls zones ->
  zones !! name = Some zg -> sls !! name = Some sl ->
  h !! sl = Some (Store.OList pvs) -> polygon <> [] ->
  zones_inv
    (<[sl := Store.OList (pvs ++ [Store.VRef (length h)])]>
       (h ++ [Store.OList (Store.VPoint <$> polygon)]))
    zl sls (append_surface zones name polygon).
Proof.
  intros ((items & Hzl & Hall) & Hinj & Hne) Hzg Hsls Hsl Hpoly.
  set (h1 := h ++ [Store.OList (Store.VPoint <$> polygon)]).
  assert (Hpre : h `prefix_of` h1) by (by apply prefix_app_r).
  assert (Hlt : (sl < length h)%nat) by (by eapply lookup_lt_Some).
  assert (Hlt1 : (sl < length h1)%nat).
  { unfold h1. rewrite length_app. lia. }
  (* the entry of [name] *)
  pose proof (Hall name) as Hname. rewrite Hzg, Hsls in Hname.
  destruct (items !! name) as [v|] eqn:Hv; [| done].
  destruct Hname as (el & pvs' & -> & Hel & Hsl' & Hpvs).
  rewrite Hsl in Hsl'. injection Hsl' as <-.
  (* polygons are not at [sl] *)
  assert (Hnotsl : forall key sl' zg' pvs',
            sls !! key = Some sl' -> zones !! key = Some zg' ->
            h !! sl' = Some (Store.OList pvs') ->
            Forall2 (is_polygon h) pvs' (surfaces zg') ->
            Forall (fun pv => pv <> Store.VRef sl) pvs').
  { intros key sl' zg' pvs' Hk Hz Hl HF. specialize (Hne key zg' Hz).
    clear Hl. induction HF as [|pv p pvs'' ps Hp _ IH]; constructor.
    - apply Forall_cons in Hne as [Hp1 _].
      by eapply (polygon_not_at_surfaces h sl pvs (surfaces zg)).
    - apply IH. by apply Forall_cons in Hne as [_ ?]. }
  unfold append_surface. rewrite Hzg.
  split; [| split].
  - exists items. split.
    { rewrite list_lookup_insert_ne; [by eapply prefix_lookup_Some |].
      intros <-. rewrite Hzl in Hsl. discriminate. }
    intros key. destruct (decide (key = name)) as [->|Hkey].
    + rewrite Hv, Hsls, lookup_insert_eq.
      exists el, (pvs ++ [Store.VRef (length h)]). simpl.
      split; [reflexivity |]. split.
      { rewrite list_lookup_insert_ne; [by eapply prefix_lookup_Some |].
        intros <-. rewrite Hel in Hsl. discriminate. }
      split; [by rewrite list_lookup_insert_eq |].
      apply Forall2_app.
      * specialize (Hnotsl name sl zg pvs Hsls Hzg Hsl Hpvs).
        eapply Forall2_impl_Forall; [exact Hpvs | exact Hnotsl |].
        intros pv p Hp Hn1.
        apply is_polygon_insert; [by eapply is_polygon_prefix | exact Hn1].
      * constructor; [| constructor]. exists (length h). split; [reflexivity |].
        rewrite list_lookup_insert_ne by lia. unfold h1.
        by apply list_lookup_middle.
    + rewrite lookup_insert_ne by done. specialize (Hall key).
      destruct (items !! key) as [v'|], (sls !! key) as [sl'|] eqn:Hsl',
               (zones !! key) as [zg'|] eqn:Hzg'; try done.
      pose proof Hall as (el' & pvs' & -> & Hel' & Hsl'' & Hpvs').
      apply is_entry_insert.
      * by eapply is_entry_prefix.
      * intros [= ->]. rewrite Hel' in Hsl. discriminate.
      * intros ->. apply Hkey. by eapply Hinj.
      * intros pvs2 Hpvs2. unfold h1 in Hpvs2.
        rewrite lookup_app_l in Hpvs2 by (by eapply lookup_lt_Some).
        rewrite Hsl'' in Hpvs2. injection Hpvs2 as <-.
        by eapply (Hnotsl key sl' zg').
  - exact Hinj.
  - intros key zg'. rewrite lookup_insert. case_decide.
    + intros [= <-]. simpl. apply Forall_app. split; [by eapply Hne |].
      by constructor.
    + apply Hne.
Qed.

Lemma try_body_sim st zl sls (zones : gmap string (@ZoneGeometry float)) rl fields name zg :
  Store.heap st !! rl = Some (Store.OList (Store.VStr <$> fields)) ->
  zones_inv (Store.heap st) zl sls zones ->
  zones !! name = Some zg ->
  exists st',
    Store.try_body py_float (Store.VRef zl) (Store.VRef rl) (Store.VStr name) st =
      (const tt <$> read_vertices py_float fields, st') /\
    Store.stdout st' = Store.stdout st /\
    match read_vertices py_float fields with
    | Ok polygon => zones_inv (Store.heap st') zl sls (append_surface zones name polygon)
    | Raise _ => Store.heap st `prefix_of` Store.heap st'
    end.
Proof.
  intros Hrl Hinv Hzg.
  pose proof (read_vertices_length py_float fields) as Hlen.
  unfold Store.try_body, read_vertices in *.
  rewrite bind_run, (list_index_run _ _ _ _ Hrl).
  destruct (list_index fields "4") as [idx|e]; simpl; [| by exists st].
  cbn [mbind result_bind] in Hlen.
  rewrite bind_run, (int_at_run _ _ _ _ Hrl).
  destruct (getitem fields idx) as [field|e]; simpl; [| by exists st].
  cbn [mbind result_bind] in Hlen.
  destruct (int_ field) as [num|e]; simpl; [| by exists st].
  cbn [mbind result_bind] in Hlen.
  rewrite bind_run. unfold Store.alloc at 1.
  destruct (vertex_loop_sim (Store.heap st) (Store.stdout st) rl fields (idx + 1) 0
              (Z.to_nat num) [] Hrl) as (vs' & Hrun & Hvs').
  simpl in Hrun. rewrite bind_run, Hrun.
  destruct (vertex_loop py_float fields (idx + 1) 0 (Z.to_nat num) []) as [polygon|e];
    simpl.
  2: { eexists. split; [reflexivity |]. split; [reflexivity |]. simpl.
       by apply prefix_app_r. }
  rewrite (Hvs' polygon eq_refl). clear Hvs' Hrun vs'.
  set (h1 := Store.heap st ++ [Store.OList (Store.VPoint <$> polygon)]).
  assert (Hpre : Store.heap st `prefix_of` h1) by (by apply prefix_app_r).
  pose proof Hinv as ((items & Hzl & Hall) & Hinj & Hne).
  specialize (Hall name). rewrite Hzg in Hall.
  destruct (items !! name) as [v|] eqn:Hv, (sls !! name) as [sl|] eqn:Hsls; try done.
  destruct Hall as (el & pvs & -> & Hel & Hsl & Hpvs).
  rewrite bind_run. cbn [Store.as_str]. unfold mret at 1, Store.M_ret at 1.
  rewrite bind_run, (dict_getitem_run (Store.State h1 (Store.stdout st)) zl items);
    [| by eapply prefix_lookup_Some].
  rewrite Hv.
  rewrite bind_run, (dict_getitem_run (Store.State h1 (Store.stdout st)) el
    {[ "origin" := Store.VPoint (origin zg); "surfaces" := Store.VRef sl ]});
    [| by eapply prefix_lookup_Some].
  rewrite lookup_insert_ne by done.
  first [rewrite lookup_insert_eq | rewrite lookup_singleton_eq].
  rewrite (list_append_run (Store.State h1 (Store.stdout st)) sl pvs);
    [| by eapply prefix_lookup_Some].
  eexists. split; [reflexivity |]. split; [reflexivity |].
  cbn [Store.heap]. unfold h1.
  apply (zones_inv_append _ _ _ _ _ zg); try done.
  intros ->. specialize (Hlen [] eq_refl). discriminate.
Qed.

Lemma is_zones_at_known h zl sls (zones : gmap string (@ZoneGeometry float)) items key :
  is_zones_at h zl sls zones -> h !! zl = Some (Store.ODict items) ->
  is_Some (items !! key) <-> is_Some (zones !! key).
Proof.
  intros (items' & Hzl & Hall) Hitems. rewrite Hzl in Hitems. injection Hitems as ->.
  specialize (Hall key).
  destruct (items !! key), (sls !! key), (zones !! key); try done;
    split; intros [? ?]; eauto; discriminate.
Qed.

Lemma surface_body_sim st zl sls (zones : gmap string (@ZoneGeometry float)) rv fields :
  is_record (Store.heap st) rv fields ->
  zones_inv (Store.heap st) zl sls zones ->
  exists st',
    Store.surface_body py_float (Store.VRef zl) rv st =
      (const tt <$> (surface_step py_float zones fields).1, st') /\
    Store.stdout st' =
      Store.stdout st ++ printed_lines (surface_step py_float zones fields).2 /\
    match (surface_step py_float zones fields).1 with
    | Ok zones' => zones_inv (Store.heap st') zl sls zones'
    | Raise _ => True
    end.
Proof.
  intros (rl & -> & Hrl) Hinv.
  pose proof Hinv as ((items & Hzl & Hall) & Hinj & Hne).
  unfold Store.surface_body, surface_step.
  rewrite bind_run, (list_getitem_run _ _ _ _ Hrl).
  destruct (getitem fields 4) as [name|e]; simpl.
  2: { exists st. by rewrite app_nil_r. }
  rewrite bind_run, (dict_contains_run _ _ _ _ Hzl).
  pose proof (is_zones_at_known _ _ _ _ _ name (proj1 Hinv) Hzl) as Hknown.
  destruct (decide (is_Some (zones !! name))) as [[zg Hzg]|Hno].
  - rewrite bool_decide_eq_true_2 by (apply Hknown; eauto).
    destruct (try_body_sim st zl sls zones rl fields name zg Hrl Hinv Hzg)
      as (st' & Hrun & Hout & Hpost).
    unfold Store.try_except_ValueError. rewrite Hrun.
    destruct (read_vertices py_float fields) as [polygon|[why| | | |]]; simpl.
    + exists st'. rewrite app_nil_r. done.
    + assert (Hrl' : Store.heap st' !! rl = Some (Store.OList (Store.VStr <$> fields)))
        by (by eapply prefix_lookup_Some).
      rewrite (bind_run_Ok _ _ _ _ _ (load_list_run _ _ _ Hrl')).
      eexists. split; [reflexivity |]. simpl. split; [by rewrite Hout |].
      by eapply zones_inv_prefix.
    + exists st'. rewrite app_nil_r. done.
    + exists st'. rewrite app_nil_r. done.
    + exists st'. rewrite app_nil_r. done.
    + exists st'. rewrite app_nil_r. done.
  - rewrite bool_decide_eq_false_2 by (rewrite Hknown; exact Hno).
    exists st. simpl. rewrite app_nil_r. done.
Qed.

(** *** The two loops *)

Lemma drop_cons_inv {A} (l : list A) i x rest :
  drop i l = x :: rest -> l !! i = Some x /\ drop (S i) l = rest.
Proof.
  intros H. split.
  - rewrite <- (Nat.add_0_r i), <- lookup_drop, H. reflexivity.
  - replace (S i) with (i + 1)%nat by lia. rewrite <- drop_drop, H. reflexivity.
Qed.

Lemma in_order_after {A} base (c : M A) (Q : A -> Prop) st r st' :
  Store.keeps base c Q -> Store.in_order base st -> c st = (r, st') ->
  Store.in_order base st'.
Proof.
  intros Hk Hin Hrun. specialize (Hk st Hin). rewrite Hrun in Hk.
  destruct r; [by destruct Hk | exact Hk].
Qed.

Lemma zone_for_each_sim base rl items zl records :
  (length base <= zl)%nat ->
  base !! rl = Some (Store.OList items) ->
  forall i st sls (zones : gmap string (@ZoneGeometry float)),
    Store.in_order base st ->
    Forall2 (is_record base) (drop i items) records ->
    zones_inv (Store.heap st) zl sls zones ->
    exists st',
      Store.for_each (length records) (Store.VRef rl) i
        (Store.zone_body py_float (Store.VRef zl)) st =
        (const tt <$> zone_loop py_float records zones, st') /\
      Store.stdout st' = Store.stdout st /\
      match zone_loop py_float records zones with
      | Ok zones' =>
          Store.in_order base st' /\
          exists sls', zones_inv (Store.heap st') zl sls' zones'
      | Raise _ => True
      end.
Proof.
  intros Hzl Hrl. induction records as [|fields records IH];
    intros i st sls zones Hin Hrecs Hinv.
  - exists st. simpl. eauto.
  - apply Forall2_cons_inv_r in Hrecs as (v & rest & Hv & Hrest & Hdrop).
    apply drop_cons_inv in Hdrop as [Hi Hdrop]. subst rest.
    assert (Hrl' : Store.heap st !! rl = Some (Store.OList items))
      by (eapply prefix_lookup_Some; [exact Hrl | apply Hin]).
    cbn [length Store.for_each zone_loop].
    rewrite (bind_run_Ok _ _ _ _ _ (load_list_run _ _ _ Hrl')), Hi, bind_run.
    assert (Hv' : is_record (Store.heap st) v fields)
      by (eapply is_record_prefix; [apply Hin | exact Hv]).
    pose proof (zone_body_sim st zl sls zones v fields Hv' Hinv) as Hbody.
    destruct (zone_step py_float zones fields) as [zones1|e] eqn:Hstep.
    + destruct Hbody as (st1 & sls1 & Hrun & Hout & Hinv1). rewrite Hrun.
      assert (Hin1 : Store.in_order base st1).
      { eapply in_order_after; [| exact Hin | exact Hrun].
        by apply (keeps_zone_body py_float). }
      destruct (IH (S i) st1 sls1 zones1 Hin1 Hrest Hinv1) as (st' & Hrun' & Hout' & Hpost).
      exists st'. simpl. split; [exact Hrun' |]. split; [congruence | exact Hpost].
    + rewrite Hbody. exists st. simpl. done.
Qed.

Lemma surface_for_each_sim base rl items zl sls records :
  (length base <= zl)%nat ->
  base !! rl = Some (Store.OList items) ->
  forall i st (zones : gmap string (@ZoneGeometry float)) printed,
    Store.in_order base st ->
    Forall2 (is_record base) (drop i items) records ->
    zones_inv (Store.heap st) zl sls zones ->
    exists st',
      Store.for_each (length records) (Store.VRef rl) i
        (Store.surface_body py_float (Store.VRef zl)) st =
        (const tt <$> (surface_loop py_float records zones printed).1, st') /\
      (forall pre, Store.stdout st = pre ++ printed_lines printed ->
         Store.stdout st' =
         pre ++ printed_lines (surface_loop py_float records zones printed).2) /\
      match (surface_loop py_float records zones printed).1 with
      | Ok zones' => zones_inv (Store.heap st') zl sls zones'
      | Raise _ => True
      end.
Proof.
  intros Hzl Hrl. induction records as [|fields records IH];
    intros i st zones printed Hin Hrecs Hinv.
  - exists st. simpl. eauto.
  - apply Forall2_cons_inv_r in Hrecs as (v & rest & Hv & Hrest & Hdrop).
    apply drop_cons_inv in Hdrop as [Hi Hdrop]. subst rest.
    assert (Hrl' : Store.heap st !! rl = Some (Store.OList items))
      by (eapply prefix_lookup_Some; [exact Hrl | apply Hin]).
    cbn [length Store.for_each surface_loop].
    rewrite (bind_run_Ok _ _ _ _ _ (load_list_run _ _ _ Hrl')), Hi, bind_run.
    assert (Hv' : is_record (Store.heap st) v fields)
      by (eapply is_record_prefix; [apply Hin | exact Hv]).
    destruct (surface_body_sim st zl sls zones v fields Hv' Hinv)
      as (st1 & Hrun & Hout & Hinv1).
    rewrite Hrun.
    assert (Hin1 : Store.in_order base st1).
    { eapply in_order_after; [| exact Hin | exact Hrun].
      by apply (keeps_surface_body py_float). }
    destruct (surface_step py_float zones fields) as [[zones1|e] out]; simpl in *.
    + destruct (IH (S i) st1 zones1 (printed ++ out) Hin1 Hrest Hinv1)
        as (st' & Hrun' & Hout' & Hpost).
      exists st'. split; [exact Hrun' |]. split; [| exact Hpost].
      intros pre Hpre. apply Hout'. rewrite Hout, Hpre.
      unfold printed_lines. by rewrite fmap_app, app_assoc.
    + exists st1. split; [reflexivity |]. split; [| exact I].
      intros pre Hpre. rewrite Hout, Hpre.
      unfold printed_lines. by rewrite fmap_app, app_assoc.
Qed.

Lemma new_object_nil base : Store.new_object base (Store.OList []).
Proof. constructor. Qed.

Lemma new_object_empty base : Store.new_object base (Store.ODict ∅).
Proof. apply map_Forall_empty. Qed.

(** The list that [d.get(key, [])] yields: the list of the mapping, or
    the new empty list. *)
Lemma dict_get_sim base st parsed_idf d key l :
  is_mapping base parsed_idf d ->
  base `prefix_of` Store.heap st ->
  Store.heap st !! l = Some (Store.OList []) ->
  exists rv,
    Store.dict_get parsed_idf key (Store.VRef l) st = (Ok rv, st) /\
    (is_records base rv (get_records d key) \/
     get_records d key = [] /\ rv = Store.VRef l).
Proof.
  intros (pl & pitems & -> & Hpl & Hkeys) Hpre Hl.
  unfold Store.dict_get.
  rewrite (bind_run_Ok _ _ _ _ _ (load_dict_run st pl pitems
             (prefix_lookup_Some _ _ _ _ Hpl Hpre))).
  specialize (Hkeys key). unfold get_records.
  destruct Hkeys as [rv records Hrv|]; simpl; eauto.
Qed.

Lemma zone_for_in_sim base zl st sls (zones : gmap string (@ZoneGeometry float))
    rv records l :
  (length base <= zl)%nat ->
  Store.in_order base st ->
  zones_inv (Store.heap st) zl sls zones ->
  Store.heap st !! l = Some (Store.OList []) ->
  is_records base rv records \/ records = [] /\ rv = Store.VRef l ->
  exists st',
    Store.for_in rv (Store.zone_body py_float (Store.VRef zl)) st =
      (const tt <$> zone_loop py_float records zones, st') /\
    Store.stdout st' = Store.stdout st /\
    match zone_loop py_float records zones with
    | Ok zones' =>
        Store.in_order base st' /\
        exists sls', zones_inv (Store.heap st') zl sls' zones'
    | Raise _ => True
    end.
Proof.
  intros Hzl Hin Hinv Hl [(rl & items & -> & Hrl & Hrecs)|[-> ->]].
  - unfold Store.for_in.
    rewrite (bind_run_Ok _ _ _ _ _ (load_list_run st rl items
               (prefix_lookup_Some _ _ _ _ Hrl (proj1 Hin)))).
    rewrite (Forall2_length _ _ _ Hrecs).
    by eapply zone_for_each_sim.
  - unfold Store.for_in. rewrite (bind_run_Ok _ _ _ _ _ (load_list_run st l [] Hl)).
    exists st. simpl. eauto.
Qed.

Lemma surface_for_in_sim base zl st sls (zones : gmap string (@ZoneGeometry float))
    rv records l :
  (length base <= zl)%nat ->
  Store.in_order base st ->
  zones_inv (Store.heap st) zl sls zones ->
  Store.heap st !! l = Some (Store.OList []) ->
  is_records base rv records \/ records = [] /\ rv = Store.VRef l ->
  exists st',
    Store.for_in rv (Store.surface_body py_float (Store.VRef zl)) st =
      (const tt <$> (surface_loop py_float records zones []).1, st') /\
    Store.stdout st' =
      Store.stdout st ++ printed_lines (surface_loop py_float records zones []).2 /\
    match (surface_loop py_float records zones []).1 with
    | Ok zones' => zones_inv (Store.heap st') zl sls zones'
    | Raise _ => True
    end.
Proof.
  intros Hzl Hin Hinv Hl [(rl & items & -> & Hrl & Hrecs)|[-> ->]].
  - unfold Store.for_in.
    rewrite (bind_run_Ok _ _ _ _ _ (load_list_run st rl items
               (prefix_lookup_Some _ _ _ _ Hrl (proj1 Hin)))).
    rewrite (Forall2_length _ _ _ Hrecs).
    destruct (surface_for_each_sim base rl items zl sls records Hzl Hrl 0 st zones []
                Hin Hrecs Hinv) as (st' & Hrun & Hout & Hpost).
    exists st'. split; [exact Hrun |]. split; [| exact Hpost].
    apply Hout. simpl. by rewrite app_nil_r.
  - unfold Store.for_in. rewrite (bind_run_Ok _ _ _ _ _ (load_list_run st l [] Hl)).
    exists st. simpl. rewrite app_nil_r. eauto.
Qed.

(** The run of the extractor on a store that holds the mapping [d],
    beside the run of [extract_zones] on [d]: the invariant of the second
    loop holds for the dict that is returned. *)
Lemma store_extract_zones_sim parsed_idf d st :
  is_mapping (Store.heap st) parsed_idf d ->
  let '(r, st') := Store.extract_zones py_float parsed_idf st in
  let '(r0, printed) := extract_zones py_float d in
  Store.stdout st' = Store.stdout st ++ printed_lines printed /\
  match r0 with
  | Ok zones =>
      exists zl sls, r = Ok (Store.VRef zl) /\ zones_inv (Store.heap st') zl sls zones
  | Raise e => r = Raise e
  end.
Proof.
  intros Hmap. set (base := Store.heap st).
  set (zl := length base).
  set (st2 := Store.State ((base ++ [Store.ODict ∅]) ++ [Store.OList []]) (Store.stdout st)).
  assert (Hin2 : Store.in_order base st2).
  { pose proof (in_order_start st) as Hin.
    apply (in_order_after base (Store.alloc (Store.OList [])) _
             (Store.State (base ++ [Store.ODict ∅]) (Store.stdout st))
             (Ok (Store.VRef (length (base ++ [Store.ODict ∅])))) st2
             (keeps_alloc base _ (new_object_nil base))); [| reflexivity].
    apply (in_order_after base (Store.alloc (Store.ODict ∅)) _ st
             (Ok (Store.VRef (length base))) _
             (keeps_alloc base _ (new_object_empty base)) Hin). reflexivity. }
  assert (Hzl2 : Store.heap st2 !! zl = Some (Store.ODict ∅)).
  { simpl. rewrite lookup_app_l by (rewrite length_app; simpl; lia).
    by apply list_lookup_middle. }
  assert (Hl2 : Store.heap st2 !! S zl = Some (Store.OList [])).
  { simpl. apply list_lookup_middle. rewrite length_app. simpl. lia. }
  assert (Hinv2 : zones_inv (Store.heap st2) zl ∅ (∅ : gmap string (@ZoneGeometry float))).
  { split; [| split].
    - exists ∅. split; [exact Hzl2 |]. intros key. by rewrite !lookup_empty.
    - intros k1 k2 sl. by rewrite lookup_empty.
    - intros key zg. by rewrite lookup_empty. }
  destruct (dict_get_sim base st2 parsed_idf d "ZONE" (S zl) Hmap (proj1 Hin2) Hl2)
    as (zone_records & Hget & Hzrecs).
  destruct (zone_for_in_sim base zl st2 ∅ ∅ zone_records (get_records d "ZONE") (S zl)
              (Nat.le_refl _) Hin2 Hinv2 Hl2 Hzrecs) as (st3 & Hloop1 & Hout3 & Hpost3).
  assert (Hrun1 : Store.extract_zones py_float parsed_idf st =
            match zone_loop py_float (get_records d "ZONE") ∅ with
            | Ok _ =>
                (no_surfaces ← Store.alloc (Store.OList []);
                 surface_records ← Store.dict_get parsed_idf "BUILDINGSURFACE:DETAILED" no_surfaces;
                 Store.for_in surface_records (Store.surface_body py_float (Store.VRef zl));;
                 mret (Store.VRef zl)) st3
            | Raise e => (Raise e, st3)
            end).
  { unfold Store.extract_zones. rewrite bind_run. unfold Store.alloc at 1.
    rewrite bind_run. unfold Store.alloc at 1. cbn [Store.heap Store.stdout].
    fold base. fold zl. rewrite length_app. cbn [length].
    replace (length base + 1)%nat with (S zl) by (unfold zl; lia). fold st2.
    rewrite (bind_run_Ok _ _ _ _ _ Hget). rewrite bind_run, Hloop1.
    by destruct (zone_loop py_float (get_records d "ZONE") ∅). }
  unfold extract_zones.
  destruct (zone_loop py_float (get_records d "ZONE") ∅) as [zones1|e].
  2: { rewrite Hrun1. simpl. rewrite app_nil_r. done. }
  destruct Hpost3 as (Hin3 & sls & Hinv3).
  set (st4 := Store.State (Store.heap st3 ++ [Store.OList []]) (Store.stdout st3)).
  assert (Hin4 : Store.in_order base st4).
  { apply (in_order_after base (Store.alloc (Store.OList [])) _ st3
             (Ok (Store.VRef (length (Store.heap st3)))) st4
             (keeps_alloc base _ (new_object_nil base)) Hin3). reflexivity. }
  assert (Hl4 : Store.heap st4 !! length (Store.heap st3) = Some (Store.OList []))
    by (by apply list_lookup_middle).
  assert (Hinv4 : zones_inv (Store.heap st4) zl sls zones1).
  { eapply zones_inv_prefix; [| exact Hinv3]. by apply prefix_app_r. }
  destruct (dict_get_sim base st4 parsed_idf d "BUILDINGSURFACE:DETAILED"
              (length (Store.heap st3)) Hmap (proj1 Hin4) Hl4)
    as (surface_records & Hget4 & Hsrecs).
  destruct (surface_for_in_sim base zl st4 sls zones1 surface_records
              (get_records d "BUILDINGSURFACE:DETAILED") (length (Store.heap st3))
              (Nat.le_refl _) Hin4 Hinv4 Hl4 Hsrecs) as (st5 & Hloop2 & Hout5 & Hpost5).
  assert (Hrun2 : Store.extract_zones py_float parsed_idf st =
            (const (Store.VRef zl) <$>
               (surface_loop py_float (get_records d "BUILDINGSURFACE:DETAILED") zones1 []).1,
             st5)).
  { rewrite Hrun1. rewrite bind_run. unfold Store.alloc at 1. fold st4.
    rewrite (bind_run_Ok _ _ _ _ _ Hget4). rewrite bind_run, Hloop2.
    by destruct (surface_loop py_float (get_records d "BUILDINGSURFACE:DETAILED") zones1 [])
      as [[zones|e] printed]. }
  rewrite Hrun2.
  destruct (surface_loop py_float (get_records d "BUILDINGSURFACE:DETAILED") zones1 [])
    as [[zones|e] printed]; simpl in *.
  - split; [by rewrite Hout5, Hout3 |].
    exists zl, sls. split; [reflexivity | apply Hpost5].
  - split; [by rewrite Hout5, Hout3 | reflexivity].
Qed.

(** X13.  On a store that holds the mapping [d], the extractor on the
    store returns a dict that holds the zones that [extract_zones]
    returns for [d], or raises the same exception, and prints the same
    reports. *)
Theorem store_extract_zones_agrees parsed_idf d st :
  is_mapping (Store.heap st) parsed_idf d ->
  let '(r, st') := Store.extract_zones py_float parsed_idf st in
  let '(r0, printed) := extract_zones py_float d in
  Store.stdout st' = Store.stdout st ++ printed_lines printed /\
  match r0 with
  | Ok zones => exists v, r = Ok v /\ is_zones (Store.heap st') v zones
  | Raise e => r = Raise e
  end.
Proof.
  intros Hmap. pose proof (store_extract_zones_sim parsed_idf d st Hmap) as H.
  destruct (Store.extract_zones py_float parsed_idf st) as [r st'].
  destruct (extract_zones py_float d) as [[zones|e] printed]; [| exact H].
  destruct H as [Hout (zl & sls & -> & Hinv)]. split; [exact Hout |].
  exists (Store.VRef zl). split; [reflexivity |].
  exists zl, sls. split; [reflexivity | apply Hinv].
Qed.

(** X14.  The zones of the dict that is returned share no list: the
    lists under the key [surfaces] of two zones are different objects, so
    that appending to the surfaces of one zone shows in no other zone. *)
Theorem store_zones_do_not_share parsed_idf d st zones printed :
  is_mapping (Store.heap st) parsed_idf d ->
  extract_zones py_float d = (Ok zones, printed) ->
  exists zl sls,
    (Store.extract_zones py_float parsed_idf st).1 = Ok (Store.VRef zl) /\
    is_zones_at (Store.heap (Store.extract_zones py_float parsed_idf st).2) zl sls zones /\
    forall k1 k2 sl, sls !! k1 = Some sl -> sls !! k2 = Some sl -> k1 = k2.
Proof.
  intros Hmap Hex. pose proof (store_extract_zones_sim parsed_idf d st Hmap) as H.
  destruct (Store.extract_zones py_float parsed_idf st) as [r st'].
  rewrite Hex in H. destruct H as [_ (zl & sls & -> & Hat & Hshare & _)].
  exists zl, sls. split; [reflexivity |]. split; [exact Hat | exact Hshare].
Qed.

Lemma is_records_prefix h h' v records :
  h `prefix_of` h' -> is_records h v records -> is_records h' v records.
Proof.
  intros Hp (l & items & -> & Hl & Hitems). exists l, items.
  split; [reflexivity |]. split; [by eapply prefix_lookup_Some |].
  eapply Forall2_impl; [exact Hitems |]. intros x y. by apply is_record_prefix.
Qed.

Lemma is_mapping_prefix h h' v d :
  h `prefix_of` h' -> is_mapping h v d -> is_mapping h' v d.
Proof.
  intros Hp (l & items & -> & Hl & Hkeys). exists l, items.
  split; [reflexivity |]. split; [by eapply prefix_lookup_Some |].
  intros key. destruct (Hkeys key) as [rv records Hrv|]; constructor.
  by eapply is_records_prefix.
Qed.

(** C10.  [extract_zones] changes no object of its caller: whatever the
    store holds when it is called is in the same place and has the same
    content when it returns or raises.  So a mapping that the store holds
    (the dict, the list under each key, and every record) is held
    unchanged afterwards, and the dict that is returned is a new object. *)
Theorem extract_zones_leaves_input (parsed_idf : value) (st : state) :
  let '(r, st') := Store.extract_zones py_float parsed_idf st in
  (forall (l : Store.loc) (o : object),
     Store.heap st !! l = Some o -> Store.heap st' !! l = Some o) /\
  (forall d, is_mapping (Store.heap st) parsed_idf d ->
             is_mapping (Store.heap st') parsed_idf d) /\
  match r with
  | Ok zones => exists l, zones = Store.VRef l /\ (length (Store.heap st) <= l)%nat
  | Raise _ => True
  end.
Proof.
  pose proof (keeps_extract_zones py_float (Store.heap st) parsed_idf st
                (in_order_start st)) as H.
  destruct (Store.extract_zones py_float parsed_idf st) as [r st'].
  assert (Hpre : Store.heap st `prefix_of` Store.heap st').
  { destruct r; [apply H | apply H]. }
  split; [| split].
  - intros l o Hl. by eapply prefix_lookup_Some.
  - intros d. by apply is_mapping_prefix.
  - destruct r; [apply H | exact I].
Qed.

End StoreAgrees.

(** ** The line counter *)

(** What the two token functions do to the lexer's line counter. *)
Lemma t_COMMENT_keeps_counter t lexer_lineno :
  t_COMMENT t lexer_lineno = Ok (None, lexer_lineno).
Proof. reflexivity. Qed.

Lemma t_newline_adds_length t lexer_lineno :
  t_newline t lexer_lineno =
  Ok (None, (lexer_lineno + Z.of_nat (String.length (tok_value t)))%Z).
Proof. reflexivity. Qed.

(** C5.  The line counter is not one plus the number of line feeds
    consumed.  In each of the first three texts a stray comma makes
    [parse] raise, and the line it reports is not the line of the comma:
    a blank before a line feed and a carriage return are counted as
    lines, and the line feed inside a comment is not counted.  Only for
    line feeds alone is the count right. *)
Theorem line_counter_drifts :
  (parse blank_line_text = Raise (SyntaxError SyntaxErrorInInput 4) /\
   String.get 5 blank_line_text = Some ","%char /\
   line_at blank_line_text 5 = 3%Z) /\
  (parse crlf_text = Raise (SyntaxError SyntaxErrorInInput 3) /\
   String.get 4 crlf_text = Some ","%char /\
   line_at crlf_text 4 = 2%Z) /\
  (parse comment_text = Raise (SyntaxError SyntaxErrorInInput 2) /\
   String.get 10 comment_text = Some ","%char /\
   line_at comment_text 10 = 3%Z) /\
  (parse plain_newlines_text = Raise (SyntaxError SyntaxErrorInInput 3) /\
   String.get 4 plain_newlines_text = Some ","%char /\
   line_at plain_newlines_text 4 = 3%Z).
Proof. repeat split; vm_compute; reflexivity. Qed.

(** ** The matcher *)

Lemma re_match_Eps {A} fuel s (k : string -> option A) :
  re_match fuel Eps s k = k s.
Proof. by destruct fuel. Qed.

Lemma re_match_Class {A} fuel p s (k : string -> option A) :
  re_match fuel (Class p) s k =
  match s with
  | String c s' => if p c then k s' else None
  | EmptyString => None
  end.
Proof. by destruct fuel. Qed.

Lemma re_match_Cat {A} fuel r1 r2 s (k : string -> option A) :
  re_match fuel (Cat r1 r2) s k =
  re_match fuel r1 s (fun s' => re_match fuel r2 s' k).
Proof. by destruct fuel. Qed.

Lemma re_match_Alt {A} fuel r1 r2 s (k : string -> option A) :
  re_match fuel (Alt r1 r2) s k =
  match re_match fuel r1 s k with
  | Some a => Some a
  | None => re_match fuel r2 s k
  end.
Proof. by destruct fuel. Qed.

Lemma re_match_Star {A} fuel r s (k : string -> option A) :
  re_match (S fuel) (Star r) s k =
  match re_match (S fuel) r s (fun s' =>
          if (String.length s' <? String.length s)%nat
          then re_match fuel (Star r) s' k else None) with
  | Some a => Some a
  | None => k s
  end.
Proof. reflexivity. Qed.

(** The fuel of [regex_match] is enough: more fuel gives the same
    match. *)
Lemma re_match_fuel {A} fuel1 fuel2 r s (k1 k2 : string -> option A) :
  (String.length s < fuel1)%nat -> (String.length s < fuel2)%nat ->
  (forall s', (String.length s' <= String.length s)%nat -> k1 s' = k2 s') ->
  re_match fuel1 r s k1 = re_match fuel2 r s k2.
Proof.
  revert fuel2 r s k1 k2.
  induction fuel1 as [|fuel1 IHfuel]; intros fuel2 r s k1 k2 H1 H2 Hk; [lia |].
  destruct fuel2 as [|fuel2]; [lia |].
  revert s k1 k2 H1 H2 Hk.
  induction r as [|p|r1 IH1 r2 IH2|r1 IH1 r2 IH2|r IH]; intros s k1 k2 H1 H2 Hk.
  - rewrite !re_match_Eps. by apply Hk.
  - rewrite !re_match_Class. destruct s as [|c s']; [reflexivity |].
    destruct (p c); [| reflexivity]. apply Hk. simpl. lia.
  - rewrite !re_match_Cat. apply IH1; [lia | lia |].
    intros s' Hs'. apply IH2; [lia | lia |].
    intros s'' Hs''. apply Hk. lia.
  - rewrite !re_match_Alt. rewrite (IH1 s k1 k2 H1 H2 Hk).
    destruct (re_match (S fuel2) r1 s k2); [reflexivity |]. by apply IH2.
  - rewrite !re_match_Star.
    rewrite (IH s _ (fun s' =>
               if (String.length s' <? String.length s)%nat
               then re_match fuel2 (Star r) s' k2 else None) H1 H2).
    + destruct (re_match (S fuel2) r s _); [reflexivity |]. by apply Hk.
    + intros s' Hs'. destruct (String.length s' <? String.length s)%nat eqn:E;
        [| reflexivity].
      apply Nat.ltb_lt in E. apply IHfuel; [lia | lia |].
      intros s'' Hs''. apply Hk. lia.
Qed.

Lemma append_String c (s1 s2 : string) : String c s1 +:+ s2 = String c (s1 +:+ s2).
Proof. reflexivity. Qed.

Lemma length_append_string (s1 s2 : string) :
  String.length (s1 +:+ s2) = (String.length s1 + String.length s2)%nat.
Proof.
  induction s1 as [|c s1 IH]; [reflexivity |].
  rewrite append_String. simpl. by rewrite IH.
Qed.

Lemma append_assoc_string (s1 s2 s3 : string) :
  (s1 +:+ s2) +:+ s3 = s1 +:+ (s2 +:+ s3).
Proof.
  induction s1 as [|c s1 IH]; [reflexivity |].
  rewrite !append_String. by rewrite IH.
Qed.

Lemma take_string_append (s1 s2 : string) :
  take_string (String.length s1) (s1 +:+ s2) = s1.
Proof.
  induction s1 as [|c s1 IH]; [by destruct s2 |].
  rewrite append_String. simpl. by rewrite IH.
Qed.

(** A match hands a rest of the text to the continuation; the rest is
    shorter when the pattern does not match the empty text. *)
Lemma re_match_Some {A} fuel r s (k : string -> option A) a :
  re_match fuel r s k = Some a ->
  exists text rest, s = text +:+ rest /\ k rest = Some a /\
    (nullable r = false -> text <> "").
Proof.
  revert r s k a.
  induction fuel as [fuel IHfuel] using lt_wf_ind. intros r.
  induction r as [|p|r1 IH1 r2 IH2|r1 IH1 r2 IH2|r IH]; intros s k a.
  - rewrite re_match_Eps. intros H. exists "", s. split; [reflexivity |]. split; [exact H | done].
  - rewrite re_match_Class. destruct s as [|c s']; [done |].
    destruct (p c); [| done]. intros H. exists (String c ""), s'.
    split; [reflexivity |]. split; [exact H | done].
  - rewrite re_match_Cat. intros H.
    apply IH1 in H as (t1 & s1 & -> & H & Hn1).
    apply IH2 in H as (t2 & s2 & -> & H & Hn2).
    exists (t1 +:+ t2), s2. split; [by rewrite append_assoc_string |].
    split; [exact H |]. simpl.
    intros Hn. apply andb_false_iff in Hn as [Hn|Hn].
    + apply Hn1 in Hn. by destruct t1.
    + apply Hn2 in Hn. destruct t1; [exact Hn | done].
  - rewrite re_match_Alt.
    destruct (re_match fuel r1 s k) as [a'|] eqn:E.
    + intros Ha. assert (a' = a) as -> by congruence.
      apply IH1 in E as (t1 & s1 & -> & H & Hn1).
      exists t1, s1. split; [reflexivity |]. split; [exact H |]. simpl.
      intros Hn. apply orb_false_iff in Hn as [Hn _]. auto.
    + intros H. apply IH2 in H as (t1 & s1 & -> & H & Hn1).
      exists t1, s1. split; [reflexivity |]. split; [exact H |]. simpl.
      intros Hn. apply orb_false_iff in Hn as [_ Hn]. auto.
  - destruct fuel as [|fuel]; [discriminate |].
    rewrite re_match_Star.
    destruct (re_match (S fuel) r s _) as [a'|] eqn:E.
    + intros Ha. assert (a' = a) as -> by congruence.
      apply IH in E as (t1 & s1 & -> & H & _).
      destruct (String.length s1 <? String.length (t1 +:+ s1))%nat; [| done].
      apply IHfuel in H as (t2 & s2 & -> & H & _); [| lia].
      exists (t1 +:+ t2), s2. split; [by rewrite append_assoc_string |].
      split; [exact H | done].
    + intros H. exists "", s. split; [reflexivity |]. split; [exact H | done].
Qed.

(** [regex_match] splits the text into the match and the rest. *)
Lemma regex_match_Some r s text rest :
  regex_match r s = Some (text, rest) ->
  s = text +:+ rest /\ (nullable r = false -> text <> "").
Proof.
  unfold regex_match.
  destruct (re_match (S (String.length s)) r s Some) as [rest'|] eqn:E; [| done].
  apply re_match_Some in E as (t & s' & -> & [= ->] & Hn).
  rewrite length_append_string.
  replace (String.length t + String.length rest' - String.length rest')%nat
    with (String.length t) by lia.
  rewrite take_string_append. by intros [= <- <-].
Qed.

Lemma first_match_Some rules s rule text :
  first_match rules s = Some (rule, text) ->
  rule ∈ rules /\ exists rest, regex_match (rule_re rule) s = Some (text, rest).
Proof.
  induction rules as [|r rules IH]; simpl; [done |].
  destruct (regex_match (rule_re r) s) as [[t rest]|] eqn:E.
  - intros [= <- <-]. split; [by left | eauto].
  - intros H. apply IH in H as [Hin Hm]. split; [by right | exact Hm].
Qed.

Lemma first_match_None rules s rule :
  first_match rules s = None -> rule ∈ rules -> regex_match (rule_re rule) s = None.
Proof.
  induction rules as [|r rules IH]; simpl; [by intros _ ?%elem_of_nil |].
  destruct (regex_match (rule_re r) s) as [[t rest]|] eqn:E; [done |].
  intros H [->|Hin]%elem_of_cons; [exact E | by apply IH].
Qed.

(** No rule of the lexer matches the empty text: after a match the lexer
    is at least one character further, and no further than the end. *)
Lemma lex_rules_advance s rule text :
  first_match lex_rules s = Some (rule, text) ->
  (0 < String.length text <= String.length s)%nat.
Proof.
  intros H. apply first_match_Some in H as [Hin (rest & Hm)].
  apply regex_match_Some in Hm as [-> Hne].
  rewrite length_append_string.
  assert (text <> "") as Htext.
  { apply Hne. unfold lex_rules in Hin.
    repeat (apply elem_of_cons in Hin as [->|Hin]; [reflexivity |]).
    by apply elem_of_nil in Hin. }
  destruct text; [done |]. simpl. lia.
Qed.

(** *** The lexer never calls [t_error]

    Every character starts a match of some rule: an exclamation mark a
    comment, a line feed a newline run, a comma or a semicolon a
    separator, and any other character a value. *)

Lemma re_match_Star_total {A} fuel r s (k : string -> option A) :
  is_Some (k s) -> is_Some (re_match (S fuel) (Star r) s k).
Proof.
  intros Hk. rewrite re_match_Star.
  by destruct (re_match (S fuel) r s _).
Qed.

Lemma blanks_total {A} fuel s (k : string -> option A) :
  is_Some (k s) -> is_Some (re_match (S fuel) blanks s k).
Proof. apply re_match_Star_total. Qed.

Lemma regex_match_is_Some r s :
  is_Some (re_match (S (String.length s)) r s Some) -> is_Some (regex_match r s).
Proof. unfold regex_match. intros [rest ->]. eauto. Qed.

Lemma t_COMMENT_matches s : is_Some (regex_match t_COMMENT_re (String "!" s)).
Proof.
  apply regex_match_is_Some. unfold t_COMMENT_re.
  rewrite re_match_Cat. apply re_match_Star_total.
  rewrite re_match_Cat, re_match_Class.
  change (one_of ["!"%char] "!") with true. cbv iota.
  by apply re_match_Star_total.
Qed.

Lemma t_newline_matches s : is_Some (regex_match t_newline_re (String LF s)).
Proof.
  apply regex_match_is_Some. unfold t_newline_re, Plus, Opt.
  rewrite re_match_Cat. apply blanks_total.
  rewrite !re_match_Cat, re_match_Alt, re_match_Class.
  change (one_of [CR] LF) with false. cbv iota.
  rewrite re_match_Eps, re_match_Class.
  change (one_of [LF] LF) with true. cbv iota.
  by apply re_match_Star_total.
Qed.

Lemma t_COMMA_matches s : is_Some (regex_match t_COMMA (String "," s)).
Proof.
  apply regex_match_is_Some. unfold t_COMMA.
  rewrite re_match_Cat. apply blanks_total.
  rewrite re_match_Cat, re_match_Class.
  change (one_of [","%char] ",") with true. cbv iota.
  by apply blanks_total.
Qed.

Lemma t_SEMICOLON_matches s : is_Some (regex_match t_SEMICOLON (String ";" s)).
Proof.
  apply regex_match_is_Some. unfold t_SEMICOLON.
  rewrite re_match_Cat. apply blanks_total.
  rewrite re_match_Cat, re_match_Class.
  change (one_of [";"%char] ";") with true. cbv iota.
  by apply blanks_total.
Qed.

Lemma t_VALUE_matches c s :
  c <> "!"%char -> c <> ","%char -> c <> ";"%char -> c <> LF ->
  is_Some (regex_match t_VALUE_re (String c s)).
Proof.
  intros H1 H2 H3 H4.
  apply regex_match_is_Some. unfold t_VALUE_re, Plus.
  rewrite re_match_Cat. apply blanks_total.
  rewrite !re_match_Cat, re_match_Alt, re_match_Class.
  assert (none_of ["!"%char; ","%char; ";"%char; LF] c = true) as ->.
  { unfold none_of, one_of. apply negb_true_iff, bool_decide_eq_false_2.
    rewrite !elem_of_cons, elem_of_nil. tauto. }
  assert (Hrest : is_Some
            (re_match (S (String.length (String c s)))
               (Star (Alt (Class (none_of ["!"%char; ","%char; ";"%char; LF]))
                          (Class (one_of ["*"%char]))))
               s (fun s' => re_match (S (String.length (String c s))) blanks s' Some))).
  { apply re_match_Star_total. by apply blanks_total. }
  by destruct Hrest as [rest ->].
Qed.

Lemma first_match_total c s : is_Some (first_match lex_rules (String c s)).
Proof.
  destruct (first_match lex_rules (String c s)) as [m|] eqn:E; [eauto |].
  assert (Hnone : forall rule, rule ∈ lex_rules ->
            regex_match (rule_re rule) (String c s) = None)
    by (intros rule; by apply first_match_None).
  assert (Habsurd : forall rule, rule ∈ lex_rules ->
            is_Some (regex_match (rule_re rule) (String c s)) -> False).
  { intros rule Hin [m Hm]. rewrite (Hnone rule Hin) in Hm. discriminate. }
  exfalso. unfold lex_rules in Habsurd.
  destruct (decide (c = "!"%char)) as [->|H1].
  { apply (Habsurd (Rule COMMENT t_COMMENT_re (Some t_COMMENT)));
      [set_solver | apply t_COMMENT_matches]. }
  destruct (decide (c = LF)) as [->|H2].
  { apply (Habsurd (Rule NEWLINE t_newline_re (Some t_newline)));
      [set_solver | apply t_newline_matches]. }
  destruct (decide (c = ","%char)) as [->|H3].
  { apply (Habsurd (Rule COMMA t_COMMA None));
      [set_solver | apply t_COMMA_matches]. }
  destruct (decide (c = ";"%char)) as [->|H4].
  { apply (Habsurd (Rule SEMICOLON t_SEMICOLON None));
      [set_solver | apply t_SEMICOLON_matches]. }
  apply (Habsurd (Rule VALUE t_VALUE_re (Some t_VALUE)));
    [set_solver | by apply t_VALUE_matches].
Qed.

Lemma lex_one_never_fails c s lexer_lineno e :
  lex_one (String c s) lexer_lineno <> Fail e.
Proof.
  unfold lex_one.
  destruct (first_match_total c s) as [[rule text] E]. rewrite E.
  apply first_match_Some in E as [Hin _]. unfold lex_rules in Hin.
  repeat (apply elem_of_cons in Hin as [->|Hin]; [done |]).
  by apply elem_of_nil in Hin.
Qed.

(** The token stream of every input ends at the end of the input:
    [t_error] is never called, and [parse] raises no other exception than
    the [SyntaxError] of [p_error]. *)
Lemma token_stream_never_fails lexdata ahead lexer_lineno :
  exists lineno', (token_stream lexdata ahead lexer_lineno).2 = AtEnd lineno'.
Proof.
  revert ahead lexer_lineno.
  induction lexdata as [|c rest IH]; intros ahead lineno; simpl; [eauto |].
  destruct ahead as [|ahead]; [| apply IH].
  pose proof (lex_one_never_fails c rest lineno) as Hfail.
  destruct (lex_one (String c rest) lineno) as [t n lineno'|n lineno'|e].
  - destruct (IH (n - 1)%nat lineno') as [l Hl].
    destruct (token_stream rest (n - 1) lineno') as [ts fin]. simpl in *. eauto.
  - apply IH.
  - by destruct (Hfail e).
Qed.

Lemma parser_run_Raise ts lexer_lineno objects st e :
  parser_run ts (AtEnd lexer_lineno) objects st = Raise e ->
  exists line, e = SyntaxError SyntaxErrorInInput line.
Proof.
  revert objects st. induction ts as [|[t lineno] ts IH]; intros objects st; simpl.
  - destruct st, (unsnoc objects) as [[]|]; intros [= <-]; by eexists.
  - destruct st, (tok_type t); try (intros [= <-]; by eexists); apply IH.
Qed.

(** ** Further examples *)

(** The count is found by its text, not by its position: in a record of
    five vertices whose first coordinate is the text 4, the twelve fields
    after that coordinate are read as a polygon of four vertices. *)
Example pentagon_read_after_first_4 :
  extract_zones decimal_float {[ "ZONE" := [ZONE_Z1]; BSD := [wall_pentagon] ]} =
  (Ok {[ "Z1" := ZG (1%Q, 2%Q, 3%Q)
                   [[ (0, 3, 0)%Q; (0, 0, 5)%Q; (0, 0, 5)%Q; (0, 3, 2)%Q ]] ]}, []).
Proof. vm_compute. reflexivity. Qed.

(** On the example mappings the extractor on the store returns, raises
    and prints what [extract_zones] does. *)
Example store_run_mixed :
  Store.run_extract_zones decimal_float mixed_mapping =
  Some (extract_zones decimal_float mixed_mapping).
Proof. vm_compute. reflexivity. Qed.

Example store_run_short :
  Store.run_extract_zones decimal_float short_mapping =
  Some (Raise IndexError, []) /\
  extract_zones decimal_float short_mapping = (Raise IndexError, []).
Proof. split; vm_compute; reflexivity. Qed.

Lemma extract_zones_leaves_input_witness :
  Store.heap (Store.extract_zones decimal_float (Store.VRef 2) ZONE_Z1_store).2 !! 0%nat =
  Some (Store.OList (Store.VStr <$> ZONE_Z1)).
Proof.
  pose proof (extract_zones_leaves_input decimal_float (Store.VRef 2) ZONE_Z1_store) as H.
  destruct (Store.extract_zones decimal_float (Store.VRef 2) ZONE_Z1_store) as [r st'].
  destruct H as [H _]. apply H. reflexivity.
Defined.

(** * Further properties *)

(** ** The parser and the grammar *)

(** X2.  [parse] returns a mapping exactly when the tokens of the input
    have a derivation by the rules of the grammar as they are written in
    the docstrings, and the mapping is the value that the functions of the
    rules compute along the derivation. *)
Theorem parse_accepts_the_grammar input d :
  parse input = Ok d <-> derives_idffile (lexer_input input).1.*1 (Ok d).
Proof.
  unfold parse, parser_parse.
  destruct (token_stream_never_fails input 0 1) as [lineno Hfin].
  fold (lexer_input input) in Hfin. rewrite Hfin. split.
  - intros H. bind_inv H. rename a into p1.
    apply parser_run_derives in Ha as [(_ & Hne & ->) | (more & Hmore & ->)]; [done |].
    rewrite <- H. by constructor.
  - intros H. inversion H as [ts p1 Hd Ets Ep]. subst ts.
    by rewrite (parser_run_idfobjectlist _ _ Hd).
Qed.

(** ** The exceptions of [parse] *)

Lemma derives_idfobject_nonempty ts o : derives_idfobject ts o -> o <> [].
Proof. by intros []. Qed.

Lemma derives_idfobjectlist_nonempty ts p :
  derives_idfobjectlist ts p -> Forall (fun o => o <> []) p.
Proof.
  induction 1 as [ts1 p1 H1 | ts1 p1 ts2 p2 H1 H2 IH].
  - repeat constructor. by eapply derives_idfobject_nonempty.
  - constructor; [by eapply derives_idfobject_nonempty | done].
Qed.

Lemma p_idffile_loop_returns p1 (d : gmap string (list idfobject)) :
  Forall (fun o => o <> []) p1 -> exists d', p_idffile_loop p1 d = Ok d'.
Proof.
  revert d. induction p1 as [|o p1 IH]; intros d; simpl; [eauto |].
  intros [Ho Hp1]%Forall_cons. destruct o as [|name o]; [done |].
  simpl. by apply IH.
Qed.

(** What a match does to the line counter. *)
Lemma lex_one_lines lexdata lexer_lineno :
  match lex_one lexdata lexer_lineno with
  | Return _ n lineno' | Skip n lineno' =>
      (0 < n <= String.length lexdata)%nat /\
      (lexer_lineno <= lineno' <= lexer_lineno + Z.of_nat n)%Z
  | Fail _ => True
  end.
Proof.
  unfold lex_one.
  destruct (first_match lex_rules lexdata) as [[rule text]|] eqn:E; [| done].
  pose proof (lex_rules_advance _ _ _ E) as Hadv.
  apply first_match_Some in E as [Hin _]. unfold lex_rules in Hin.
  repeat (apply elem_of_cons in Hin as [->|Hin]; [simpl; lia |]).
  by apply elem_of_nil in Hin.
Qed.

Lemma token_stream_lines lexdata ahead lexer_lineno :
  let bound := (lexer_lineno + Z.of_nat (String.length lexdata - ahead))%Z in
  Forall (fun tn => (lexer_lineno <= tn.2 <= bound)%Z)
    (token_stream lexdata ahead lexer_lineno).1 /\
  forall lineno', (token_stream lexdata ahead lexer_lineno).2 = AtEnd lineno' ->
    (lexer_lineno <= lineno' <= bound)%Z.
Proof.
  revert ahead lexer_lineno.
  induction lexdata as [|c rest IH]; intros ahead lineno; cbn zeta.
  { simpl. split; [constructor |]. intros ? [= <-]. lia. }
  destruct ahead as [|ahead].
  2:{ simpl. apply IH. }
  cbn [token_stream].
  pose proof (lex_one_lines (String c rest) lineno) as Hone.
  destruct (lex_one (String c rest) lineno) as [t n lineno'|n lineno'|e].
  - destruct Hone as [Hn Hl]. specialize (IH (n - 1)%nat lineno'). cbn zeta in IH.
    destruct (token_stream rest (n - 1) lineno') as [ts fin]. simpl in *.
    destruct IH as [IHts IHfin]. split.
    + constructor; [simpl; lia |].
      eapply Forall_impl; [exact IHts |]. intros [t' m]. simpl. lia.
    + intros l Hfin. specialize (IHfin l Hfin). lia.
  - destruct Hone as [Hn Hl]. specialize (IH (n - 1)%nat lineno'). cbn zeta in IH.
    destruct IH as [IHts IHfin]. simpl in *. split.
    + eapply Forall_impl; [exact IHts |]. intros [t' m]. simpl. lia.
    + intros l Hfin. specialize (IHfin l Hfin). lia.
  - simpl. split; [constructor | done].
Qed.

Lemma parser_run_Raise_line ts lexer_lineno objects st e :
  parser_run ts (AtEnd lexer_lineno) objects st = Raise e ->
  exists line, e = SyntaxError SyntaxErrorInInput line /\
               (line = lexer_lineno \/ line ∈ ts.*2).
Proof.
  revert objects st. induction ts as [|[t lineno] ts IH]; intros objects st; simpl.
  - destruct st, (unsnoc objects) as [[]|]; intros [= <-]; eexists; eauto.
  - assert (Hhere : exists line, p_error lineno = SyntaxError SyntaxErrorInInput line /\
                      (line = lexer_lineno \/ line ∈ lineno :: ts.*2)).
    { eexists. split; [reflexivity |]. right. apply list_elem_of_here. }
    assert (Hthere : forall objects' st',
              parser_run ts (AtEnd lexer_lineno) objects' st' = Raise e ->
              exists line, e = SyntaxError SyntaxErrorInInput line /\
                (line = lexer_lineno \/ line ∈ lineno :: ts.*2)).
    { intros objects' st' H. apply IH in H as (line & -> & [-> | Hin]); eexists;
        (split; [reflexivity |]); [by left | right; by apply list_elem_of_further]. }
    destruct st, (tok_type t); try (intros [= <-]; exact Hhere); apply Hthere.
Qed.

(** X3.  The only exception that [parse] raises is the [SyntaxError] of
    [p_error]: [t_error] is never called, and the loop of [p_idffile]
    finds a first element in every object.  The line that the error
    reports is at least 1 and at most 1 plus the length of the input. *)
Theorem parse_raises_only_syntax_errors input e :
  parse input = Raise e ->
  exists line, e = SyntaxError SyntaxErrorInInput line /\
               (1 <= line <= 1 + Z.of_nat (String.length input))%Z.
Proof.
  unfold parse, parser_parse.
  destruct (token_stream_never_fails input 0 1) as [lineno Hfin].
  pose proof (token_stream_lines input 0 1) as [Hts Hend]. cbn zeta in Hts, Hend.
  fold (lexer_input input) in Hfin, Hts, Hend.
  rewrite Nat.sub_0_r in Hts, Hend. specialize (Hend _ Hfin).
  rewrite Hfin.
  destruct (parser_run (lexer_input input).1 (AtEnd lineno) [] AtObject) as [p1|e'] eqn:E.
  - cbn [mbind result_bind].
    apply parser_run_derives in E as [(_ & Hne & _) | (more & Hmore & ->)]; [done |].
    destruct (p_idffile_loop_returns more ∅) as [d' Hd'];
      [by eapply derives_idfobjectlist_nonempty |].
    rewrite app_nil_l. unfold p_idffile. by rewrite Hd'.
  - cbn [mbind result_bind]. intros [= <-].
    apply parser_run_Raise_line in E as (line & -> & [-> | Hin]).
    + eauto.
    + exists line. split; [done |].
      apply list_elem_of_fmap in Hin as ([t m] & -> & Hin).
      rewrite Forall_forall in Hts. by apply Hts in Hin.
Qed.

(** ** The tokens *)

(** The text that the matcher consumes is a text of the pattern. *)
Lemma re_match_matches {A} fuel r s (k : string -> option A) a :
  re_match fuel r s k = Some a ->
  exists text rest, s = text +:+ rest /\ matches r text /\ k rest = Some a.
Proof.
  revert r s k a.
  induction fuel as [fuel IHfuel] using lt_wf_ind. intros r.
  induction r as [|p|r1 IH1 r2 IH2|r1 IH1 r2 IH2|r IH]; intros s k a.
  - rewrite re_match_Eps. intros H. exists "", s. split; [reflexivity |].
    split; [constructor | exact H].
  - rewrite re_match_Class. destruct s as [|c s']; [done |].
    destruct (p c) eqn:Ep; [| done]. intros H. exists (String c ""), s'.
    split; [reflexivity |]. split; [by constructor | exact H].
  - rewrite re_match_Cat. intros H.
    apply IH1 in H as (t1 & s1 & -> & Hm1 & H).
    apply IH2 in H as (t2 & s2 & -> & Hm2 & H).
    exists (t1 +:+ t2), s2. split; [by rewrite append_assoc_string |].
    split; [by constructor | exact H].
  - rewrite re_match_Alt.
    destruct (re_match fuel r1 s k) as [a'|] eqn:E.
    + intros Ha. assert (a' = a) as -> by congruence.
      apply IH1 in E as (t1 & s1 & -> & Hm & H).
      exists t1, s1. split; [reflexivity |]. split; [by apply matches_Alt_l | exact H].
    + intros H. apply IH2 in H as (t1 & s1 & -> & Hm & H).
      exists t1, s1. split; [reflexivity |]. split; [by apply matches_Alt_r | exact H].
  - destruct fuel as [|fuel]; [discriminate |].
    rewrite re_match_Star.
    destruct (re_match (S fuel) r s _) as [a'|] eqn:E.
    + intros Ha. assert (a' = a) as -> by congruence.
      apply IH in E as (t1 & s1 & -> & Hm1 & H).
      destruct (String.length s1 <? String.length (t1 +:+ s1))%nat; [| done].
      apply IHfuel in H as (t2 & s2 & -> & Hm2 & H); [| lia].
      exists (t1 +:+ t2), s2. split; [by rewrite append_assoc_string |].
      split; [by constructor | exact H].
    + intros H. exists "", s. split; [reflexivity |]. split; [constructor | exact H].
Qed.

Lemma regex_match_matches r s text rest :
  regex_match r s = Some (text, rest) -> matches r text.
Proof.
  unfold regex_match.
  destruct (re_match (S (String.length s)) r s Some) as [rest'|] eqn:E; [| done].
  apply re_match_matches in E as (t & s' & -> & Hm & [= ->]).
  rewrite length_append_string.
  replace (String.length t + String.length rest' - String.length rest')%nat
    with (String.length t) by lia.
  rewrite take_string_append. by intros [= <- _].
Qed.

(** What [lexer.token()] returns. *)
Lemma lex_one_Return lexdata lexer_lineno t n lineno' :
  lex_one lexdata lexer_lineno = Return t n lineno' ->
  exists r, pattern_of (tok_type t) = Some r /\ matches r (tok_value t).
Proof.
  unfold lex_one.
  destruct (first_match lex_rules lexdata) as [[rule text]|] eqn:E; [| done].
  apply first_match_Some in E as [Hin (rest & Hm)].
  apply regex_match_matches in Hm. unfold lex_rules in Hin.
  repeat (apply elem_of_cons in Hin as [->|Hin];
          [simpl in *; try discriminate; intros [= <- _ _]; eauto |]).
  by apply elem_of_nil in Hin.
Qed.

(** From every position and with every line count, the tokens that the
    loop of the lexer returns are texts of the patterns of their rules. *)
Lemma token_stream_matches_rules lexdata ahead lexer_lineno :
  Forall (fun tn => exists r, pattern_of (tok_type tn.1) = Some r /\
                              matches r (tok_value tn.1))
    (token_stream lexdata ahead lexer_lineno).1.
Proof.
  revert ahead lexer_lineno.
  induction lexdata as [|c rest IH]; intros ahead lineno; simpl; [constructor |].
  destruct ahead as [|ahead]; [| apply IH].
  destruct (lex_one (String c rest) lineno) as [t n lineno'|n lineno'|e] eqn:E.
  - specialize (IH (n - 1)%nat lineno').
    destruct (token_stream rest (n - 1) lineno') as [ts fin]. simpl in *.
    constructor; [| exact IH]. by eapply lex_one_Return.
  - apply IH.
  - constructor.
Qed.

(** X1.  Every token that the lexer returns for an input is a [VALUE], a
    [COMMA] or a [SEMICOLON], and its text is a text of the pattern of its
    rule; what [t_COMMENT] and [t_newline] match is never returned. *)
Theorem lexer_tokens_match_their_rules input :
  Forall (fun tn => exists r, pattern_of (tok_type tn.1) = Some r /\
                              matches r (tok_value tn.1))
    (lexer_input input).1.
Proof. apply token_stream_matches_rules. Qed.

(** ** The fields of the objects *)

Lemma all_chars_append p (s1 s2 : string) :
  all_chars p (s1 +:+ s2) = all_chars p s1 && all_chars p s2.
Proof.
  induction s1 as [|c s1 IH]; [reflexivity |].
  rewrite append_String. simpl. by rewrite IH, andb_assoc.
Qed.

Lemma matches_within q r s :
  matches r s -> classes_within q r -> all_chars q s = true.
Proof.
  induction 1 as [|p c Hp|r1 r2 s1 s2 _ IH1 _ IH2|r1 r2 s _ IH|r1 r2 s _ IH
                  |r|r s1 s2 _ IH1 _ IH2]; simpl; intros Hq.
  - done.
  - by rewrite (Hq c Hp).
  - destruct Hq. by rewrite all_chars_append, IH1, IH2.
  - destruct Hq. auto.
  - destruct Hq. auto.
  - done.
  - by rewrite all_chars_append, IH1, IH2.
Qed.

Lemma t_VALUE_within : classes_within value_char t_VALUE_re.
Proof.
  assert (Hblank : forall c, one_of [" "%char; TAB] c = true -> value_char c = true).
  { intros c Hc. apply bool_decide_eq_true in Hc.
    repeat (apply elem_of_cons in Hc as [->|Hc]; [reflexivity |]).
    by apply elem_of_nil in Hc. }
  assert (Hstar : forall c, one_of ["*"%char] c = true -> value_char c = true).
  { intros c Hc. apply bool_decide_eq_true in Hc.
    repeat (apply elem_of_cons in Hc as [->|Hc]; [reflexivity |]).
    by apply elem_of_nil in Hc. }
  simpl. repeat split; auto.
Qed.

(** *** [strip] *)

Lemma lstrip_all_chars p s : all_chars p s = true -> all_chars p (lstrip s) = true.
Proof.
  induction s as [|c s IH]; simpl; [done |].
  intros [Hc Hs]%andb_true_iff. destruct (is_space c); [auto |].
  simpl. by rewrite Hc, Hs.
Qed.

Lemma rstrip_all_chars p s : all_chars p s = true -> all_chars p (rstrip s) = true.
Proof.
  induction s as [|c s IH]; simpl; [done |].
  intros [Hc Hs]%andb_true_iff. specialize (IH Hs).
  destruct (rstrip s) as [|d t].
  - destruct (is_space c); simpl; [done | by rewrite Hc].
  - cbn [all_chars] in *. by rewrite Hc, IH.
Qed.

Lemma strip_all_chars p s : all_chars p s = true -> all_chars p (strip s) = true.
Proof. intros H. by apply rstrip_all_chars, lstrip_all_chars. Qed.

Lemma lstrip_head s :
  match lstrip s with
  | EmptyString => True
  | String c _ => is_space c = false
  end.
Proof.
  induction s as [|c s IH]; simpl; [done |].
  by destruct (is_space c) eqn:E.
Qed.

Lemma lstrip_fixed c s : is_space c = false -> lstrip (String c s) = String c s.
Proof. intros H. simpl. by rewrite H. Qed.

Lemma rstrip_head c s :
  is_space c = false -> exists t, rstrip (String c s) = String c t.
Proof.
  intros H. simpl. destruct (rstrip s); [rewrite H |]; eauto.
Qed.

Lemma rstrip_idemp s : rstrip (rstrip s) = rstrip s.
Proof.
  induction s as [|c s IH]; simpl; [done |].
  destruct (rstrip s) as [|d t] eqn:E.
  - destruct (is_space c) eqn:Ec; simpl; [done | by rewrite Ec].
  - change (rstrip (String c (String d t)))
      with (match rstrip (String d t) with
            | EmptyString => if is_space c then EmptyString else String c EmptyString
            | u => String c u
            end).
    by rewrite IH.
Qed.

Lemma strip_idemp s : strip (strip s) = strip s.
Proof.
  unfold strip. pose proof (lstrip_head s) as Hh.
  destruct (lstrip s) as [|c u]; [done |].
  destruct (rstrip_head c u Hh) as [t Ht]. rewrite Ht.
  rewrite (lstrip_fixed c t Hh), <- Ht. apply rstrip_idemp.
Qed.

Lemma stripped_value_mono ts ts' f :
  (forall t, t ∈ ts -> t ∈ ts') -> stripped_value ts f -> stripped_value ts' f.
Proof. intros Hsub (t & Hin & Ht & ->). exists t. auto. Qed.

Lemma derives_valuelist_fields ts p3 :
  derives_valuelist ts p3 -> Forall (stripped_value ts) p3.
Proof.
  induction 1 as [t Ht | t c ts p3 Ht Hc H IH].
  - repeat constructor. exists t. split; [apply list_elem_of_here | done].
  - constructor.
    + exists t. split; [apply list_elem_of_here | done].
    + eapply Forall_impl; [exact IH |]. intros f. apply stripped_value_mono.
      intros t' Hin. by do 2 apply list_elem_of_further.
Qed.

Lemma derives_idfobject_fields ts o :
  derives_idfobject ts o -> Forall (stripped_value ts) o.
Proof.
  intros [ts1 p1 s [t Ht] Hs | ts1 p1 c ts3 p3 s [t Ht] Hc Hv Hs].
  - repeat constructor. exists t. split; [apply list_elem_of_here | done].
  - constructor.
    + exists t. split; [apply list_elem_of_here | done].
    + apply derives_valuelist_fields in Hv.
      eapply Forall_impl; [exact Hv |]. intros f. apply stripped_value_mono.
      intros t' Hin. simpl. do 2 apply list_elem_of_further.
      apply elem_of_app. by left.
Qed.

Lemma derives_idfobjectlist_fields ts p :
  derives_idfobjectlist ts p -> Forall (Forall (stripped_value ts)) p.
Proof.
  induction 1 as [ts1 p1 H1 | ts1 p1 ts2 p2 H1 H2 IH].
  - repeat constructor. by apply derives_idfobject_fields.
  - constructor.
    + apply derives_idfobject_fields in H1.
      eapply Forall_impl; [exact H1 |]. intros f. apply stripped_value_mono.
      intros t Hin. apply elem_of_app. by left.
    + eapply Forall_impl; [exact IH |]. intros o Ho.
      eapply Forall_impl; [exact Ho |]. intros f. apply stripped_value_mono.
      intros t Hin. apply elem_of_app. by right.
Qed.

(** X4.  In the mapping that [parse] returns no record is empty, and
    every element of a record is stripped (it has no white space at
    either end) and holds no exclamation mark, comma, semicolon or line
    feed. *)
Theorem parse_fields_are_clean input d key records :
  parse input = Ok d ->
  d !! key = Some records ->
  Forall (fun o =>
            o <> [] /\
            Forall (fun f => strip f = f /\ all_chars value_char f = true) o)
    records.
Proof.
  unfold parse, parser_parse.
  destruct (token_stream_never_fails input 0 1) as [lineno Hfin].
  pose proof (token_stream_matches_rules input 0 1) as Htok.
  fold (lexer_input input) in Hfin, Htok. rewrite Hfin.
  intros H Hkey. bind_inv H. rename a into p1.
  apply parser_run_derives in Ha as [(_ & Hne & _) | (more & Hmore & ->)]; [done |].
  rewrite app_nil_l in H.
  pose proof (derives_idfobjectlist_nonempty _ _ Hmore) as Hnonempty.
  pose proof (derives_idfobjectlist_fields _ _ Hmore) as Hfields.
  pose proof (eq_trans (eq_sym (p_idffile_lookup _ _ key H)) Hkey) as Hlook.
  clear Hkey. rename Hlook into Hkey.
  assert (Hsub : forall o, o ∈ records -> o ∈ more).
  { intros o Ho. unfold records_of_type in Hkey.
    destruct (filter _ more) as [|o' l] eqn:E; [done |].
    injection Hkey as <-. rewrite <- E in Ho.
    by apply list_elem_of_filter in Ho as [_ Ho]. }
  apply Forall_forall. intros o Ho. apply Hsub in Ho.
  rewrite Forall_forall in Hnonempty, Hfields.
  split; [by apply Hnonempty |].
  eapply Forall_impl; [by apply Hfields |].
  intros f (t & Hin & Ht & ->). split; [apply strip_idemp |].
  apply strip_all_chars.
  apply list_elem_of_fmap in Hin as ([t' n] & -> & Hin).
  rewrite Forall_forall in Htok. apply Htok in Hin as (r & Hr & Hm).
  simpl in *. rewrite Ht in Hr. injection Hr as <-.
  eapply matches_within; [exact Hm | apply t_VALUE_within].
Qed.

(** ** Repetitions of a character class *)

Ltac string_length :=
  unfold nl in *;
  repeat first [ rewrite length_append_string
               | rewrite length_append_string in *
               | progress cbn [String.length] in * ];
  lia.

Lemma reads_class_Class p : reads_class (Class p) p.
Proof. intros A fuel s k. apply re_match_Class. Qed.

Lemma reads_class_Alt p q :
  reads_class (Alt (Class p) (Class q)) (fun c => p c || q c).
Proof.
  intros A fuel s k. rewrite re_match_Alt, !re_match_Class.
  destruct s as [|c s']; [done |].
  destruct (p c), (q c); simpl; try done; by destruct (k s').
Qed.

(** A repetition first reads as far as it can: when the continuation
    accepts what is left after the longest run, that is the match. *)
Lemma re_match_Star_greedy {A} r p fuel pre post (k : string -> option A) a :
  reads_class r p ->
  all_chars p pre = true -> stops p post = true ->
  (String.length (pre +:+ post) < fuel)%nat ->
  k post = Some a ->
  re_match fuel (Star r) (pre +:+ post) k = Some a.
Proof.
  intros Hr Hpre Hpost Hfuel Hk. revert fuel Hfuel Hpre.
  induction pre as [|c pre IH]; intros fuel Hfuel Hpre.
  - destruct fuel as [|fuel]; [simpl in Hfuel; lia |].
    rewrite re_match_Star, Hr. change ("" +:+ post) with post.
    destruct post as [|d post']; [exact Hk |].
    simpl in Hpost. apply negb_true_iff in Hpost. by rewrite Hpost.
  - destruct fuel as [|fuel]; [simpl in Hfuel; lia |].
    simpl in Hpre. apply andb_true_iff in Hpre as [Hc Hpre].
    rewrite re_match_Star, Hr, append_String, Hc.
    assert ((String.length (pre +:+ post) <? String.length (String c (pre +:+ post)))%nat
            = true) as -> by (apply Nat.ltb_lt; simpl; lia).
    rewrite IH; [done | | done].
    rewrite append_String in Hfuel. simpl in Hfuel. lia.
Qed.

(** A repetition fails when the continuation refuses every place at
    which it can stop. *)
Lemma re_match_Star_None {A} r p fuel pre post (k : string -> option A) :
  reads_class r p ->
  stops p post = true ->
  (forall pre1 pre2, pre = pre1 +:+ pre2 -> k (pre2 +:+ post) = None) ->
  re_match fuel (Star r) (pre +:+ post) k = None.
Proof.
  intros Hr Hpost. revert fuel.
  induction pre as [|c pre IH]; intros fuel Hk.
  - destruct fuel as [|fuel]; [done |].
    rewrite re_match_Star, Hr. change ("" +:+ post) with post.
    specialize (Hk "" "" eq_refl). change ("" +:+ post) with post in Hk.
    destruct post as [|d post']; [exact Hk |].
    simpl in Hpost. apply negb_true_iff in Hpost. by rewrite Hpost.
  - destruct fuel as [|fuel]; [done |].
    rewrite re_match_Star, Hr, append_String.
    assert (Htail : re_match fuel (Star r) (pre +:+ post) k = None).
    { apply IH. intros pre1 pre2 ->. apply (Hk (String c pre1) pre2). reflexivity. }
    specialize (Hk "" (String c pre) eq_refl). rewrite append_String in Hk.
    destruct (p c); [| exact Hk].
    destruct (_ <? _)%nat; by rewrite ?Htail.
Qed.

(** A repetition that cannot read a character reads nothing. *)
Lemma re_match_Star_stop {A} r p fuel s (k : string -> option A) :
  reads_class r p -> stops p s = true ->
  re_match (S fuel) (Star r) s k = k s.
Proof.
  intros Hr Hs. rewrite re_match_Star, Hr.
  destruct s as [|c s]; [done |]. simpl in Hs. apply negb_true_iff in Hs.
  by rewrite Hs.
Qed.

Lemma regex_match_intro r text rest :
  re_match (S (String.length (text +:+ rest))) r (text +:+ rest) Some = Some rest ->
  regex_match r (text +:+ rest) = Some (text, rest).
Proof.
  intros H. unfold regex_match. rewrite H, length_append_string.
  replace (String.length text + String.length rest - String.length rest)%nat
    with (String.length text) by lia.
  by rewrite take_string_append.
Qed.

Lemma regex_match_None r s :
  re_match (S (String.length s)) r s Some = None -> regex_match r s = None.
Proof. intros H. unfold regex_match. by rewrite H. Qed.

(** ** The rules of the lexer on a text *)

Lemma one_of_true l c : one_of l c = true <-> c ∈ l.
Proof. unfold one_of. apply bool_decide_eq_true. Qed.

Lemma one_of_false l c : one_of l c = false <-> c ∉ l.
Proof. unfold one_of. apply bool_decide_eq_false. Qed.

Lemma stops_weaken (p q : ascii -> bool) s :
  (forall c, q c = true -> p c = true) -> stops p s = true -> stops q s = true.
Proof.
  intros Hpq. destruct s as [|c s]; [done |]. simpl.
  rewrite !negb_true_iff. intros Hp. destruct (q c) eqn:Eq; [| done].
  apply Hpq in Eq. congruence.
Qed.

Lemma all_chars_weaken (p q : ascii -> bool) s :
  (forall c, p c = true -> q c = true) -> all_chars p s = true -> all_chars q s = true.
Proof.
  intros Hpq. induction s as [|c s IH]; simpl; [done |].
  intros [Hc Hs]%andb_true_iff. by rewrite (Hpq c Hc), IH.
Qed.

Lemma blank_white c : blank c = true -> white c = true.
Proof.
  unfold blank, white. rewrite !one_of_true, !elem_of_cons, !elem_of_nil. tauto.
Qed.

Lemma line_end_white c : line_end c = true -> white c = true.
Proof.
  unfold line_end, white. rewrite !one_of_true, !elem_of_cons, !elem_of_nil. tauto.
Qed.

Lemma white_is_space c : white c = true -> is_space c = true.
Proof.
  unfold white. rewrite one_of_true, !elem_of_cons, elem_of_nil.
  intros [-> | [-> | [-> | [-> | []]]]]; reflexivity.
Qed.

Lemma blank_value_char c : blank c = true -> value_char c = true.
Proof.
  unfold blank. rewrite one_of_true, !elem_of_cons, elem_of_nil.
  intros [-> | [-> | []]]; reflexivity.
Qed.

Lemma reads_t_VALUE_char : reads_class t_VALUE_char value_char.
Proof.
  intros A fuel s k. unfold t_VALUE_char. rewrite reads_class_Alt.
  destruct s as [|c s']; [done |].
  assert (value_char c || one_of ["*"%char] c = value_char c) as Hor.
  { destruct (one_of ["*"%char] c) eqn:E; [| by rewrite orb_false_r].
    apply one_of_true in E. rewrite elem_of_cons, elem_of_nil in E.
    destruct E as [-> | []]. reflexivity. }
  unfold value_char in Hor. by rewrite Hor.
Qed.

(** A text that starts with a field starts with no white space, no
    exclamation mark and no separator. *)
Lemma starts_field_stops s :
  starts_field s = true ->
  stops white s = true /\ stops (one_of ["!"%char]) s = true /\
  stops (negb ∘ value_char) s = true.
Proof.
  destruct s as [|c s]; [done |]. simpl.
  intros [Hs Hv]%andb_true_iff. apply negb_true_iff in Hs.
  split; [| split].
  - apply negb_true_iff. destruct (white c) eqn:E; [| done].
    apply white_is_space in E. congruence.
  - apply negb_true_iff, one_of_false. rewrite elem_of_cons, elem_of_nil.
    intros [-> | []]. discriminate.
  - by rewrite Hv.
Qed.

(** *** [t_COMMENT] *)

Lemma t_COMMENT_reads w c rest :
  all_chars white w = true -> all_chars not_LF c = true ->
  stops not_LF rest = true ->
  regex_match t_COMMENT_re ((w +:+ String "!" c) +:+ rest) =
  Some (w +:+ String "!" c, rest).
Proof.
  intros Hw Hc Hrest. apply regex_match_intro.
  rewrite append_assoc_string. unfold t_COMMENT_re. rewrite re_match_Cat.
  eapply re_match_Star_greedy;
    [apply reads_class_Class | exact Hw | reflexivity | lia |].
  rewrite re_match_Cat, re_match_Class, append_String.
  change (one_of ["!"%char] "!") with true. cbv iota.
  eapply re_match_Star_greedy;
    [apply reads_class_Class | exact Hc | exact Hrest | | reflexivity].
  string_length.
Qed.

Lemma t_COMMENT_refuses w next :
  all_chars white w = true ->
  stops white next = true -> stops (one_of ["!"%char]) next = true ->
  regex_match t_COMMENT_re (w +:+ next) = None.
Proof.
  intros Hw Hn1 Hn2. apply regex_match_None. unfold t_COMMENT_re.
  rewrite re_match_Cat.
  eapply re_match_Star_None; [apply reads_class_Class | exact Hn1 |].
  intros w1 w2 ->. rewrite all_chars_append in Hw.
  apply andb_true_iff in Hw as [_ Hw2].
  rewrite re_match_Cat, re_match_Class.
  destruct w2 as [|d w2].
  - change ("" +:+ next) with next. destruct next as [|d next]; [done |].
    simpl in Hn2. apply negb_true_iff in Hn2. by rewrite Hn2.
  - rewrite append_String. simpl in Hw2. apply andb_true_iff in Hw2 as [Hd _].
    assert (one_of ["!"%char] d = false) as ->; [| done].
    apply one_of_false. rewrite elem_of_cons, elem_of_nil. intros [-> | []].
    discriminate.
Qed.

(** *** [t_newline] *)

Lemma t_newline_break_LF {A} fuel s (k : string -> option A) :
  re_match fuel t_newline_break (String LF s) k = k s.
Proof.
  unfold t_newline_break, Opt.
  rewrite re_match_Cat, re_match_Alt, re_match_Class.
  change (one_of [CR] LF) with false. cbv iota.
  rewrite re_match_Eps, re_match_Class.
  change (one_of [LF] LF) with true. reflexivity.
Qed.

Lemma t_newline_break_refuses {A} fuel s (k : string -> option A) :
  stops line_end s = true -> re_match fuel t_newline_break s k = None.
Proof.
  intros Hs. unfold t_newline_break, Opt.
  rewrite re_match_Cat, re_match_Alt, re_match_Class, re_match_Eps, re_match_Class.
  destruct s as [|c s]; [done |]. simpl in Hs. apply negb_true_iff in Hs.
  unfold line_end in Hs. apply one_of_false in Hs.
  rewrite !elem_of_cons, elem_of_nil in Hs.
  assert (one_of [CR] c = false) as ->.
  { apply one_of_false. rewrite elem_of_cons, elem_of_nil. tauto. }
  assert (one_of [LF] c = false) as ->; [| done].
  apply one_of_false. rewrite elem_of_cons, elem_of_nil. tauto.
Qed.

Lemma t_newline_refuses b next :
  all_chars blank b = true -> stops white next = true ->
  regex_match t_newline_re (b +:+ next) = None.
Proof.
  intros Hb Hn. apply regex_match_None. unfold t_newline_re, Plus.
  fold t_newline_break. rewrite re_match_Cat.
  eapply re_match_Star_None; [apply reads_class_Class | |].
  { eapply stops_weaken; [| exact Hn]. apply blank_white. }
  intros b1 b2 ->. rewrite all_chars_append in Hb.
  apply andb_true_iff in Hb as [_ Hb2].
  rewrite re_match_Cat. apply t_newline_break_refuses.
  destruct b2 as [|d b2].
  - change ("" +:+ next) with next.
    eapply stops_weaken; [| exact Hn]. apply line_end_white.
  - rewrite append_String. simpl. simpl in Hb2.
    apply andb_true_iff in Hb2 as [Hd _]. apply negb_true_iff.
    unfold blank in Hd. apply one_of_true in Hd. apply one_of_false.
    rewrite !elem_of_cons, elem_of_nil in *.
    intros [-> | [-> | []]]; destruct Hd as [Hd | [Hd | []]]; discriminate.
Qed.

(** *** [t_VALUE] *)

Lemma t_VALUE_reads b v rest :
  all_chars blank b = true -> starts_field v = true ->
  all_chars value_char v = true -> stops value_char rest = true ->
  regex_match t_VALUE_re ((b +:+ v) +:+ rest) = Some (b +:+ v, rest).
Proof.
  intros Hb Hv Hall Hrest. apply regex_match_intro.
  rewrite append_assoc_string. unfold t_VALUE_re, Plus. fold t_VALUE_char.
  rewrite re_match_Cat.
  pose proof (starts_field_stops _ Hv) as (Hv1 & _ & _).
  eapply re_match_Star_greedy; [apply reads_class_Class | exact Hb | | lia |].
  { destruct v as [|c v]; [done |]. rewrite append_String.
    eapply (stops_weaken white); [apply blank_white | exact Hv1]. }
  destruct v as [|c v]; [done |].
  rewrite !re_match_Cat, reads_t_VALUE_char, append_String.
  simpl in Hall. apply andb_true_iff in Hall as [Hc Hall]. rewrite Hc.
  eapply re_match_Star_greedy;
    [apply reads_t_VALUE_char | exact Hall | exact Hrest | |].
  { string_length. }
  unfold blanks. erewrite re_match_Star_stop; [done | apply reads_class_Class |].
  eapply stops_weaken; [| exact Hrest]. apply blank_value_char.
Qed.

Lemma t_VALUE_refuses s :
  stops value_char s = true -> regex_match t_VALUE_re s = None.
Proof.
  intros Hs. apply regex_match_None. unfold t_VALUE_re, Plus. fold t_VALUE_char.
  rewrite re_match_Cat. unfold blanks.
  erewrite re_match_Star_stop; [| apply reads_class_Class |].
  2:{ eapply stops_weaken; [| exact Hs]. apply blank_value_char. }
  rewrite !re_match_Cat, reads_t_VALUE_char.
  destruct s as [|c s]; [done |]. simpl in Hs. apply negb_true_iff in Hs.
  by rewrite Hs.
Qed.

(** *** [t_COMMA] and [t_SEMICOLON] *)

Lemma separator_reads sep b rest :
  blank sep = false ->
  all_chars blank b = true -> stops blank rest = true ->
  regex_match (Cat blanks (Cat (Class (one_of [sep])) blanks))
    (String sep b +:+ rest) = Some (String sep b, rest).
Proof.
  intros Hsep Hb Hrest. apply regex_match_intro.
  rewrite re_match_Cat. unfold blanks at 1.
  erewrite re_match_Star_stop; [| apply reads_class_Class |].
  2:{ rewrite append_String. change (negb (blank sep) = true). by rewrite Hsep. }
  rewrite re_match_Cat, re_match_Class, append_String.
  assert (one_of [sep] sep = true) as ->.
  { apply one_of_true. apply list_elem_of_here. }
  eapply re_match_Star_greedy; [apply reads_class_Class | exact Hb | exact Hrest | | done].
  string_length.
Qed.

Lemma separator_refuses sep s :
  blank sep = false ->
  stops blank s = true -> stops (one_of [sep]) s = true ->
  regex_match (Cat blanks (Cat (Class (one_of [sep])) blanks)) s = None.
Proof.
  intros Hsep Hs1 Hs2. apply regex_match_None.
  rewrite re_match_Cat. unfold blanks at 1.
  erewrite re_match_Star_stop; [| apply reads_class_Class | exact Hs1].
  rewrite re_match_Cat, re_match_Class.
  destruct s as [|c s]; [done |]. simpl in Hs2. apply negb_true_iff in Hs2.
  by rewrite Hs2.
Qed.

(** ** The lexer on a text *)

Lemma token_stream_ahead text rest lexer_lineno :
  token_stream (text +:+ rest) (String.length text) lexer_lineno =
  token_stream rest 0 lexer_lineno.
Proof.
  induction text as [|c text IH]; [reflexivity |].
  rewrite append_String. exact IH.
Qed.

Lemma token_stream_Skip text rest lexer_lineno lineno' :
  text <> "" ->
  lex_one (text +:+ rest) lexer_lineno = Skip (String.length text) lineno' ->
  token_stream (text +:+ rest) 0 lexer_lineno = token_stream rest 0 lineno'.
Proof.
  destruct text as [|c text]; [done |]. intros _.
  rewrite append_String. intros H.
  change (token_stream (String c (text +:+ rest)) 0 lexer_lineno)
    with (match lex_one (String c (text +:+ rest)) lexer_lineno with
          | Return t n lineno' =>
              let '(ts, fin) := token_stream (text +:+ rest) (n - 1) lineno' in
              ((t, lineno') :: ts, fin)
          | Skip n lineno' => token_stream (text +:+ rest) (n - 1) lineno'
          | Fail e => ([], Raised e)
          end).
  rewrite H. simpl. rewrite Nat.sub_0_r. apply token_stream_ahead.
Qed.

Lemma token_stream_Return text rest lexer_lineno t lineno' :
  text <> "" ->
  lex_one (text +:+ rest) lexer_lineno = Return t (String.length text) lineno' ->
  token_stream (text +:+ rest) 0 lexer_lineno =
  ((t, lineno') :: (token_stream rest 0 lineno').1, (token_stream rest 0 lineno').2).
Proof.
  destruct text as [|c text]; [done |]. intros _.
  rewrite append_String. intros H.
  change (token_stream (String c (text +:+ rest)) 0 lexer_lineno)
    with (match lex_one (String c (text +:+ rest)) lexer_lineno with
          | Return t n lineno' =>
              let '(ts, fin) := token_stream (text +:+ rest) (n - 1) lineno' in
              ((t, lineno') :: ts, fin)
          | Skip n lineno' => token_stream (text +:+ rest) (n - 1) lineno'
          | Fail e => ([], Raised e)
          end).
  rewrite H. simpl. rewrite Nat.sub_0_r, token_stream_ahead.
  by destruct (token_stream rest 0 lineno').
Qed.

Lemma parser_on_Skip text rest lexer_lineno lineno' objects st :
  text <> "" ->
  lex_one (text +:+ rest) lexer_lineno = Skip (String.length text) lineno' ->
  parser_on (text +:+ rest) lexer_lineno objects st = parser_on rest lineno' objects st.
Proof.
  intros Hne H. unfold parser_on. by rewrite (token_stream_Skip _ _ _ _ Hne H).
Qed.

Lemma parser_on_Return text rest lexer_lineno t lineno' objects st :
  text <> "" ->
  lex_one (text +:+ rest) lexer_lineno = Return t (String.length text) lineno' ->
  parser_on (text +:+ rest) lexer_lineno objects st =
  parser_run ((t, lineno') :: (token_stream rest 0 lineno').1)
    (token_stream rest 0 lineno').2 objects st.
Proof.
  intros Hne H. unfold parser_on. by rewrite (token_stream_Return _ _ _ _ _ Hne H).
Qed.

(** *** The rule that matches *)

Lemma lex_one_COMMENT s text rest lexer_lineno :
  regex_match t_COMMENT_re s = Some (text, rest) ->
  lex_one s lexer_lineno = Skip (String.length text) lexer_lineno.
Proof. intros H. unfold lex_one. simpl. by rewrite H. Qed.

Lemma lex_one_newline s text rest lexer_lineno :
  regex_match t_COMMENT_re s = None ->
  regex_match t_newline_re s = Some (text, rest) ->
  lex_one s lexer_lineno =
  Skip (String.length text) (lexer_lineno + Z.of_nat (String.length text)).
Proof. intros H1 H2. unfold lex_one. simpl. by rewrite H1, H2. Qed.

Lemma lex_one_VALUE s text rest lexer_lineno :
  regex_match t_COMMENT_re s = None ->
  regex_match t_newline_re s = None ->
  regex_match t_VALUE_re s = Some (text, rest) ->
  lex_one s lexer_lineno =
  Return (Token VALUE text lexer_lineno) (String.length text) lexer_lineno.
Proof. intros H1 H2 H3. unfold lex_one. simpl. by rewrite H1, H2, H3. Qed.

Lemma lex_one_COMMA s text rest lexer_lineno :
  regex_match t_COMMENT_re s = None ->
  regex_match t_newline_re s = None ->
  regex_match t_VALUE_re s = None ->
  regex_match t_COMMA s = Some (text, rest) ->
  lex_one s lexer_lineno =
  Return (Token COMMA text lexer_lineno) (String.length text) lexer_lineno.
Proof. intros H1 H2 H3 H4. unfold lex_one. simpl. by rewrite H1, H2, H3, H4. Qed.

Lemma lex_one_SEMICOLON s text rest lexer_lineno :
  regex_match t_COMMENT_re s = None ->
  regex_match t_newline_re s = None ->
  regex_match t_VALUE_re s = None ->
  regex_match t_COMMA s = None ->
  regex_match t_SEMICOLON s = Some (text, rest) ->
  lex_one s lexer_lineno =
  Return (Token SEMICOLON text lexer_lineno) (String.length text) lexer_lineno.
Proof.
  intros H1 H2 H3 H4 H5. unfold lex_one. simpl. by rewrite H1, H2, H3, H4, H5.
Qed.

(** *** A separator, a value *)

Lemma stops_append p (v rest : string) :
  v <> "" -> stops p (v +:+ rest) = stops p v.
Proof. by destruct v. Qed.

Lemma starts_field_append (v rest : string) :
  starts_field v = true -> starts_field (v +:+ rest) = true.
Proof. by destruct v. Qed.

Lemma starts_field_nonempty v : starts_field v = true -> v <> "".
Proof. by destruct v. Qed.

Lemma follows_stops next :
  follows next ->
  stops white next = true /\ stops (one_of ["!"%char]) next = true.
Proof.
  intros [-> | H]; [done |]. apply starts_field_stops in H as (? & ? & _). done.
Qed.

Lemma parser_on_separator sep b rest lexer_lineno objects st :
  sep = ","%char \/ sep = ";"%char ->
  all_chars blank b = true -> stops blank rest = true ->
  parser_on (String sep (b +:+ rest)) lexer_lineno objects st =
  parser_run
    ((Token (if decide (sep = ","%char) then COMMA else SEMICOLON) (String sep b)
        lexer_lineno, lexer_lineno) :: (token_stream rest 0 lexer_lineno).1)
    (token_stream rest 0 lexer_lineno).2 objects st.
Proof.
  intros Hsep Hb Hrest.
  assert (H1 : regex_match t_COMMENT_re (String sep b +:+ rest) = None).
  { apply (t_COMMENT_refuses "" (String sep b +:+ rest)); [done | |];
      destruct Hsep as [-> | ->]; reflexivity. }
  assert (H2 : regex_match t_newline_re (String sep b +:+ rest) = None).
  { apply (t_newline_refuses "" (String sep b +:+ rest)); [done |].
    destruct Hsep as [-> | ->]; reflexivity. }
  assert (H3 : regex_match t_VALUE_re (String sep b +:+ rest) = None).
  { apply t_VALUE_refuses. destruct Hsep as [-> | ->]; reflexivity. }
  change (String sep (b +:+ rest)) with (String sep b +:+ rest).
  apply parser_on_Return; [done |].
  destruct Hsep as [-> | ->].
  - rewrite decide_True by done.
    eapply lex_one_COMMA; [done | done | done |].
    by apply (separator_reads ","%char).
  - rewrite decide_False by done.
    eapply lex_one_SEMICOLON; [done | done | done | |].
    + apply (separator_refuses ","%char); reflexivity.
    + by apply (separator_reads ";"%char).
Qed.

Lemma parser_on_value b v rest lexer_lineno objects st :
  all_chars blank b = true -> starts_field v = true ->
  all_chars value_char v = true -> stops value_char rest = true ->
  parser_on (b +:+ v +:+ rest) lexer_lineno objects st =
  parser_run
    ((Token VALUE (b +:+ v) lexer_lineno, lexer_lineno)
       :: (token_stream rest 0 lexer_lineno).1)
    (token_stream rest 0 lexer_lineno).2 objects st.
Proof.
  intros Hb Hv Hall Hrest.
  pose proof (starts_field_stops _ Hv) as (Hw & Hbang & _).
  pose proof (starts_field_nonempty _ Hv) as Hne.
  assert (H1 : regex_match t_COMMENT_re (b +:+ v +:+ rest) = None).
  { apply t_COMMENT_refuses; [| by rewrite stops_append ..].
    eapply all_chars_weaken; [apply blank_white | exact Hb]. }
  assert (H2 : regex_match t_newline_re (b +:+ v +:+ rest) = None).
  { apply t_newline_refuses; [done | by rewrite stops_append]. }
  rewrite <- append_assoc_string in *.
  apply parser_on_Return.
  { destruct b; [by rewrite ?append_nil_l | done]. }
  eapply lex_one_VALUE; [done | done |]. by apply t_VALUE_reads.
Qed.

(** [strip] takes the blanks before a plain field away. *)
Lemma plain_field_facts f :
  plain_field f = true ->
  starts_field f = true /\ strip f = f /\ all_chars value_char f = true.
Proof.
  unfold plain_field. rewrite !andb_true_iff, bool_decide_eq_true. tauto.
Qed.

Lemma lstrip_blanks b f :
  all_chars blank b = true -> lstrip (b +:+ f) = lstrip f.
Proof.
  induction b as [|c b IH]; [done |]. cbn [all_chars].
  intros [Hc Hb]%andb_true_iff. rewrite append_String. cbn [lstrip].
  by rewrite (white_is_space c (blank_white c Hc)), IH.
Qed.

Lemma strip_indent b f :
  all_chars blank b = true -> plain_field f = true -> strip (b +:+ f) = f.
Proof.
  intros Hb Hf. apply plain_field_facts in Hf as (_ & Hf & _).
  unfold strip in *. by rewrite lstrip_blanks.
Qed.

(** *** The ends of lines *)

Lemma lines_text_cons l ls : lines_text (l :: ls) = line_text l +:+ lines_text ls.
Proof. reflexivity. Qed.

Lemma line_text_plain b : line_text (b, None) = b +:+ nl.
Proof. reflexivity. Qed.

Lemma line_text_comment b c : line_text (b, Some c) = b +:+ String "!" c +:+ nl.
Proof. reflexivity. Qed.

Lemma nl_append s : nl +:+ s = String LF s.
Proof. reflexivity. Qed.

Lemma all_chars_nl : all_chars white nl = true.
Proof. reflexivity. Qed.

Lemma first_comment_Some ls w c ls'' :
  first_comment ls = Some (w, c, ls'') -> forallb line_ok ls = true ->
  lines_text ls = (w +:+ String "!" c) +:+ String LF (lines_text ls'') /\
  all_chars white w = true /\ all_chars not_LF c = true /\
  forallb line_ok ls'' = true.
Proof.
  revert w. induction ls as [|[b [c'|]] ls IH]; intros w; cbn [first_comment]; [done | |].
  - intros [= <- <- <-]. cbn [forallb]. unfold line_ok at 1. cbn [fst snd].
    rewrite !andb_true_iff. intros [[Hb Hc] Hls].
    rewrite lines_text_cons, line_text_comment.
    rewrite !append_assoc_string, append_String, nl_append.
    repeat split; try done.
    eapply all_chars_weaken; [apply blank_white | exact Hb].
  - destruct (first_comment ls) as [[[w' c'] ls']|] eqn:E; [| done].
    intros [= <- <- <-]. cbn [forallb]. unfold line_ok at 1. cbn [fst snd].
    rewrite !andb_true_iff. intros [[Hb _] Hls].
    destruct (IH w' eq_refl Hls) as (Ht & Hw & Hc & Hok).
    rewrite lines_text_cons, line_text_plain, Ht.
    rewrite !append_assoc_string.
    repeat split; try done.
    rewrite !all_chars_append, Hw, all_chars_nl, !andb_true_r.
    eapply all_chars_weaken; [apply blank_white | exact Hb].
Qed.

Lemma first_comment_None ls :
  first_comment ls = None -> forallb line_ok ls = true ->
  all_chars white (lines_text ls) = true /\ Forall (fun l => l.2 = None) ls.
Proof.
  induction ls as [|[b [c'|]] ls IH]; cbn [first_comment]; [done | done |].
  destruct (first_comment ls) as [[[w' c'] ls']|] eqn:E; [done |].
  intros _. cbn [forallb]. unfold line_ok at 1. cbn [fst snd].
  rewrite !andb_true_iff. intros [[Hb _] Hls].
  destruct (IH eq_refl Hls) as [Hw Hall].
  split; [| by constructor].
  rewrite lines_text_cons, line_text_plain, !all_chars_append, Hw, all_chars_nl.
  rewrite !andb_true_r.
  eapply all_chars_weaken; [apply blank_white | exact Hb].
Qed.

Lemma skip_empty_ok ls :
  forallb line_ok ls = true -> forallb line_ok (skip_empty ls) = true.
Proof.
  induction ls as [|[[|d b] [c|]] ls IH]; try done.
  all: cbn [skip_empty forallb]; rewrite andb_true_iff; intros [_ H]; auto.
Qed.

Lemma skip_empty_length ls :
  (String.length (lines_text (skip_empty ls)) <= String.length (lines_text ls))%nat.
Proof.
  induction ls as [|[[|d b] [c|]] ls IH]; try done.
  all: cbn [skip_empty]; rewrite lines_text_cons, length_append_string; lia.
Qed.

(** The repetition of [\r?\n] reads the empty lines. *)
Lemma t_newline_break_run ls tail fuel :
  Forall (fun l : written_line => l.2 = None) ls -> forallb line_ok ls = true ->
  stops line_end tail = true ->
  (String.length (lines_text ls +:+ tail) < fuel)%nat ->
  re_match fuel (Star t_newline_break) (lines_text ls +:+ tail) Some =
  Some (lines_text (skip_empty ls) +:+ tail).
Proof.
  intros Hnone Hok Htail. revert fuel.
  induction ls as [|[b c] ls IH]; intros fuel Hfuel.
  - destruct fuel as [|fuel]; [lia |].
    rewrite re_match_Star, t_newline_break_refuses; done.
  - apply Forall_cons in Hnone as [Hc Hnone]. simpl in Hc. subst c.
    cbn [forallb] in Hok. apply andb_true_iff in Hok as [Hb Hok].
    unfold line_ok in Hb. cbn [fst snd] in Hb. rewrite andb_true_r in Hb.
    destruct fuel as [|fuel]; [lia |].
    rewrite lines_text_cons, line_text_plain in *.
    destruct b as [|d b].
    + cbn [skip_empty]. change ("" +:+ nl) with nl in *.
      rewrite append_assoc_string, nl_append in *.
      rewrite re_match_Star, t_newline_break_LF.
      assert ((String.length (lines_text ls +:+ tail) <?
               String.length (String LF (lines_text ls +:+ tail)))%nat = true) as ->
        by (apply Nat.ltb_lt; simpl; lia).
      rewrite IH; [done | done | done |]. simpl in Hfuel. lia.
    + cbn [skip_empty]. rewrite lines_text_cons, line_text_plain.
      rewrite re_match_Star, t_newline_break_refuses; [done |].
      rewrite !append_assoc_string, append_String. cbn [stops].
      cbn [all_chars] in Hb. apply andb_true_iff in Hb as [Hd _].
      apply negb_true_iff. destruct (line_end d) eqn:E; [| done].
      unfold blank in Hd. apply one_of_true in Hd. apply one_of_true in E.
      rewrite !elem_of_cons, elem_of_nil in *.
      destruct E as [-> | [-> | []]]; destruct Hd as [Hd | [Hd | []]]; discriminate.
Qed.

(** What follows some lines and the blanks after them starts with no end
    of a line. *)
Lemma indent_stops_line_end indent next :
  all_chars blank indent = true -> follows next ->
  stops line_end (indent +:+ next) = true.
Proof.
  intros Hi Hn. destruct indent as [|d indent].
  - change ("" +:+ next) with next.
    eapply stops_weaken; [apply line_end_white |]. by apply follows_stops.
  - rewrite append_String. cbn [stops all_chars] in *.
    apply andb_true_iff in Hi as [Hd _].
    apply negb_true_iff. destruct (line_end d) eqn:E; [| done].
    unfold blank in Hd. apply one_of_true in Hd. apply one_of_true in E.
    rewrite !elem_of_cons, elem_of_nil in *.
    destruct E as [-> | [-> | []]]; destruct Hd as [Hd | [Hd | []]]; discriminate.
Qed.

Lemma t_newline_reads_lines b ls tail :
  all_chars blank b = true ->
  Forall (fun l : written_line => l.2 = None) ls -> forallb line_ok ls = true ->
  stops line_end tail = true ->
  exists text,
    text <> "" /\
    (b +:+ nl) +:+ lines_text ls +:+ tail = text +:+ lines_text (skip_empty ls) +:+ tail /\
    regex_match t_newline_re ((b +:+ nl) +:+ lines_text ls +:+ tail) =
    Some (text, lines_text (skip_empty ls) +:+ tail).
Proof.
  intros Hb Hnone Hok Htail.
  set (s := (b +:+ nl) +:+ lines_text ls +:+ tail).
  assert (Hm : re_match (S (String.length s)) t_newline_re s Some =
               Some (lines_text (skip_empty ls) +:+ tail)).
  { unfold s, t_newline_re, Plus. fold t_newline_break.
    rewrite append_assoc_string, re_match_Cat.
    eapply re_match_Star_greedy; [apply reads_class_Class | exact Hb | reflexivity | lia |].
    rewrite nl_append, re_match_Cat, t_newline_break_LF.
    apply t_newline_break_run; try done. string_length. }
  assert (Hr : regex_match t_newline_re s =
               Some (take_string (String.length s -
                        String.length (lines_text (skip_empty ls) +:+ tail)) s,
                     lines_text (skip_empty ls) +:+ tail)).
  { unfold regex_match. by rewrite Hm. }
  destruct (regex_match_Some _ _ _ _ Hr) as [Hs Hne].
  eexists. split; [by apply Hne |]. split; [exact Hs | exact Hr].
Qed.

(** The lexer drops the ends of lines: it returns the tokens of what
    follows them. *)
Lemma token_stream_drops_lines m :
  forall ls, (String.length (lines_text ls) < m)%nat ->
  forallb line_ok ls = true ->
  forall indent next lexer_lineno,
    all_chars blank indent = true -> follows next ->
    exists lineno',
      token_stream (lines_text ls +:+ indent +:+ next) 0 lexer_lineno =
      token_stream (indent +:+ next) 0 lineno'.
Proof.
  induction m as [|m IH]; intros ls Hm Hok indent next n Hi Hn; [lia |].
  destruct ls as [|l ls]; [by exists n |].
  destruct (first_comment (l :: ls)) as [[[w c] ls'']|] eqn:E.
  - destruct (first_comment_Some _ _ _ _ E Hok) as (Ht & Hw & Hc & Hok'').
    destruct (IH (("", None) :: ls'')) with (indent := indent) (next := next)
      (lexer_lineno := n) as [n' Hn']; try done.
    { rewrite Ht in Hm. change (lines_text (("", None) :: ls''))
        with (String LF (lines_text ls'')). revert Hm. string_length. }
    exists n'. rewrite <- Hn', Ht.
    change (lines_text (("", None) :: ls'') +:+ indent +:+ next)
      with (String LF (lines_text ls'' +:+ indent +:+ next)).
    rewrite (append_assoc_string (w +:+ String "!" c)).
    change (String LF (lines_text ls'') +:+ indent +:+ next)
      with (String LF (lines_text ls'' +:+ indent +:+ next)).
    apply token_stream_Skip; [by destruct w |].
    eapply lex_one_COMMENT. by apply t_COMMENT_reads.
  - destruct (first_comment_None _ E Hok) as [Hw Hnone].
    destruct l as [b c]. apply Forall_cons in Hnone as [Hc Hnone].
    simpl in Hc. subst c.
    pose proof Hok as Hok'. cbn [forallb] in Hok'.
    apply andb_true_iff in Hok' as [Hb Hokls].
    unfold line_ok in Hb. cbn [fst snd] in Hb. rewrite andb_true_r in Hb.
    pose proof (indent_stops_line_end _ _ Hi Hn) as Htail.
    destruct (t_newline_reads_lines b ls (indent +:+ next) Hb Hnone Hokls Htail)
      as (text & Hne & Hs & Hr).
    destruct (IH (skip_empty ls)) with (indent := indent) (next := next)
      (lexer_lineno := (n + Z.of_nat (String.length text))%Z) as [n' Hn']; try done.
    { pose proof (skip_empty_length ls). revert Hm.
      rewrite lines_text_cons, line_text_plain. string_length. }
    { by apply skip_empty_ok. }
    exists n'. rewrite <- Hn'.
    rewrite lines_text_cons, line_text_plain.
    assert (Hc : regex_match t_COMMENT_re
                   ((b +:+ nl) +:+ lines_text ls +:+ indent +:+ next) = None).
    { destruct (follows_stops _ Hn) as [Hn1 Hn2].
      replace ((b +:+ nl) +:+ lines_text ls +:+ indent +:+ next)
        with ((lines_text ((b, None) :: ls) +:+ indent) +:+ next)
        by (rewrite lines_text_cons, line_text_plain; by rewrite !append_assoc_string).
      apply t_COMMENT_refuses; [| done | done].
      rewrite all_chars_append, Hw. cbn [andb].
      eapply all_chars_weaken; [apply blank_white | exact Hi]. }
    rewrite (append_assoc_string (b +:+ nl)).
    rewrite Hs. apply token_stream_Skip; [done |].
    rewrite <- Hs. by eapply lex_one_newline.
Qed.

(** *** A separator and what follows it *)

Lemma token_stream_separator sep g next lexer_lineno :
  sep = ","%char \/ sep = ";"%char ->
  gap_ok g = true -> follows next ->
  exists b indent lineno',
    all_chars blank indent = true /\
    (gap_ends g = true -> indent = "") /\
    forall objects st,
      parser_on (String sep (gap_text g +:+ next)) lexer_lineno objects st =
      parser_run
        ((Token (if decide (sep = ","%char) then COMMA else SEMICOLON) (String sep b)
            lexer_lineno, lexer_lineno) :: (token_stream (indent +:+ next) 0 lineno').1)
        (token_stream (indent +:+ next) 0 lineno').2 objects st.
Proof.
  intros Hsep Hg Hn. unfold gap_ok in Hg. apply andb_true_iff in Hg as [Hls Hi].
  unfold gap_text, gap_ends. destruct g as [[|[b c] ls] indent]; cbn [gap_lines gap_indent] in *.
  - exists indent, "", lexer_lineno. split; [done |]. split; [done |].
    intros objects st. change (lines_text [] +:+ indent) with indent.
    apply parser_on_separator; [done | done |].
    destruct Hn as [-> | Hn]; [done |].
    apply starts_field_stops in Hn as (Hn & _ & _).
    eapply stops_weaken; [apply blank_white | exact Hn].
  - pose proof Hls as Hls'. cbn [forallb] in Hls'.
    apply andb_true_iff in Hls' as [Hl Hls'].
    unfold line_ok in Hl. cbn [fst snd] in Hl. apply andb_true_iff in Hl as [Hb Hc].
    destruct (token_stream_drops_lines
                (S (String.length (lines_text (("", c) :: ls)))) (("", c) :: ls))
      with (indent := indent) (next := next) (lexer_lineno := lexer_lineno)
      as [n' Hn']; try done.
    { lia. }
    { cbn [forallb]. rewrite Hls', andb_true_r. unfold line_ok. cbn [fst snd].
      by rewrite Hc. }
    exists b, indent, n'. split; [done |]. split; [by destruct indent |].
    intros objects st. rewrite <- Hn'.
    replace (lines_text ((b, c) :: ls) +:+ indent)
      with (b +:+ lines_text (("", c) :: ls) +:+ indent).
    2:{ rewrite !lines_text_cons. unfold line_text. cbn [fst snd].
        change ("" +:+ comment_of c +:+ nl) with (comment_of c +:+ nl).
        by rewrite !append_assoc_string. }
    rewrite !append_assoc_string.
    apply parser_on_separator; [done | done |].
    rewrite lines_text_cons. unfold line_text. cbn [fst snd].
    by destruct c.
Qed.

(** *** The fields of an object *)

Lemma plain_field_follows f rest : plain_field f = true -> follows (f +:+ rest).
Proof.
  intros Hf. apply plain_field_facts in Hf as (Hf & _ & _).
  right. by apply starts_field_append.
Qed.

Lemma fields_text_follows (o : written_object) rest :
  object_ok o = true -> follows (fields_text o rest).
Proof.
  destruct o as [|[f g] o]; [done |]. cbn [object_ok forallb fst].
  rewrite !andb_true_iff. intros [[Hf _] _]. cbn [fields_text].
  by apply plain_field_follows.
Qed.

Lemma parser_on_fields (o : written_object) :
  forall indent rest lexer_lineno objects name values,
    o <> [] ->
    forallb (fun fg => plain_field fg.1 && gap_ok fg.2) o = true ->
    all_chars blank indent = true -> follows rest ->
    exists indent' lineno',
      all_chars blank indent' = true /\
      ((forall fg, last o = Some fg -> gap_ends fg.2 = true) -> indent' = "") /\
      parser_on (indent +:+ fields_text o rest) lexer_lineno objects
        (AtValue name values) =
      parser_on (indent' +:+ rest) lineno'
        (objects ++ [name :: (strip <$> values) ++ o.*1]) AtObject.
Proof.
  induction o as [|[f g] o IH]; intros indent rest n objects name values Hne Hok Hi Hrest;
    [done |].
  cbn [forallb fst snd] in Hok. rewrite !andb_true_iff in Hok.
  destruct Hok as [[Hf Hg] Hok].
  pose proof (plain_field_facts _ Hf) as (Hf1 & Hf2 & Hf3).
  cbn [fields_text].
  destruct o as [|fg' o'].
  - (* the last field *)
    destruct (token_stream_separator ";" g rest n) as (b & indent' & n' & Hi' & Hend & Hsep);
      [by right | done | done |].
    exists indent', n'. split; [done |]. split.
    { intros Hlast. apply Hend. by apply (Hlast (f, g)). }
    rewrite parser_on_value; [| done | done | done | done].
    cbn [parser_run tok_type tok_value]. fold (parser_on
      (String ";" (gap_text g +:+ fields_text [] rest)) n objects
      (AfterValue name values (indent +:+ f))).
    cbn [fields_text]. rewrite Hsep. cbn [parser_run tok_type decide].
    rewrite decide_False by done. cbn [tok_type].
    unfold parser_on. unfold p_idfobject_with_values.
    rewrite reduce_valuelist_snoc, fmap_app. cbn [fmap list_fmap].
    by rewrite strip_indent.
  - (* a field before a comma *)
    set (o := fg' :: o') in *.
    assert (Hnext : follows (fields_text o rest)).
    { apply fields_text_follows. unfold object_ok, o. exact Hok. }
    destruct (token_stream_separator "," g (fields_text o rest) n)
      as (b & indent1 & n1 & Hi1 & _ & Hsep); [by left | done | done |].
    destruct (IH indent1 rest n1 objects name (values ++ [indent +:+ f]))
      as (indent' & n' & Hi' & Hend & Hrun); try done.
    exists indent', n'. split; [done |]. split; [exact Hend |].
    rewrite parser_on_value; [| done | done | done | done].
    cbn [parser_run tok_type tok_value].
    fold (parser_on (String "," (gap_text g +:+ fields_text o rest)) n objects
            (AfterValue name values (indent +:+ f))).
    rewrite Hsep. rewrite decide_True by done. cbn [parser_run tok_type].
    fold (parser_on (indent1 +:+ fields_text o rest) n1 objects
            (AtValue name (values ++ [indent +:+ f]))).
    rewrite Hrun. rewrite fmap_app. cbn [fmap list_fmap].
    rewrite strip_indent by done. by rewrite <- app_assoc.
Qed.

Lemma parser_on_object (o : written_object) indent rest lexer_lineno objects :
  object_ok o = true ->
  all_chars blank indent = true -> follows rest ->
  exists indent' lineno',
    all_chars blank indent' = true /\
    ((forall fg, last o = Some fg -> gap_ends fg.2 = true) -> indent' = "") /\
    parser_on (indent +:+ fields_text o rest) lexer_lineno objects AtObject =
    parser_on (indent' +:+ rest) lineno' (objects ++ [o.*1]) AtObject.
Proof.
  destruct o as [|[f g] o]; [done |]. cbn [object_ok].
  intros Hok Hi Hrest.
  cbn [forallb fst snd] in Hok. rewrite !andb_true_iff in Hok.
  destruct Hok as [[Hf Hg] Hok].
  pose proof (plain_field_facts _ Hf) as (Hf1 & Hf2 & Hf3).
  cbn [fields_text].
  destruct o as [|fg' o'].
  - destruct (token_stream_separator ";" g rest lexer_lineno)
      as (b & indent' & n' & Hi' & Hend & Hsep); [by right | done | done |].
    exists indent', n'. split; [done |]. split.
    { intros Hlast. apply Hend. by apply (Hlast (f, g)). }
    rewrite parser_on_value; [| done | done | done | done].
    cbn [parser_run tok_type tok_value].
    fold (parser_on (String ";" (gap_text g +:+ fields_text [] rest)) lexer_lineno
            objects (AfterName (p_objectname (indent +:+ f)))).
    cbn [fields_text]. rewrite Hsep. rewrite decide_False by done.
    cbn [parser_run tok_type]. unfold parser_on, p_objectname, p_idfobject.
    by rewrite strip_indent.
  - set (o := fg' :: o') in *.
    assert (Hnext : follows (fields_text o rest)).
    { apply fields_text_follows. unfold object_ok, o. exact Hok. }
    destruct (token_stream_separator "," g (fields_text o rest) lexer_lineno)
      as (b & indent1 & n1 & Hi1 & _ & Hsep); [by left | done | done |].
    destruct (parser_on_fields o indent1 rest n1 objects (p_objectname (indent +:+ f)) [])
      as (indent' & n' & Hi' & Hend & Hrun); try done.
    exists indent', n'. split; [done |]. split; [exact Hend |].
    rewrite parser_on_value; [| done | done | done | done].
    cbn [parser_run tok_type tok_value].
    fold (parser_on (String "," (gap_text g +:+ fields_text o rest)) lexer_lineno
            objects (AfterName (p_objectname (indent +:+ f)))).
    rewrite Hsep. rewrite decide_True by done. cbn [parser_run tok_type].
    fold (parser_on (indent1 +:+ fields_text o rest) n1 objects
            (AtValue (p_objectname (indent +:+ f)) [])).
    rewrite Hrun. unfold p_objectname. by rewrite strip_indent.
Qed.

(** *** The objects of a text *)

Lemma objects_text_follows (os : list written_object) :
  forallb object_ok os = true -> follows (objects_text os).
Proof.
  destruct os as [|o os]; [by left |]. cbn [forallb objects_text].
  rewrite andb_true_iff. intros [Ho _]. by apply fields_text_follows.
Qed.

Lemma parser_on_objects (os : list written_object) :
  forall indent lexer_lineno objects,
    forallb object_ok os = true ->
    all_chars blank indent = true ->
    match os with
    | [] => objects <> [] /\ indent = ""
    | _ => forall o fg, last os = Some o -> last o = Some fg -> gap_ends fg.2 = true
    end ->
    parser_on (indent +:+ objects_text os) lexer_lineno objects AtObject =
    Ok (objects ++ ((fun o : written_object => o.*1) <$> os)).
Proof.
  induction os as [|o os IH]; intros indent n objects Hok Hi Hend.
  - destruct Hend as [Hne ->].
    change (parser_on ("" +:+ objects_text []) n objects AtObject)
      with (parser_run [] (AtEnd n) objects AtObject).
    cbn [parser_run].
    destruct (unsnoc objects) as [[init lst]|] eqn:E.
    + apply unsnoc_Some in E. subst objects.
      by rewrite reduce_idfobjectlist_snoc, app_nil_r.
    + destruct objects as [|x objects]; [done |]. simpl in E.
      by destruct (unsnoc objects) as [[]|].
  - cbn [forallb] in Hok. apply andb_true_iff in Hok as [Ho Hos].
    cbn [objects_text].
    destruct (parser_on_object o indent (objects_text os) n objects)
      as (indent' & n' & Hi' & Hstop & Hrun); [done | done | by apply objects_text_follows |].
    rewrite Hrun, IH; [| done | done |].
    + cbn [fmap list_fmap]. by rewrite <- app_assoc.
    + destruct os as [|o' os'].
      * split; [by destruct objects |]. apply Hstop. intros fg Hfg.
        by apply (Hend o fg).
      * intros o1 fg Ho1 Hfg. by apply (Hend o1 fg).
Qed.

(** X5.  [parse] reads back what is written: for a text that holds
    objects with plain fields, separated by commas and ended by
    semicolons, with blanks, comments and line breaks after the
    separators, it returns the mapping of exactly these objects, with
    their fields as written, grouped by their type in upper case.  The
    comments and the layout leave no trace. *)
Theorem parse_reads_written_objects lead (os : list written_object) :
  idf_text_ok lead os = true ->
  exists d,
    parse (idf_text lead os) = Ok d /\
    forall key,
      d !! key =
      match records_of_type key ((fun o : written_object => o.*1) <$> os) with
      | [] => None
      | records => Some records
      end.
Proof.
  unfold idf_text_ok. rewrite !andb_true_iff. intros [[Hlead Hos] Hend].
  assert (Hne : os <> []) by (by destruct os).
  set (objects := (fun o : written_object => o.*1) <$> os).
  assert (Hrun : parser_on (idf_text lead os) 1 [] AtObject = Ok objects).
  { unfold gap_ok in Hlead. apply andb_true_iff in Hlead as [Hls Hi].
    destruct (token_stream_drops_lines
                (S (String.length (lines_text (gap_lines lead)))) (gap_lines lead))
      with (indent := gap_indent lead) (next := objects_text os) (lexer_lineno := 1%Z)
      as [n' Hn']; [lia | done | done | by apply objects_text_follows |].
    unfold idf_text, gap_text, parser_on. rewrite append_assoc_string, Hn'.
    apply (parser_on_objects os (gap_indent lead) n' []); [done | done |].
    destruct os as [|o os']; [done |].
    intros o1 fg Ho1 Hfg. rewrite Ho1 in Hend. simpl in Hend. by rewrite Hfg in Hend. }
  assert (Hall : Forall (fun o : idfobject => o <> []) objects).
  { unfold objects. clear -Hos. induction os as [|o os IH]; [constructor |].
    cbn [forallb] in Hos. apply andb_true_iff in Hos as [Ho Hos].
    rewrite fmap_cons. constructor; [by destruct o | auto]. }
  destruct (p_idffile_loop_returns objects ∅ Hall) as [d Hd].
  exists d. split.
  - change (parse (idf_text lead os))
      with (parser_on (idf_text lead os) 1 [] AtObject ≫= p_idffile).
    by rewrite Hrun.
  - intros key. by apply p_idffile_lookup.
Qed.

Section ExtractorMore.

Context {float : Type} (py_float : string -> option float).

Local Abbreviation zone_map := (gmap string (@ZoneGeometry float)).

Lemma zone_loop_names zs (zones zones' : zone_map) name :
  zone_loop py_float zs zones = Ok zones' ->
  is_Some (zones' !! name) <->
  is_Some (zones !! name) \/ exists zone, zone ∈ zs /\ zone !! 1%nat = Some name.
Proof.
  revert zones. induction zs as [|zone zs IH]; intros zones; simpl.
  - intros [= <-]. split; [auto |]. intros [H | (zone & Hin & _)]; [done |].
    by apply elem_of_nil in Hin.
  - intros H. bind_inv H. rename a into mid.
    apply zone_step_Ok in Ha as (n & x & y & z & Hn & _ & _ & _ & ->).
    rewrite (IH _ H). split.
    + intros [Hs | (zone' & Hin & Hz)].
      * destruct (decide (n = name)) as [-> | Hne].
        -- right. exists zone. split; [apply list_elem_of_here | done].
        -- left. by rewrite lookup_insert_ne in Hs.
      * right. exists zone'. split; [by apply list_elem_of_further | done].
    + intros [Hs | (zone' & Hin & Hz)].
      * left. destruct (decide (n = name)) as [-> | Hne].
        -- rewrite lookup_insert_eq. eauto.
        -- by rewrite lookup_insert_ne.
      * apply elem_of_cons in Hin as [-> | Hin].
        -- left. rewrite Hn in Hz. injection Hz as ->.
           rewrite lookup_insert_eq. eauto.
        -- right. eauto.
Qed.

Lemma zones_grow_is_Some (zones zones' : zone_map) name :
  zones_grow zones zones' -> is_Some (zones' !! name) <-> is_Some (zones !! name).
Proof.
  intros H. specialize (H name).
  destruct (zones !! name), (zones' !! name); done.
Qed.

(** X6.  The zones that [extract_zones] returns are the zones that the
    ZONE records name: a name has an entry in the result exactly when it
    is the second element of some ZONE record.  The surface records add
    and remove no zone. *)
Theorem extract_zones_names parsed_idf (zones : zone_map) printed name :
  extract_zones py_float parsed_idf = (Ok zones, printed) ->
  is_Some (zones !! name) <->
  exists zone, zone ∈ get_records parsed_idf "ZONE" /\ zone !! 1%nat = Some name.
Proof.
  intros Hex. apply extract_zones_Ok in Hex as (zones0 & Hz & _ & Hgrow).
  rewrite (zones_grow_is_Some _ _ _ Hgrow), (zone_loop_names _ _ _ _ Hz).
  rewrite lookup_empty. split; [| auto]. intros [[? ?] | H]; done.
Qed.

Lemma surface_step_surfaces (zones zones' : zone_map) surface out name zg :
  surface_step py_float zones surface = (Ok zones', out) ->
  zones !! name = Some zg ->
  exists zg', zones' !! name = Some zg' /\ origin zg' = origin zg /\
    surfaces zg' = surfaces zg ++ option_list (polygon_of py_float name surface).
Proof.
  unfold surface_step, polygon_of. intros H Hl.
  destruct (getitem surface 4) as [n|] eqn:En; [| discriminate].
  apply getitem_Ok in En. rewrite En.
  destruct (decide (is_Some (zones !! n))) as [Hk | Hk].
  - destruct (read_vertices py_float surface) as [vertices|[]] eqn:E;
      try discriminate; injection H as <- <-.
    + unfold append_surface. destruct Hk as [zgn Hzgn]. rewrite Hzgn.
      destruct (decide (n = name)) as [-> | Hne].
      * rewrite lookup_insert_eq. rewrite Hl in Hzgn. injection Hzgn as <-.
        rewrite decide_True by done. eexists. split; [done |]. by simpl.
      * rewrite lookup_insert_ne by done.
        rewrite decide_False by congruence.
        exists zg. simpl. by rewrite app_nil_r.
    + exists zg. case_decide; simpl; by rewrite app_nil_r.
  - injection H as <- <-. exists zg.
    rewrite decide_False; [simpl; by rewrite app_nil_r |].
    intros [= ->]. apply Hk. eauto.
Qed.

Lemma surface_loop_surfaces ss (zones zones' : zone_map) printed printed' name zg :
  surface_loop py_float ss zones printed = (Ok zones', printed') ->
  zones !! name = Some zg ->
  exists zg', zones' !! name = Some zg' /\ origin zg' = origin zg /\
    surfaces zg' = surfaces zg ++ omap (polygon_of py_float name) ss.
Proof.
  revert zones printed zg. induction ss as [|s ss IH]; intros zones printed zg; simpl.
  - intros [= <- _] Hl. exists zg. by rewrite app_nil_r.
  - destruct (surface_step py_float zones s) as [[mid|e] out] eqn:E; [| discriminate].
    intros H Hl.
    destruct (surface_step_surfaces _ _ _ _ _ _ E Hl) as (zg1 & Hl1 & Ho1 & Hs1).
    destruct (IH _ _ _ H Hl1) as (zg2 & Hl2 & Ho2 & Hs2).
    exists zg2. split; [done |]. split; [congruence |].
    rewrite Hs2, Hs1, <- app_assoc. f_equal.
    by destruct (polygon_of py_float name s).
Qed.

(** X7.  The surfaces of a returned zone are the polygons of the surface
    records that name the zone and whose vertices can be decoded, in the
    order of the records. *)
Theorem extract_zones_surfaces_in_order parsed_idf (zones : zone_map) printed name zg :
  extract_zones py_float parsed_idf = (Ok zones, printed) ->
  zones !! name = Some zg ->
  surfaces zg =
  omap (polygon_of py_float name) (get_records parsed_idf "BUILDINGSURFACE:DETAILED").
Proof.
  intros Hex Hl. apply extract_zones_Ok in Hex as (zones0 & Hz & Hs & Hgrow).
  destruct (zones_grow_lookup _ _ _ _ Hgrow Hl) as (zg0 & Hl0 & _).
  destruct (surface_loop_surfaces _ _ _ _ _ _ _ Hs Hl0) as (zg' & Hl' & _ & Hsurf).
  assert (zg' = zg) as -> by congruence.
  rewrite Hsurf.
  rewrite (zone_loop_no_surface py_float _ _ _ Hz) with (name := name) (zg := zg0);
    [done | | done].
  intros n z. by rewrite lookup_empty.
Qed.


(** *** What is printed *)

Lemma report_of_grow (zones zones' : zone_map) surface :
  zones_grow zones zones' ->
  report_of py_float zones' surface = report_of py_float zones surface.
Proof.
  intros H. unfold report_of. destruct (surface !! 4%nat) as [name|]; [| done].
  pose proof (zones_grow_is_Some _ _ name H) as Hiff.
  destruct (decide (is_Some (zones' !! name))), (decide (is_Some (zones !! name)));
    tauto.
Qed.

Lemma surface_step_report (zones zones' : zone_map) surface out :
  surface_step py_float zones surface = (Ok zones', out) ->
  out = report_of py_float zones surface.
Proof.
  unfold surface_step, report_of.
  destruct (getitem surface 4) as [n|] eqn:En; [| discriminate].
  apply getitem_Ok in En. rewrite En.
  destruct (decide (is_Some (zones !! n))); [| by intros [= _ <-]].
  destruct (read_vertices py_float surface) as [vertices|[]];
    try discriminate; by intros [= _ <-].
Qed.

Lemma surface_loop_report ss (zones zones' : zone_map) printed printed' :
  surface_loop py_float ss zones printed = (Ok zones', printed') ->
  printed' = printed ++ concat (report_of py_float zones' <$> ss).
Proof.
  revert zones printed. induction ss as [|s ss IH]; intros zones printed; simpl.
  - intros [= _ <-]. by rewrite app_nil_r.
  - destruct (surface_step py_float zones s) as [[mid|e] out] eqn:E; [| discriminate].
    intros H. rewrite (IH _ _ H), <- app_assoc. do 2 f_equal.
    rewrite (surface_step_report _ _ _ _ E). symmetry. apply report_of_grow.
    eapply zones_grow_trans; [by eapply surface_step_grows | by eapply surface_loop_grows].
Qed.

(** X9.  When [extract_zones] returns, it has printed one line for each
    surface record that names a returned zone and whose decoding raised
    [ValueError], in the order of the records, and nothing else. *)
Theorem extract_zones_reports parsed_idf (zones : zone_map) printed :
  extract_zones py_float parsed_idf = (Ok zones, printed) ->
  printed =
  concat (report_of py_float zones <$>
          get_records parsed_idf "BUILDINGSURFACE:DETAILED").
Proof.
  intros Hex. apply extract_zones_Ok in Hex as (zones0 & _ & Hs & _).
  by apply surface_loop_report in Hs.
Qed.

(** *** The vertices of a surface *)

(** X8.  The [try] block yields vertices exactly when the twelve
    elements after the first element equal to the text 4 exist and are
    all accepted by [float]; the vertices are these twelve numbers, three
    to a vertex, in their order. *)
Theorem read_vertices_decodes surface (vertices : list (@point float)) :
  read_vertices py_float surface = Ok vertices <->
  exists i fs,
    list_index surface "4" = Ok i /\
    Forall2 (fun s f => py_float s = Some f) (take 12 (drop (i + 1) surface)) fs /\
    length fs = 12%nat /\
    vertices = triples fs.
Proof.
  split.
  - intros H. apply read_vertices_count in H as (i & Hi & H).
    apply vertex_loop_Ok in H as (fs & Hfs & Hlen & ->).
    exists i, fs. rewrite Nat.add_0_r in Hfs. done.
  - intros (i & fs & Hi & Hfs & Hlen & ->). by eapply read_vertices_floats.
Qed.


(** *** The exceptions *)

Lemma float_at_Raise l i e :
  float_at py_float l i = Raise e ->
  e = IndexError \/ exists s, l !! i = Some s /\ e = ValueError (BadFloat s).
Proof.
  unfold float_at, getitem, float_. destruct (l !! i) as [s|]; simpl.
  - destruct (py_float s); [done |]. intros [= <-]. right. eauto.
  - intros [= <-]. by left.
Qed.

Lemma zone_step_Raise_cases (zones : zone_map) zone e :
  zone_step py_float zones zone = Raise e ->
  e = IndexError \/ exists s, s ∈ zone /\ e = ValueError (BadFloat s).
Proof.
  assert (Hfloat : forall i e', float_at py_float zone i = Raise e' ->
            e' = IndexError \/ exists s, s ∈ zone /\ e' = ValueError (BadFloat s)).
  { intros i e' H. apply float_at_Raise in H as [H | (s & Hs & H)]; [by left |].
    right. exists s. split; [by eapply list_elem_of_lookup_2 | done]. }
  unfold zone_step.
  destruct (getitem zone 1) eqn:E1; simpl.
  2:{ intros [= <-]. apply getitem_Raise in E1 as [-> _]. by left. }
  destruct (float_at py_float zone 3) eqn:E3; simpl; [| intros [= <-]; eauto].
  destruct (float_at py_float zone 4) eqn:E4; simpl; [| intros [= <-]; eauto].
  destruct (float_at py_float zone 5) eqn:E5; simpl; [done | intros [= <-]; eauto].
Qed.

Lemma zone_loop_Raise_cases zs (zones : zone_map) e :
  zone_loop py_float zs zones = Raise e ->
  e = IndexError \/
  exists zone s, zone ∈ zs /\ s ∈ zone /\ e = ValueError (BadFloat s).
Proof.
  revert zones. induction zs as [|zone zs IH]; intros zones; simpl; [done |].
  destruct (zone_step py_float zones zone) as [mid|e'] eqn:E; simpl.
  - intros H. apply IH in H as [H | (zone' & s & Hin & Hs & H)]; [by left |].
    right. exists zone', s. split; [by apply list_elem_of_further | done].
  - intros [= <-]. apply zone_step_Raise_cases in E as [E | (s & Hs & E)]; [by left |].
    right. exists zone, s. split; [apply list_elem_of_here | done].
Qed.

Lemma vertex_loop_Raise surface start i count (vertices : list (@point float)) e :
  vertex_loop py_float surface start i count vertices = Raise e ->
  e = IndexError \/ exists why, e = ValueError why.
Proof.
  assert (Hfloat : forall j e', float_at py_float surface j = Raise e' ->
            e' = IndexError \/ exists why, e' = ValueError why).
  { intros j e' H. apply float_at_Raise in H as [H | (s & _ & H)]; eauto. }
  revert i vertices. induction count as [|count IH]; intros i vertices; simpl; [done |].
  destruct (float_at py_float surface (start + i * 3)) eqn:E1; simpl;
    [| intros [= <-]; eauto].
  destruct (float_at py_float surface (start + i * 3 + 1)) eqn:E2; simpl;
    [| intros [= <-]; eauto].
  destruct (float_at py_float surface (start + i * 3 + 2)) eqn:E3; simpl;
    [| intros [= <-]; eauto].
  apply IH.
Qed.

Lemma read_vertices_Raise surface e :
  read_vertices py_float surface = Raise e ->
  e = IndexError \/ exists why, e = ValueError why.
Proof.
  unfold read_vertices.
  destruct (list_index surface "4") as [i|e'] eqn:Ei; simpl.
  2:{ intros [= <-]. apply index_from_Raise in Ei as [-> _]. eauto. }
  destruct (getitem surface i) as [field|e'] eqn:Ef; simpl.
  2:{ intros [= <-]. apply getitem_Raise in Ef as [-> _]. by left. }
  unfold int_. destruct (py_int field); simpl; [| intros [= <-]; eauto].
  apply vertex_loop_Raise.
Qed.

Lemma surface_step_Raise_cases (zones : zone_map) surface e out :
  surface_step py_float zones surface = (Raise e, out) ->
  e = IndexError /\ out = [].
Proof.
  unfold surface_step.
  destruct (getitem surface 4) as [n|e'] eqn:En.
  2:{ intros [= <- <-]. by apply getitem_Raise in En as [-> _]. }
  case_decide; [| done].
  destruct (read_vertices py_float surface) as [vertices|e'] eqn:E; [done |].
  apply read_vertices_Raise in E as [-> | [why ->]]; [| done].
  by intros [= <- <-].
Qed.

Lemma surface_loop_Raise_cases ss (zones : zone_map) printed e printed' :
  surface_loop py_float ss zones printed = (Raise e, printed') -> e = IndexError.
Proof.
  revert zones printed. induction ss as [|s ss IH]; intros zones printed; simpl; [done |].
  destruct (surface_step py_float zones s) as [[mid|e'] out] eqn:E.
  - apply IH.
  - intros [= <- _]. by apply surface_step_Raise_cases in E as [-> _].
Qed.

(** X10.  The only exceptions that leave [extract_zones] are
    [IndexError] and the [ValueError] of [float] for an element of a ZONE
    record; in the second case nothing has been printed.  No [ValueError]
    leaves the loop over the surfaces. *)
Theorem extract_zones_exceptions parsed_idf e printed :
  extract_zones py_float parsed_idf = (Raise e, printed) ->
  e = IndexError \/
  exists zone s,
    zone ∈ get_records parsed_idf "ZONE" /\ s ∈ zone /\
    e = ValueError (BadFloat s) /\ printed = [].
Proof.
  unfold extract_zones.
  destruct (zone_loop py_float (get_records parsed_idf "ZONE") ∅) as [zones0|e'] eqn:Ez.
  - intros H. left. by eapply surface_loop_Raise_cases.
  - intros [= <- <-].
    apply zone_loop_Raise_cases in Ez as [Ez | (zone & s & Hin & Hs & Ez)]; [by left |].
    right. by exists zone, s.
Qed.

(** *** When the extractor returns *)

Lemma zone_step_returns (zones : zone_map) zone :
  (exists zones', zone_step py_float zones zone = Ok zones') <-> zone_ok py_float zone.
Proof.
  unfold zone_ok. split.
  - intros [zones' H].
    apply zone_step_Ok in H as (n & x & y & z & Hn & H3 & H4 & H5 & _).
    apply float_at_Ok in H3 as (s3 & Hs3 & Hf3), H4 as (s4 & Hs4 & Hf4),
      H5 as (s5 & Hs5 & Hf5).
    split; [apply lookup_lt_Some in Hs5; lia |].
    intros i s Hi Hs.
    assert (i = 3 \/ i = 4 \/ i = 5)%nat as [-> | [-> | ->]] by lia;
      simplify_eq; eauto.
  - intros [Hlen Hnum]. unfold zone_step.
    destruct (lookup_lt_is_Some_2 zone 1) as [n Hn]; [lia |].
    unfold getitem at 1. rewrite Hn. cbn [mbind result_bind].
    destruct (float_at_numeric py_float zone 3) as [x ->]; [lia | eauto with lia |].
    destruct (float_at_numeric py_float zone 4) as [y ->]; [lia | eauto with lia |].
    destruct (float_at_numeric py_float zone 5) as [z ->]; [lia | eauto with lia |].
    cbn [mbind result_bind]. eauto.
Qed.

Lemma zone_loop_returns zs (zones : zone_map) :
  (exists zones', zone_loop py_float zs zones = Ok zones') <->
  Forall (zone_ok py_float) zs.
Proof.
  revert zones. induction zs as [|zone zs IH]; intros zones; simpl.
  - split; [constructor | eauto].
  - rewrite Forall_cons, <- (zone_step_returns zones). split.
    + intros [zones' H]. bind_inv H. split; [eauto |]. apply (IH a). eauto.
    + intros [[mid Hmid] Hzs]. rewrite Hmid. cbn [mbind result_bind]. by apply IH.
Qed.

Lemma surface_step_returns (zones : zone_map) surface :
  (exists zones' out, surface_step py_float zones surface = (Ok zones', out)) <->
  surface_fine py_float zones surface.
Proof.
  unfold surface_fine, surface_step. split.
  - intros (zones' & out & H).
    destruct (getitem surface 4) as [n|] eqn:En; [| done].
    apply getitem_Ok in En. exists n. split; [done |]. intros Hk.
    rewrite decide_True in H by done.
    destruct (read_vertices py_float surface) as [|[]]; done.
  - intros (n & Hn & Hfine). unfold getitem. rewrite Hn.
    case_decide as Hk; [| eauto].
    specialize (Hfine Hk).
    destruct (read_vertices py_float surface) as [vs|e] eqn:E; [eauto |].
    apply read_vertices_Raise in E as [-> | [why ->]]; [done | eauto].
Qed.

Lemma surface_fine_grow (zones zones' : zone_map) surface :
  zones_grow zones zones' -> surface_fine py_float zones' surface <-> surface_fine py_float zones surface.
Proof.
  intros H. unfold surface_fine.
  split; intros (n & Hn & Hf); exists n; (split; [done |]);
    intros Hk; apply Hf; by apply (zones_grow_is_Some _ _ n H).
Qed.

Lemma surface_loop_returns ss (zones : zone_map) printed :
  (exists zones' printed', surface_loop py_float ss zones printed = (Ok zones', printed')) <->
  Forall (surface_fine py_float zones) ss.
Proof.
  revert zones printed. induction ss as [|s ss IH]; intros zones printed; simpl.
  - split; [constructor | eauto].
  - rewrite Forall_cons, <- surface_step_returns. split.
    + intros (zones' & printed' & H).
      destruct (surface_step py_float zones s) as [[mid|e] out] eqn:E; [| done].
      split; [eauto |].
      assert (Hss : Forall (surface_fine py_float mid) ss) by (apply (IH mid (printed ++ out)); eauto).
      eapply Forall_impl; [exact Hss |]. intros s' Hs'.
      apply (proj1 (surface_fine_grow zones mid s' ltac:(by eapply surface_step_grows))).
      exact Hs'.
    + intros [(mid & out & E) Hss]. rewrite E. apply IH.
      eapply Forall_impl; [exact Hss |]. intros s' Hs'.
      apply (proj2 (surface_fine_grow zones mid s' ltac:(by eapply surface_step_grows))).
      exact Hs'.
Qed.

(** X11.  [extract_zones] returns exactly when every ZONE record has at
    least six elements of which the fourth to the sixth are accepted by
    [float], and every surface record has a fifth element and, if that
    names the zone of a ZONE record, has its vertices decoded without an
    [IndexError]. *)
Theorem extract_zones_returns_iff parsed_idf :
  (exists zones printed, extract_zones py_float parsed_idf = (Ok zones, printed)) <->
  Forall (zone_ok py_float) (get_records parsed_idf "ZONE") /\
  Forall (surface_ok py_float (get_records parsed_idf "ZONE"))
    (get_records parsed_idf "BUILDINGSURFACE:DETAILED").
Proof.
  rewrite <- (zone_loop_returns _ ∅). unfold extract_zones.
  set (zs := get_records parsed_idf "ZONE").
  destruct (zone_loop py_float zs ∅) as [zones0|e] eqn:Ez.
  - rewrite surface_loop_returns.
    assert (Hsame : forall s, surface_fine py_float zones0 s <-> surface_ok py_float zs s).
    { intros s. unfold surface_fine, surface_ok.
      split; intros (n & Hn & Hf); exists n; (split; [done |]);
        intros Hk; apply Hf.
      - apply (zone_loop_names _ _ _ n Ez). by right.
      - apply (zone_loop_names _ _ _ n Ez) in Hk as [Hk | Hk]; [| done].
        rewrite lookup_empty in Hk. by destruct Hk. }
    split.
    + intros H. split; [eauto |]. eapply Forall_impl; [exact H |]. apply Hsame.
    + intros [_ H]. eapply Forall_impl; [exact H |]. apply Hsame.
  - split; [by intros (? & ? & ?) | by intros [[? ?] _]].
Qed.

(** *** Without ZONE records *)

Lemma surface_loop_empty ss printed :
  surface_loop py_float ss (∅ : zone_map) printed =
  if decide (Forall (fun s : list string => (5 <= length s)%nat) ss)
  then (Ok ∅, printed) else (Raise IndexError, printed).
Proof.
  revert printed. induction ss as [|s ss IH]; intros printed; cbn [surface_loop].
  - by rewrite decide_True by constructor.
  - unfold surface_step, getitem. destruct (s !! 4%nat) as [n|] eqn:En.
    + rewrite decide_False by (rewrite lookup_empty; by intros [? ?]).
      rewrite IH, app_nil_r. apply lookup_lt_Some in En.
      destruct (decide (Forall _ ss)) as [Hss | Hss].
      * rewrite decide_True; [done |]. constructor; [lia | done].
      * rewrite decide_False; [done |]. by intros [_ ?]%Forall_cons.
    + rewrite app_nil_r. apply lookup_ge_None in En.
      rewrite decide_False; [done |]. intros [? _]%Forall_cons. lia.
Qed.

(** X12.  Without ZONE records (the key is missing or its list is empty)
    [extract_zones] returns the empty dict and prints nothing, whatever
    the surface records hold, unless one of them has fewer than five
    elements: then it raises [IndexError], since the zone name of a
    surface is read before it is looked up. *)
Theorem extract_zones_without_zones parsed_idf :
  get_records parsed_idf "ZONE" = [] ->
  extract_zones py_float parsed_idf =
  if decide (Forall (fun s : list string => (5 <= length s)%nat)
               (get_records parsed_idf "BUILDINGSURFACE:DETAILED"))
  then (Ok ∅, []) else (Raise IndexError, []).
Proof.
  intros Hz. unfold extract_zones. rewrite Hz. simpl. apply surface_loop_empty.
Qed.

End ExtractorMore.

(** ** The further properties on the examples *)

Example written_text :
  idf_text written_lead written_objects =
  "! a file" +:+ nl +:+ nl +:+
  "  Zone,Z1,  !- Name" +:+ nl +:+
  "    0;! the end" +:+ nl +:+ nl +:+
  " !=== next ===" +:+ nl +:+
  "Version, 9.4;" +:+ nl.
Proof. vm_compute. reflexivity. Qed.

Lemma parse_reads_written_objects_witness :
  exists d,
    parse (idf_text written_lead written_objects) = Ok d /\
    forall key,
      d !! key =
      match records_of_type key ((fun o : written_object => o.*1) <$> written_objects) with
      | [] => None
      | records => Some records
      end.
Proof.
  apply (parse_reads_written_objects written_lead written_objects).
  vm_compute. reflexivity.
Defined.

Lemma parse_raises_only_syntax_errors_witness :
  exists line,
    SyntaxError SyntaxErrorInInput 1 = SyntaxError SyntaxErrorInInput line /\
    (1 <= line <= 1 + Z.of_nat (String.length ZONE_Z1_text_of_spec))%Z.
Proof.
  apply (parse_raises_only_syntax_errors ZONE_Z1_text_of_spec).
  vm_compute. reflexivity.
Defined.

Lemma parse_fields_are_clean_witness :
  Forall (fun o : idfobject =>
            o <> [] /\
            Forall (fun f => strip f = f /\ all_chars value_char f = true) o)
    [["Zone"; "a"]; ["zone"; "b"; "c"]].
Proof.
  apply (parse_fields_are_clean grouping_text
           {[ "ZONE" := [["Zone"; "a"]; ["zone"; "b"; "c"]]; "OTHER" := [["OTHER"]] ]}
           "ZONE").
  - vm_compute. reflexivity.
  - vm_compute. reflexivity.
Defined.

Lemma extract_zones_names_witness :
  is_Some (mixed_zones !! "Z1") <->
  exists zone, zone ∈ get_records mixed_mapping "ZONE" /\ zone !! 1%nat = Some "Z1".
Proof.
  apply (extract_zones_names decimal_float mixed_mapping mixed_zones mixed_reports "Z1").
  vm_compute. reflexivity.
Defined.

Lemma extract_zones_surfaces_in_order_witness :
  [wall_S1_polygon] =
  omap (polygon_of decimal_float "Z1") (get_records mixed_mapping BSD).
Proof.
  apply (extract_zones_surfaces_in_order decimal_float mixed_mapping mixed_zones
           mixed_reports "Z1" (ZG (1%Q, 2%Q, 3%Q) [wall_S1_polygon])).
  - vm_compute. reflexivity.
  - vm_compute. reflexivity.
Defined.

Lemma extract_zones_reports_witness :
  mixed_reports =
  concat (report_of decimal_float mixed_zones <$> get_records mixed_mapping BSD).
Proof.
  apply (extract_zones_reports decimal_float mixed_mapping mixed_zones mixed_reports).
  vm_compute. reflexivity.
Defined.

Lemma extract_zones_exceptions_witness :
  IndexError = IndexError \/
  exists zone s,
    zone ∈ get_records short_mapping "ZONE" /\ s ∈ zone /\
    IndexError = ValueError (BadFloat s) /\ ([] : list report) = [].
Proof.
  apply (extract_zones_exceptions decimal_float short_mapping IndexError []).
  vm_compute. reflexivity.
Defined.

Lemma extract_zones_without_zones_witness :
  extract_zones decimal_float surfaces_only =
  if decide (Forall (fun s : list string => (5 <= length s)%nat)
               (get_records surfaces_only BSD))
  then (Ok ∅, []) else (Raise IndexError, []).
Proof.
  apply (extract_zones_without_zones decimal_float surfaces_only).
  vm_compute. reflexivity.
Defined.

(** The store of the example holds the mapping with the record
    [ZONE_Z1]. *)
Lemma ZONE_Z1_store_holds :
  is_mapping (Store.heap ZONE_Z1_store) (Store.VRef 2) {[ "ZONE" := [ZONE_Z1] ]}.
Proof.
  exists 2%nat, {[ "ZONE" := Store.VRef 1 ]}.
  split; [reflexivity |]. split; [reflexivity |]. intros key.
  destruct (decide (key = "ZONE")) as [-> | Hne].
  - rewrite !lookup_singleton_eq. constructor.
    exists 1%nat, [Store.VRef 0]. split; [reflexivity |]. split; [reflexivity |].
    constructor; [| constructor]. exists 0%nat. split; reflexivity.
  - rewrite !lookup_singleton_ne by done. constructor.
Qed.

Lemma store_extract_zones_agrees_witness :
  let '(r, st') := Store.extract_zones decimal_float (Store.VRef 2) ZONE_Z1_store in
  let '(r0, printed) := extract_zones decimal_float {[ "ZONE" := [ZONE_Z1] ]} in
  Store.stdout st' = Store.stdout ZONE_Z1_store ++ printed_lines printed /\
  match r0 with
  | Ok zones => exists v, r = Ok v /\ is_zones (Store.heap st') v zones
  | Raise e => r = Raise e
  end.
Proof.
  apply (store_extract_zones_agrees decimal_float (Store.VRef 2)
           {[ "ZONE" := [ZONE_Z1] ]} ZONE_Z1_store).
  apply ZONE_Z1_store_holds.
Defined.

(** The store of the two zones holds their mapping. *)
Lemma two_zones_store_holds :
  is_mapping (Store.heap two_zones_store) (Store.VRef 5) two_zones_mapping.
Proof.
  exists 5%nat, {[ "ZONE" := Store.VRef 3; BSD := Store.VRef 4 ]}.
  split; [reflexivity |]. split; [reflexivity |]. intros key.
  unfold two_zones_mapping.
  destruct (decide (key = "ZONE")) as [-> | Hne].
  - rewrite !lookup_insert_eq. constructor.
    exists 3%nat, [Store.VRef 0; Store.VRef 1].
    split; [reflexivity |]. split; [reflexivity |].
    constructor; [| constructor; [| constructor]].
    + exists 0%nat. split; reflexivity.
    + exists 1%nat. split; reflexivity.
  - rewrite !lookup_insert_ne by done.
    destruct (decide (key = BSD)) as [-> | Hne'].
    + rewrite !lookup_singleton_eq. constructor.
      exists 4%nat, [Store.VRef 2]. split; [reflexivity |]. split; [reflexivity |].
      constructor; [| constructor]. exists 2%nat. split; reflexivity.
    + rewrite !lookup_singleton_ne by done. constructor.
Qed.

Lemma store_zones_do_not_share_witness :
  exists zl sls,
    (Store.extract_zones decimal_float (Store.VRef 5) two_zones_store).1 =
      Ok (Store.VRef zl) /\
    is_zones_at
      (Store.heap (Store.extract_zones decimal_float (Store.VRef 5) two_zones_store).2)
      zl sls
      {[ "Z1" := ZG (1%Q, 2%Q, 3%Q) [wall_S1_polygon];
         "Z2" := ZG (4%Q, 5%Q, 6%Q) [] ]} /\
    forall k1 k2 sl, sls !! k1 = Some sl -> sls !! k2 = Some sl -> k1 = k2.
Proof.
  apply (store_zones_do_not_share decimal_float (Store.VRef 5)
           two_zones_mapping two_zones_store _ []).
  - apply two_zones_store_holds.
  - vm_compute. reflexivity.
Defined.
